(** * pqdict: an indexed priority queue (priority queue dictionary)

    A shallow embedding of [src/pqdict.py].  A [PQDict] keeps a binary heap
    of entry objects in a Python list [_heap] and a dict [_position] from
    dictionary keys to heap indices.  Entry objects are mutable and are
    compared by identity in [__delitem__] and [pop], so they live in an
    explicit object store; the heap list holds references into it.

    Python integers are [Z]; list indices follow Python's rules (negative
    indices count from the end, out-of-range access raises [IndexError]);
    exceptions leave the state as it was when they were raised. *)

From stdpp Require Import gmap strings list fin_maps list_numbers sorting.

Local Open Scope Z_scope.

(** ** Entry classes *)

(** The class of an entry object: [_MinEntry], [_MaxEntry], or a user
    subclass of [PQDictEntry], represented by how its [__lt__] compares
    priority keys. *)
Inductive EntryKind :=
  | MinEntry
  | MaxEntry
  | CustomEntry (lt : Z → Z → bool).

(** The exceptions the module raises or lets escape. *)
Inductive exn := KeyError | IndexError | TypeError | NameError.

Global Instance exn_eq_dec : EqDecision exn.
Proof. solve_decision. Defined.

(** References to entry objects. *)
Abbreviation loc := nat.

Section pqdict.
Context {K : Type} `{Countable K} `{!Inhabited K}.

(** [PQDictEntry]: the attributes [dkey] and [pkey], and the class the
    object was created from. *)
Record Entry := PQDictEntry { kind : EntryKind; dkey : K; pkey : Z }.

Global Instance Entry_inhabited : Inhabited Entry :=
  populate (PQDictEntry MinEntry inhabitant 0).

(** [self < other]: Python calls [__lt__] of the left operand's class. *)
Definition entry_lt (self other : Entry) : bool :=
  match kind self with
  | MinEntry => pkey self <? pkey other
  | MaxEntry => pkey self >? pkey other
  | CustomEntry lt => lt (pkey self) (pkey other)
  end.

(** The instance attributes of a [PQDict] object. [create_entry] is the
    class attribute [_MinEntry] unless an instance attribute shadows it. *)
Record PQDict := mkPQDict {
  create_entry : EntryKind;
  _heap : list loc;
  _position : gmap K Z
}.

(** The state a method runs in: the object store and the receiver. *)
Record world := mkWorld { mem : gmap loc Entry; self : PQDict }.

Definition with_mem (σ : gmap loc Entry) (w : world) : world :=
  mkWorld σ (self w).
Definition with_heap (h : list loc) (w : world) : world :=
  mkWorld (mem w) (mkPQDict (create_entry (self w)) h (_position (self w))).
Definition with_position (p : gmap K Z) (w : world) : world :=
  mkWorld (mem w) (mkPQDict (create_entry (self w)) (_heap (self w)) p).
Definition with_create_entry (c : EntryKind) (w : world) : world :=
  mkWorld (mem w) (mkPQDict c (_heap (self w)) (_position (self w))).

(** ** The monad of methods: state, exceptions, and running out of fuel *)

Inductive outcome (A : Type) :=
  | Return (a : A) (w : world)
  | Raise (e : exn) (w : world)
  | Hang.
Global Arguments Return {A} a w.
Global Arguments Raise {A} e w.
Global Arguments Hang {A}.

Definition M (A : Type) : Type := world → outcome A.

Global Instance M_ret : MRet M := λ A a w, Return a w.
Global Instance M_bind : MBind M := λ A B f m w,
  match m w with
  | Return a w' => f a w'
  | Raise e w' => Raise e w'
  | Hang => Hang
  end.

Definition raise {A} (e : exn) : M A := λ w, Raise e w.
Definition hang {A} : M A := λ _, Hang.

(** [try: body / except e: handler / else: orelse] *)
Definition try_except_else {A B} (body : M A) (e : exn)
    (handler : M B) (orelse : A → M B) : M B := λ w,
  match body w with
  | Return a w' => orelse a w'
  | Raise e' w' => if decide (e' = e) then handler w' else Raise e' w'
  | Hang => Hang
  end.

Definition try_except {A} (body : M A) (e : exn) (handler : M A) : M A :=
  try_except_else body e handler mret.

(** ** Python lists and dicts *)

(** The slot a Python index denotes in a list of length [n]. *)
Definition py_index (n : nat) (i : Z) : option nat :=
  if bool_decide (0 ≤ i < Z.of_nat n) then Some (Z.to_nat i)
  else if bool_decide (- Z.of_nat n ≤ i < 0) then Some (Z.to_nat (Z.of_nat n + i))
  else None.

(** [len(heap)] *)
Definition heap_len : M Z := λ w, Return (Z.of_nat (length (_heap (self w)))) w.

(** [heap[i]] *)
Definition heap_getitem (i : Z) : M loc := λ w,
  match py_index (length (_heap (self w))) i with
  | Some n =>
      match _heap (self w) !! n with
      | Some x => Return x w
      | None => Raise IndexError w
      end
  | None => Raise IndexError w
  end.

(** [heap[i] = x] *)
Definition heap_setitem (i : Z) (x : loc) : M unit := λ w,
  match py_index (length (_heap (self w))) i with
  | Some n => Return () (with_heap (<[n:=x]> (_heap (self w))) w)
  | None => Raise IndexError w
  end.

(** [heap.append(x)] *)
Definition heap_append (x : loc) : M unit := λ w,
  Return () (with_heap (_heap (self w) ++ [x]) w).

(** [heap.pop(-1)] *)
Definition heap_pop : M loc := λ w,
  match last (_heap (self w)) with
  | Some x => Return x (with_heap (removelast (_heap (self w))) w)
  | None => Raise IndexError w
  end.

(** [position[k]] *)
Definition position_getitem (k : K) : M Z := λ w,
  match _position (self w) !! k with
  | Some i => Return i w
  | None => Raise KeyError w
  end.

(** [position[k] = i] *)
Definition position_setitem (k : K) (i : Z) : M unit := λ w,
  Return () (with_position (<[k:=i]> (_position (self w))) w).

(** [position.pop(k)] *)
Definition position_pop (k : K) : M Z := λ w,
  match _position (self w) !! k with
  | Some i => Return i (with_position (delete k (_position (self w))) w)
  | None => Raise KeyError w
  end.

(** [del position[k]] *)
Definition position_delitem (k : K) : M unit := λ w,
  match _position (self w) !! k with
  | Some _ => Return () (with_position (delete k (_position (self w))) w)
  | None => Raise KeyError w
  end.

(** [k in position] *)
Definition position_contains (k : K) : M bool := λ w,
  Return (bool_decide (is_Some (_position (self w) !! k))) w.

(** ** Entry objects *)

(** [self.create_entry(dkey, pkey)]: a new object of the queue's entry
    class. *)
Definition new_entry (dk : K) (pk : Z) : M loc := λ w,
  let l := fresh (dom (mem w)) in
  Return l (with_mem (<[l := PQDictEntry (create_entry (self w)) dk pk]> (mem w)) w).

(** [copy(entry)]: a new object of the same class with the same
    attributes. *)
Definition copy_entry (e : loc) : M loc := λ w,
  let l := fresh (dom (mem w)) in
  Return l (with_mem (<[l := mem w !!! e]> (mem w)) w).

(** [e.dkey] and [e.pkey] *)
Definition entry_dkey (e : loc) : M K := λ w, Return (dkey (mem w !!! e)) w.
Definition entry_pkey (e : loc) : M Z := λ w, Return (pkey (mem w !!! e)) w.

(** [e.pkey = pk] *)
Definition entry_set_pkey (e : loc) (pk : Z) : M unit := λ w,
  let o := mem w !!! e in
  Return () (with_mem (<[e := PQDictEntry (kind o) (dkey o) pk]> (mem w)) w).

(** [a < b] on entry objects *)
Definition lt (a b : loc) : M bool := λ w,
  Return (entry_lt (mem w !!! a) (mem w !!! b)) w.

(** ** The heap primitives *)

(** The [while pos > top] loop of [_swim]; returns the final [pos]. *)
Fixpoint swim_loop (fuel : nat) (entry : loc) (pos top : Z) : M Z :=
  match fuel with
  | O => hang
  | S fuel =>
      if bool_decide (pos > top) then
        let parent_pos := (pos - 1) ≫ 1 in
        parent_entry ← heap_getitem parent_pos;
        b ← lt entry parent_entry;
        if b : bool then
          heap_setitem pos parent_entry;;
          k ← entry_dkey parent_entry;
          position_setitem k pos;;
          swim_loop fuel entry parent_pos top
        else mret pos
      else mret pos
  end.

Definition _swim (pos top : Z) : M unit :=
  entry ← heap_getitem pos;
  pos ← swim_loop (S (Z.to_nat pos)) entry pos top;
  heap_setitem pos entry;;
  k ← entry_dkey entry;
  position_setitem k pos.

(** [other_pos < endpos and not heap[child_pos] < heap[other_pos]] *)
Definition right_child_wins (endpos child_pos other_pos : Z) : M bool :=
  if bool_decide (other_pos < endpos) then
    a ← heap_getitem child_pos;
    b ← heap_getitem other_pos;
    r ← lt a b;
    mret (negb r)
  else mret false.

(** The [while child_pos < endpos] loop of [_sink]; returns the final
    [pos]. *)
Fixpoint sink_loop (fuel : nat) (endpos pos child_pos : Z) : M Z :=
  match fuel with
  | O => hang
  | S fuel =>
      if bool_decide (child_pos < endpos) then
        let other_pos := child_pos + 1 in
        c ← right_child_wins endpos child_pos other_pos;
        let child_pos := if c : bool then other_pos else child_pos in
        child_entry ← heap_getitem child_pos;
        heap_setitem pos child_entry;;
        k ← entry_dkey child_entry;
        position_setitem k pos;;
        let pos := child_pos in
        sink_loop fuel endpos pos (2 * pos + 1)
      else mret pos
  end.

Definition _sink (top : Z) : M unit :=
  endpos ← heap_len;
  let pos := top in
  entry ← heap_getitem pos;
  let child_pos := 2 * pos + 1 in
  pos ← sink_loop (S (Z.to_nat endpos)) endpos pos child_pos;
  heap_setitem pos entry;;
  k ← entry_dkey entry;
  position_setitem k pos;;
  _swim pos top.

(** [for pos in reversed(range(n//2)): self._sink(pos)] *)
Fixpoint for_each (l : list Z) (body : Z → M unit) : M unit :=
  match l with
  | [] => mret ()
  | x :: l => body x;; for_each l body
  end.

Definition _heapify : M unit :=
  n ← heap_len;
  for_each (reverse (seqZ 0 (n `div` 2))) _sink.

(** The block shared by [__setitem__], [__delitem__] and [pop]: the entry
    at [pos] swims if it beats its parent, else sinks if its better child
    beats it. *)
Definition reposition (pos : Z) : M unit :=
  let parent_pos := (pos - 1) ≫ 1 in
  let child_pos := 2 * pos + 1 in
  up ← (if bool_decide (parent_pos > -1) then
          a ← heap_getitem pos;
          b ← heap_getitem parent_pos;
          lt a b
        else mret false);
  if up : bool then _swim pos 0
  else
    n ← heap_len;
    if bool_decide (child_pos < n) then
      let other_pos := child_pos + 1 in
      c ← right_child_wins n child_pos other_pos;
      let child_pos := if c : bool then other_pos else child_pos in
      a ← heap_getitem child_pos;
      b ← heap_getitem pos;
      down ← lt a b;
      if down : bool then _sink pos else mret ()
    else mret ().

(** ** The methods of [PQDict] *)

(** The two [for dkey, pkey in ...] loops of [__init__]; returns [pos]. *)
Fixpoint init_loop (seq : list (K * Z)) (pos : Z) : M Z :=
  match seq with
  | [] => mret pos
  | (dk, pk) :: seq =>
      entry ← new_entry dk pk;
      heap_append entry;;
      position_setitem dk pos;;
      init_loop seq (pos + 1)
  end.

(** [__init__]. A positional argument is given by
    the pairs it yields: the sequence itself, or [items()] of a mapping. *)
Definition __init__ (args : list (list (K * Z))) (kwargs : list (K * Z)) : M unit :=
  if bool_decide (Z.of_nat (length args) > 1) then raise TypeError
  else
    (λ w, Return () (with_position ∅ (with_heap [] w)));;
    let pos := 0 in
    pos ← match args with
          | seq :: _ => init_loop seq pos
          | [] => mret pos
          end;
    _ ← match kwargs with
        | [] => mret pos
        | _ => init_loop kwargs pos
        end;
    _heapify.

Definition __len__ : M Z := heap_len.

Definition __contains__ (dk : K) : M bool := position_contains dk.

Definition __getitem__ (dk : K) : M Z :=
  pos ← position_getitem dk;
  e ← heap_getitem pos;
  entry_pkey e.

Definition __setitem__ (dk : K) (pk : Z) : M unit :=
  try_except_else (position_getitem dk) KeyError
    (n ← heap_len;
     e ← new_entry dk pk;
     heap_append e;;
     position_setitem dk n;;
     _swim n 0)
    (λ pos,
     e ← heap_getitem pos;
     entry_set_pkey e pk;;
     reposition pos).

(** The tail shared by [__delitem__] and [pop] once [end] has been popped. *)
Definition fill_vacated (pos : Z) (entry_to_delete last_entry : loc) : M unit :=
  if bool_decide (last_entry ≠ entry_to_delete) then
    heap_setitem pos last_entry;;
    k ← entry_dkey last_entry;
    position_setitem k pos;;
    reposition pos
  else mret ().

Definition __delitem__ (dk : K) : M unit :=
  pos ← position_pop dk;
  entry_to_delete ← heap_getitem pos;
  last_entry ← heap_pop;
  fill_vacated pos entry_to_delete last_entry.

(** [pop(dkey)] is [pop dk None]; [pop(dkey, d)] is [pop dk (Some d)]. *)
Definition pop (dk : K) (default : option Z) : M Z :=
  try_except_else (position_pop dk) KeyError
    (match default with
     | None => raise KeyError
     | Some d => mret d
     end)
    (λ pos,
     entry_to_delete ← heap_getitem pos;
     pk ← entry_pkey entry_to_delete;
     last_entry ← heap_pop;
     fill_vacated pos entry_to_delete last_entry;;
     mret pk).

Definition popitem : M (K * Z) :=
  last_entry ← try_except heap_pop IndexError (raise KeyError);
  n ← heap_len;
  entry ← (if bool_decide (n ≠ 0) then
             entry ← heap_getitem 0;
             heap_setitem 0 last_entry;;
             k ← entry_dkey last_entry;
             position_setitem k 0;;
             _sink 0;;
             mret entry
           else mret last_entry);
  k ← entry_dkey entry;
  position_delitem k;;
  pk ← entry_pkey entry;
  mret (k, pk).

Definition additem (dk : K) (pk : Z) : M unit :=
  present ← position_contains dk;
  if present : bool then raise KeyError else __setitem__ dk pk.

Definition updateitem (dk : K) (new_pkey : Z) : M unit :=
  present ← position_contains dk;
  if negb present then raise KeyError else __setitem__ dk new_pkey.

(** A name that is bound neither locally nor at module level. *)
Definition unbound_name {A} (name : string) : M A := raise NameError.

(** [pushpopitem] reads [self_position] and [key], which are bound
    nowhere. *)
Definition pushpopitem (dk : K) (pk : Z) : M (K * Z) :=
  position ← unbound_name (A := gmap K Z) "self_position";
  key ← unbound_name (A := Z) "key";
  entry ← new_entry dk key;
  n ← heap_len;
  swap ← (if bool_decide (n ≠ 0) then
            top ← heap_getitem 0;
            lt top entry
          else mret false);
  entry ← (if swap : bool then
             top ← heap_getitem 0;
             heap_setitem 0 entry;;
             _sink 0;;
             mret top
           else mret entry);
  k ← entry_dkey entry;
  p ← entry_pkey entry;
  mret (k, p).

Definition peek : M (K * Z) :=
  entry ← try_except (heap_getitem 0) IndexError (raise KeyError);
  k ← entry_dkey entry;
  pk ← entry_pkey entry;
  mret (k, pk).

(** [iteritems] run to exhaustion: [popitem] until it raises [KeyError]. *)
Fixpoint iteritems_loop (fuel : nat) : M (list (K * Z)) :=
  match fuel with
  | O => hang
  | S fuel =>
      try_except_else popitem KeyError (mret [])
        (λ item, rest ← iteritems_loop fuel; mret (item :: rest))
  end.

Definition iteritems : M (list (K * Z)) := λ w,
  iteritems_loop (S (length (_heap (self w)))) w.

(** [iterkeys] and [itervalues] run to exhaustion: the first, resp. the
    second component of what [popitem] returns, until it raises
    [KeyError]. *)
Fixpoint iterkeys_loop (fuel : nat) : M (list K) :=
  match fuel with
  | O => hang
  | S fuel =>
      try_except_else popitem KeyError (mret [])
        (λ item, rest ← iterkeys_loop fuel; mret (item.1 :: rest))
  end.

Definition iterkeys : M (list K) := λ w,
  iterkeys_loop (S (length (_heap (self w)))) w.

Fixpoint itervalues_loop (fuel : nat) : M (list Z) :=
  match fuel with
  | O => hang
  | S fuel =>
      try_except_else popitem KeyError (mret [])
        (λ item, rest ← itervalues_loop fuel; mret (item.2 :: rest))
  end.

Definition itervalues : M (list Z) := λ w,
  itervalues_loop (S (length (_heap (self w)))) w.

(** [__iter__] run to exhaustion, the queue being left alone meanwhile:
    [entry.dkey] for every entry of the heap list, in list order. *)
Fixpoint iter_loop (entries : list loc) : M (list K) :=
  match entries with
  | [] => mret []
  | entry :: entries =>
      k ← entry_dkey entry;
      rest ← iter_loop entries;
      mret (k :: rest)
  end.

Definition __iter__ : M (list K) := λ w, iter_loop (_heap (self w)) w.

(** ** Constructors and module-level functions *)

(** [cls()]: a new object, initialised with no arguments. *)
Definition new_PQDict (σ : gmap loc Entry) : outcome unit :=
  __init__ [] [] (mkWorld σ (mkPQDict MinEntry [] ∅)).

(** Run [m] on the object an earlier step produced. *)
Definition and_then {A B} (o : outcome A) (m : M B) : outcome B :=
  match o with
  | Return _ w => m w
  | Raise e w => Raise e w
  | Hang => Hang
  end.

(** [PQDict(...)]: the class called with the arguments of [__init__] *)
Definition PQDict_call (args : list (list (K * Z))) (kwargs : list (K * Z))
    (σ : gmap loc Entry) : outcome unit :=
  __init__ args kwargs (mkWorld σ (mkPQDict MinEntry [] ∅)).

Definition set_create_entry (c : EntryKind) : M unit := λ w,
  Return () (with_create_entry c w).

Definition minpq (args : list (list (K * Z))) (kwargs : list (K * Z))
    (σ : gmap loc Entry) : outcome unit :=
  and_then (new_PQDict σ) (set_create_entry MinEntry;; __init__ args kwargs).

Definition maxpq (args : list (list (K * Z))) (kwargs : list (K * Z))
    (σ : gmap loc Entry) : outcome unit :=
  and_then (new_PQDict σ) (set_create_entry MaxEntry;; __init__ args kwargs).

(** The class passed to [custompq]: a subclass of [PQDictEntry] or not. *)
Inductive pyclass := EntryClass (c : EntryKind) | OtherClass.

Definition custompq (entrytype : pyclass) (args : list (list (K * Z)))
    (kwargs : list (K * Z)) (σ : gmap loc Entry) : outcome unit :=
  and_then (new_PQDict σ)
    (match entrytype with
     | EntryClass c => set_create_entry c
     | OtherClass => raise TypeError
     end;;
     __init__ args kwargs).

(** [fromfunction(iterable, pkeygen)]: the class called with the pairs
    [(dkey, pkeygen(dkey))]; [iterable] is given by the keys it yields and
    [pkeygen] is a function without effects. *)
Definition fromfunction (iterable : list K) (pkeygen : K → Z)
    (σ : gmap loc Entry) : outcome unit :=
  PQDict_call [(λ dk, (dk, pkeygen dk)) <$> iterable] [] σ.

(** [__copy__]: returns the new object; the receiver is left as it is. *)
Fixpoint copy_entries (l : list loc) : M (list loc) :=
  match l with
  | [] => mret []
  | e :: l => e' ← copy_entry e; l' ← copy_entries l; mret (e' :: l')
  end.

Definition __copy__ : M PQDict := λ w,
  match new_PQDict (mem w) with
  | Return _ w0 =>
      match copy_entries (_heap (self w)) (mkWorld (mem w0) (self w)) with
      | Return h w1 =>
          Return (mkPQDict (create_entry (self w0)) h (_position (self w))) w1
      | Raise e w1 => Raise e w1
      | Hang => Hang
      end
  | Raise e _ => Raise e w
  | Hang => Hang
  end.

(** [sort_by_value(mapping, reverse)]; [mapping] is given by its items. *)
Definition sort_by_value (mapping : list (K * Z)) (reverse : bool)
    (σ : gmap loc Entry) : outcome (list (K * Z)) :=
  and_then (if reverse then maxpq [mapping] [] σ else PQDict_call [mapping] [] σ)
    iteritems.

End pqdict.

(** * Vocabulary of the specification *)

(** The parent slot, as [_swim] computes it. *)
Definition parent (i : Z) : Z := (i - 1) ≫ 1.

(** [anc top pos]: [pos] lies in the subtree rooted at [top]. *)
Inductive anc (top : Z) : Z → Prop :=
  | anc_refl : anc top top
  | anc_child pos c : anc top pos → 0 < c → parent c = pos → anc top c.

Section heap_order_defs.
Context {A : Type} (bt : A → A → bool).

(** What the heap algorithms need of the comparison between entries. *)
Record strict_weak_order : Prop := {
  swo_irrefl x : bt x x = false;
  swo_trans x y z : bt x y = true → bt y z = true → bt x z = true;
  swo_negtrans x y z : bt x y = false → bt y z = false → bt x z = false
}.

(** The entry in slot [i] is not better than the one in its parent slot. *)
Definition edge_ok (l : list A) (i : Z) : Prop :=
  ∀ a b, l !! Z.to_nat i = Some a → l !! Z.to_nat (parent i) = Some b →
    bt a b = false.

(** Heap order on every edge whose parent slot is at least [lo]. *)
Definition ordered_from (lo : Z) (l : list A) : Prop :=
  ∀ i, 0 < i → lo ≤ parent i → edge_ok l i.

Definition heap_ordered (l : list A) : Prop := ordered_from 0 l.

(** The children of [pos] are not better than the parent of [pos]. *)
Definition grands_ok (lo pos : Z) (l : list A) : Prop :=
  0 < pos → lo ≤ parent pos →
  ∀ c a b, 0 < c → parent c = pos →
    l !! Z.to_nat c = Some a → l !! Z.to_nat (parent pos) = Some b →
    bt a b = false.

(** Heap order except on the edges that touch slot [pos]. *)
Definition down_hole (lo pos : Z) (l : list A) : Prop :=
  (∀ i, 0 < i → lo ≤ parent i → i ≠ pos → parent i ≠ pos → edge_ok l i)
  ∧ grands_ok lo pos l.

(** Heap order except on the edge from [pos] to its parent. *)
Definition up_hole (lo pos : Z) (l : list A) : Prop :=
  (∀ i, 0 < i → lo ≤ parent i → i ≠ pos → edge_ok l i)
  ∧ grands_ok lo pos l.

End heap_order_defs.

Section vocabulary.
Context {K : Type} `{Countable K} `{!Inhabited K}.
Implicit Types (σ : gmap loc (Entry (K:=K))) (c ck : EntryKind) (h hf : list loc)
  (P : gmap K Z) (w : world (K:=K)) (e x l : loc).

Local Abbreviation W σ c h P := (mkWorld σ (mkPQDict c h P)).

(** Moving [x] out of slot [j] into the hole at [pos]; the held entry [e]
    fills slot [j] in its place. *)
Definition move (hf : list loc) (pos j : Z) (e x : loc) : list loc :=
  <[Z.to_nat j := e]> (<[Z.to_nat pos := x]> hf).

(** The child slot [_sink] descends into from [pos]: the right child if
    there is one and the left child is not better than it, else the left
    child. *)
Definition child_choice σ (hf : list loc) (pos j : Z) : Prop :=
  ∃ a, hf !! Z.to_nat (2 * pos + 1) = Some a ∧
    match hf !! Z.to_nat (2 * pos + 2) with
    | Some b => if entry_lt (σ !!! a) (σ !!! b) then j = 2 * pos + 1 else j = 2 * pos + 2
    | None => j = 2 * pos + 1
    end.

(** The comparison an entry class applies to priority keys. *)
Definition cmp_of c : Z → Z → bool :=
  match c with
  | MinEntry => Z.ltb
  | MaxEntry => Z.gtb
  | CustomEntry f => f
  end.

Definition keyof σ l : K := dkey (σ !!! l).

Definition prio σ l : Z := pkey (σ !!! l).

Definition prios σ h : list Z := prio σ <$> h.

(** Every slot refers to a live object. *)
Definition allocated σ h : Prop := ∀ l, l ∈ h → is_Some (σ !! l).

(** Every slot refers to a live entry of the queue's entry class. *)
Definition entries_ok σ c h : Prop :=
  ∀ l, l ∈ h → is_Some (σ !! l) ∧ kind (σ !!! l) = c.

(** Every index entry, except those of the keys in [X], points at a slot
    that holds its key. *)
Definition pos_sound_ex (X : K → Prop) σ h P : Prop :=
  ∀ k i, P !! k = Some i → ¬ X k →
    0 ≤ i ∧ ∃ l, h !! Z.to_nat i = Some l ∧ keyof σ l = k.

Definition pos_sound σ h P : Prop := pos_sound_ex (λ _, False) σ h P.

(** Every slot is indexed under the key it holds. *)
Definition pos_complete σ h P : Prop :=
  ∀ (i : nat) l, h !! i = Some l → P !! keyof σ l = Some (Z.of_nat i).

(** While [e] is held out of the list, [hf] is the list with [e] written
    into the hole; the index entry of [e]'s key is stale, and [e] itself
    need not be indexed. *)
Definition holding (X : K → Prop) σ e : K → Prop := λ k, X k ∨ k = keyof σ e.

Definition pos_complete_hole σ e hf P : Prop :=
  ∀ (i : nat) l, hf !! i = Some l → l ≠ e → P !! keyof σ l = Some (Z.of_nat i).

(** The state of a queue between two method calls whose entries all
    belong to the class [ck]. *)
Record wfk (ck : EntryKind) w : Prop := {
  wfk_swo : strict_weak_order (cmp_of ck);
  wfk_nodup : NoDup (_heap (self w));
  wfk_entries : entries_ok (mem w) ck (_heap (self w));
  wfk_sound : pos_sound (mem w) (_heap (self w)) (_position (self w));
  wfk_order : heap_ordered (cmp_of ck) (prios (mem w) (_heap (self w)))
}.

(** The state of a queue as its own methods keep it, whatever the
    arguments of the constructor were: the entries belong to the class
    the queue creates. *)
Definition wfw w : Prop := wfk (create_entry (self w)) w.

(** The state of a queue whose index covers every slot. *)
Definition wf w : Prop :=
  wfw w ∧ pos_complete (mem w) (_heap (self w)) (_position (self w)).

(** Assigning [pkey] keeps the key and the class of every object. *)
Definition set_pkey σ l (pk : Z) : gmap loc (Entry (K:=K)) :=
  <[l := PQDictEntry (kind (σ !!! l)) (dkey (σ !!! l)) pk]> σ.

(** The pairs a heap list holds, slot by slot. *)
Definition items σ h : list (K * Z) := (λ l, (keyof σ l, prio σ l)) <$> h.

(** The state a call leaves behind, whether it returns or raises. *)
Definition final {A} (o : outcome (K:=K) A) : option world :=
  match o with
  | Return _ w | Raise _ w => Some w
  | Hang => None
  end.


(** The call ends, and ends in a state where [Q] holds. *)
Definition ends_in {A} (Q : world (K:=K) → Prop) (o : outcome A) : Prop :=
  match o with
  | Return _ w | Raise _ w => Q w
  | Hang => False
  end.

Definition pcomplete w : Prop :=
  pos_complete (mem w) (_heap (self w)) (_position (self w)).

(** What a method keeps of the state [w] it started in. *)
Definition kept ck w (w' : world) : Prop :=
  wfk ck w'
  ∧ create_entry (self w') = create_entry (self w)
  ∧ (pcomplete w → pcomplete w').

(** The pairs [__init__] loads, in order. *)
Definition init_pairs (args : list (list (K * Z))) (kwargs : list (K * Z)) :
    list (K * Z) :=
  match args with
  | seq :: _ => seq
  | [] => []
  end ++ kwargs.

(** [popitem] called [n] times in a row. *)
Fixpoint popitems (n : nat) : M (K:=K) (list (K * Z)) :=
  match n with
  | O => mret []
  | S n => item ← popitem; rest ← popitems n; mret (item :: rest)
  end.

(** The order in which [popitem] hands out priorities. *)
Definition pops_before ck (a b : K * Z) : Prop := cmp_of ck b.2 a.2 = false.

(** The priority [q[k]] reads in store [σ], if the lookup returns. *)
Definition lookup_priority σ (q : PQDict (K:=K)) (k : K) : option Z :=
  match __getitem__ k (mkWorld σ q) with
  | Return p _ => Some p
  | _ => None
  end.

(** The heap property: under the ordering of the queue, and as Python
    evaluates [heap[i] < heap[parent]], no entry is better than its
    parent. *)
Definition heap_property w : Prop :=
  ∀ i a b, 0 < i →
    _heap (self w) !! Z.to_nat i = Some a →
    _heap (self w) !! Z.to_nat ((i - 1) ≫ 1) = Some b →
    cmp_of (create_entry (self w)) (pkey (mem w !!! a)) (pkey (mem w !!! b)) = false
    ∧ entry_lt (mem w !!! a) (mem w !!! b) = false.

(** The states public operations reach. A custom entry class must compare
    priority keys by a strict weak order. *)
Inductive reachable : world (K:=K) → Prop :=
  | reach_PQDict σ args kwargs w :
      PQDict_call args kwargs σ = Return () w → reachable w
  | reach_minpq σ args kwargs w :
      minpq args kwargs σ = Return () w → reachable w
  | reach_maxpq σ args kwargs w :
      maxpq args kwargs σ = Return () w → reachable w
  | reach_custompq σ c args kwargs w :
      strict_weak_order (cmp_of c) →
      custompq (EntryClass c) args kwargs σ = Return () w → reachable w
  | reach_setitem w dk pk w' :
      reachable w → final (__setitem__ dk pk w) = Some w' → reachable w'
  | reach_additem w dk pk w' :
      reachable w → final (additem dk pk w) = Some w' → reachable w'
  | reach_updateitem w dk pk w' :
      reachable w → final (updateitem dk pk w) = Some w' → reachable w'
  | reach_delitem w dk w' :
      reachable w → final (__delitem__ dk w) = Some w' → reachable w'
  | reach_pop w dk default w' :
      reachable w → final (pop dk default w) = Some w' → reachable w'
  | reach_popitem w w' :
      reachable w → final (popitem w) = Some w' → reachable w'.

(** The index and the heap list agree on every key's slot, and have the
    same size. *)
Definition index_bijection w : Prop :=
  (∀ k i, _position (self w) !! k = Some i ↔
     0 ≤ i ∧ ∃ l, _heap (self w) !! Z.to_nat i = Some l ∧ dkey (mem w !!! l) = k)
  ∧ length (_heap (self w)) = size (_position (self w)).

(** [m] raises [e] exactly when [cond] holds, leaving the state as it
    was; otherwise it returns. *)
Definition raises_iff {A} (m : M (K:=K) A) (e : exn) (cond : Prop) w : Prop :=
  (cond → m w = Raise e w) ∧ (¬ cond → ∃ a w', m w = Return a w').

(** Two queues that live in the same store, each well formed, that share
    no entry object. *)
Definition independent σ (a b : PQDict (K:=K)) : Prop :=
  (∃ ca, wfk ca (mkWorld σ a) ∧ pcomplete (mkWorld σ a))
  ∧ (∃ cb, wfk cb (mkWorld σ b) ∧ pcomplete (mkWorld σ b))
  ∧ ∀ x, x ∈ _heap a → x ∉ _heap b.

(** The mapping a queue stands for: the pairs of its heap list, by key. *)
Definition contents w : gmap K Z :=
  list_to_map (items (mem w) (_heap (self w))).

(** The priority [q[k]] reads in state [w], if the lookup returns. *)
Definition priority w (k : K) : option Z := lookup_priority (mem w) (self w) k.

(** One call of a method that changes the queue. *)
Definition mutation w w' : Prop :=
  ∃ dk pk default,
    final (__setitem__ dk pk w) = Some w' ∨ final (additem dk pk w) = Some w'
    ∨ final (updateitem dk pk w) = Some w' ∨ final (__delitem__ dk w) = Some w'
    ∨ final (pop dk default w) = Some w' ∨ final (popitem w) = Some w'.

(** The call returns, or raises [KeyError]: it neither runs forever nor
    lets another exception escape. *)
Definition returns_or_KeyError {A} (o : outcome (K:=K) A) : Prop :=
  match o with
  | Return _ _ => True
  | Raise e _ => e = KeyError
  | Hang => False
  end.

End vocabulary.

(** * Scenarios with string keys *)

Definition example_pairs : list (string * Z) :=
  [("a", 5); ("b", 3); ("c", 8); ("d", 1)].

(** [PQDict({a:5, b:3, c:8, d:1})] and [PQDict.maxpq] of the same, built
    in an empty store. *)
Definition example_queue : world (K:=string) :=
  default (mkWorld ∅ (mkPQDict MinEntry [] ∅))
    (final (PQDict_call [example_pairs] [] ∅)).

Definition example_max_queue : world (K:=string) :=
  default (mkWorld ∅ (mkPQDict MinEntry [] ∅))
    (final (maxpq [example_pairs] [] ∅)).

(** The ascending queue after [pq["a"] = 0] and [del pq["b"]]. *)
Definition example_after_update : world (K:=string) :=
  default example_queue (final (__setitem__ "a" 0 example_queue)).

Definition example_after_delete : world (K:=string) :=
  default example_queue (final (__delitem__ "b" example_after_update)).





(** * Heap order on Python lists *)

Lemma shiftr1 (x : Z) : x ≫ 1 = x `div` 2.
Proof. by rewrite Z.shiftr_div_pow2. Qed.

Ltac zlia := rewrite ?shiftr1 in *; Z.div_mod_to_equations; lia.

Lemma parent_lt i : 0 < i → 0 ≤ parent i < i.
Proof. unfold parent. zlia. Qed.

Lemma parent_children i c : 0 ≤ i → 0 < c → parent c = i ↔ c = 2 * i + 1 ∨ c = 2 * i + 2.
Proof. unfold parent. zlia. Qed.

Lemma anc_le top pos : 0 ≤ top → anc top pos → top ≤ pos.
Proof.
  intros Htop. induction 1 as [|pos c _ IH Hc Hp]; [lia|].
  pose proof (parent_lt c Hc). lia.
Qed.

Lemma anc_root pos : 0 ≤ pos → anc 0 pos.
Proof.
  intros Hpos. rewrite <-(Z2Nat.id pos) by done.
  induction (lt_wf (Z.to_nat pos)) as [n _ IH]. destruct n as [|n]; [constructor|].
  pose proof (parent_lt (Z.of_nat (S n)) ltac:(lia)) as Hp.
  eapply anc_child; [|lia|done].
  rewrite <-(Z2Nat.id (parent _)) by lia. apply IH. lia.
Qed.

Lemma anc_parent top pos : anc top pos → pos ≠ top → anc top (parent pos).
Proof. destruct 1 as [|q c Hq Hc Hp]; [done|]. by rewrite Hp. Qed.

Section heap_order.
Context {A : Type} (bt : A → A → bool).

Lemma swo_asym : strict_weak_order bt → ∀ x y, bt x y = true → bt y x = false.
Proof.
  intros Hs x y Hxy. destruct (bt y x) eqn:Hyx; [|done].
  by rewrite <-(swo_irrefl bt Hs x), (swo_trans bt Hs x y x).
Qed.

Lemma ordered_from_mono lo lo' l : lo ≤ lo' → ordered_from bt lo l → ordered_from bt lo' l.
Proof. intros ? Ho i ??. apply Ho; lia. Qed.

Lemma ordered_up_hole lo pos l :
  strict_weak_order bt → ordered_from bt lo l → 0 ≤ lo → up_hole bt lo pos l.
Proof.
  intros Hs Ho Hlo. split; [intros i ????; by apply Ho|].
  intros Hpos Hpar c a b Hc Hcp Ha Hb.
  destruct (l !! Z.to_nat pos) as [m|] eqn:Hm.
  - apply (swo_negtrans bt Hs _ m).
    + pose proof (parent_lt pos Hpos).
      apply (Ho c); [done|lia|done|by rewrite Hcp].
    + by apply (Ho pos).
  - apply lookup_ge_None in Hm. apply lookup_lt_Some in Ha.
    pose proof (parent_lt c Hc). lia.
Qed.

Lemma up_hole_down_hole lo pos l : up_hole bt lo pos l → down_hole bt lo pos l.
Proof. intros [Ha Hb]. split; [|done]. intros i ????. by apply Ha. Qed.

(** A hole at a leaf: nothing hangs below it. *)
Lemma down_hole_leaf lo pos l :
  0 ≤ pos → Z.of_nat (length l) ≤ 2 * pos + 1 → down_hole bt lo pos l → up_hole bt lo pos l.
Proof.
  intros Hpos Hlen [Ha Hb]. split; [|done].
  intros i Hi Hlo Hne. destruct (decide (parent i = pos)) as [Hp|Hp]; [|by apply Ha].
  intros a b Hia _. apply lookup_lt_Some in Hia.
  apply parent_children in Hp; [|done..]. lia.
Qed.

(** One level of [_sink]'s descent: the better child [x] in slot [c] moves
    up into the hole at [pos]; the hole moves to [c]. *)
Lemma down_hole_step lo pos c l e x :
  strict_weak_order bt →
  0 ≤ lo → lo ≤ pos → 0 < c → parent c = pos →
  l !! Z.to_nat c = Some x →
  (∀ c' y, 0 < c' → parent c' = pos → l !! Z.to_nat c' = Some y → bt y x = false) →
  down_hole bt lo pos l →
  down_hole bt lo c (<[Z.to_nat c := e]> (<[Z.to_nat pos := x]> l)).
Proof.
  intros Hs Hlo Hlp Hc Hcp Hx Hbest [Ha Hb].
  pose proof (parent_lt c Hc) as Hpc.
  assert (Hcl : (Z.to_nat c < length l)%nat) by (by eapply lookup_lt_Some).
  split.
  - intros i Hi Hpi Hic Hpic a b.
    pose proof (parent_lt i Hi) as Hpi'.
    rewrite list_lookup_insert_ne by lia.
    rewrite (list_lookup_insert_ne _ (Z.to_nat c)) by lia.
    destruct (decide (i = pos)) as [->|Hipos].
    + rewrite list_lookup_insert_eq by lia. intros [= <-].
      rewrite list_lookup_insert_ne by lia. intros Hg.
      apply (Hb ltac:(lia) ltac:(lia) c x b); auto.
    + rewrite list_lookup_insert_ne by lia.
      destruct (decide (parent i = pos)) as [Hip|Hip].
      * rewrite Hip, list_lookup_insert_eq by lia. intros Hy [= <-].
        by apply (Hbest i).
      * rewrite list_lookup_insert_ne by lia. by apply Ha.
  - intros _ _ cc a b Hcc Hccp.
    pose proof (parent_lt cc Hcc).
    rewrite list_lookup_insert_ne by lia.
    rewrite list_lookup_insert_ne by lia.
    rewrite Hcp. rewrite list_lookup_insert_ne by lia.
    rewrite list_lookup_insert_eq by lia. intros Hy [= <-].
    apply (Ha cc); [lia|lia|lia|lia|done|by rewrite Hccp].
Qed.

(** One level of [_swim]: the parent [p] moves down into the hole at
    [pos]; the hole moves to the parent slot. *)
Lemma up_hole_step lo pos l e p :
  strict_weak_order bt →
  0 ≤ lo → 0 < pos → lo ≤ parent pos →
  l !! Z.to_nat pos = Some e →
  l !! Z.to_nat (parent pos) = Some p →
  bt e p = true →
  up_hole bt lo pos l →
  up_hole bt lo (parent pos)
    (<[Z.to_nat (parent pos) := e]> (<[Z.to_nat pos := p]> l)).
Proof.
  intros Hs Hlo Hpos Hlp He Hp Hep [Ha Hb].
  pose proof (parent_lt pos Hpos) as Hpp.
  assert (Hl : (Z.to_nat pos < length l)%nat) by (by eapply lookup_lt_Some).
  set (q := parent pos) in *.
  split.
  - intros i Hi Hpi Hiq a b.
    pose proof (parent_lt i Hi) as Hpi'.
    rewrite list_lookup_insert_ne by lia.
    destruct (decide (i = pos)) as [->|Hipos].
    + rewrite list_lookup_insert_eq by lia. intros [= <-].
      fold q. rewrite list_lookup_insert_eq by (rewrite length_insert; lia).
      intros [= <-]. by apply swo_asym.
    + rewrite list_lookup_insert_ne by lia. intros Hia.
      destruct (decide (parent i = q)) as [Hiq'|Hiq'].
      * rewrite Hiq', list_lookup_insert_eq by (rewrite length_insert; lia).
        intros [= <-].
        pose proof (Ha i Hi Hpi Hipos a p Hia) as Hap. rewrite Hiq' in Hap.
        specialize (Hap Hp).
        destruct (bt a e) eqn:Hae; [|done].
        by rewrite (swo_trans bt Hs a e p) in Hap.
      * rewrite list_lookup_insert_ne by lia.
        destruct (decide (parent i = pos)) as [Hip|Hip].
        -- rewrite Hip, list_lookup_insert_eq by lia. intros [= <-].
           by apply (Hb Hpos Hlp i a p).
        -- rewrite list_lookup_insert_ne by lia. by apply Ha.
  - intros Hq Hlq c a b Hc Hcq.
    pose proof (parent_lt q Hq) as Hpq.
    rewrite (list_lookup_insert_ne _ _ (Z.to_nat (parent q))) by lia.
    rewrite (list_lookup_insert_ne _ _ (Z.to_nat (parent q))) by lia.
    pose proof (parent_lt c Hc) as Hpc.
    rewrite list_lookup_insert_ne by lia.
    intros Hca Hg.
    assert (Hpg : bt p b = false) by (by apply (Ha q Hq Hlq ltac:(lia) p b)).
    destruct (decide (c = pos)) as [->|Hcpos].
    + rewrite list_lookup_insert_eq in Hca by lia. by injection Hca as <-.
    + rewrite list_lookup_insert_ne in Hca by lia.
      apply (swo_negtrans bt Hs _ p); [|done].
      apply (Ha c Hc ltac:(lia) Hcpos a p Hca). by rewrite Hcq.
Qed.

(** [_swim] stops at a slot whose edge to the parent is in order, or has
    no parent inside the region. *)
Lemma up_hole_done lo pos l :
  up_hole bt lo pos l →
  (0 < pos → lo ≤ parent pos → edge_ok bt l pos) →
  ordered_from bt lo l.
Proof.
  intros [Ha _] Hedge i Hi Hlo.
  destruct (decide (i = pos)) as [->|]; [by apply Hedge|by apply Ha].
Qed.

(** An entry that beats its parent has nothing better below it. *)
Lemma down_hole_up lo pos l e g :
  strict_weak_order bt → 0 < pos → lo ≤ parent pos →
  l !! Z.to_nat pos = Some e → l !! Z.to_nat (parent pos) = Some g →
  bt e g = true →
  down_hole bt lo pos l → up_hole bt lo pos l.
Proof.
  intros Hs Hpos Hlo He Hg Heg [Ha Hb]. split; [|done].
  intros i Hi Hpi Hne. destruct (decide (parent i = pos)) as [Hip|]; [|by apply Ha].
  intros a b Hia. rewrite Hip, He. intros [= <-].
  pose proof (Hb Hpos Hlo i a g Hi Hip Hia Hg) as Hag.
  destruct (bt a e) eqn:Hae; [|done].
  by rewrite (swo_trans bt Hs a e g) in Hag.
Qed.

(** The hole closes where the entry fits both ways. *)
Lemma down_hole_closed lo pos l :
  down_hole bt lo pos l →
  (0 < pos → lo ≤ parent pos → edge_ok bt l pos) →
  (∀ i, 0 < i → parent i = pos → edge_ok bt l i) →
  ordered_from bt lo l.
Proof.
  intros [Ha _] Hup Hdown i Hi Hlo.
  destruct (decide (i = pos)) as [->|]; [by apply Hup|].
  destruct (decide (parent i = pos)); [by apply Hdown|by apply Ha].
Qed.

(** Replacing the entry in slot [pos] of an ordered list leaves a hole
    there. *)
Lemma ordered_insert_down_hole lo pos l x :
  strict_weak_order bt → 0 ≤ lo → 0 ≤ pos →
  ordered_from bt lo l → down_hole bt lo pos (<[Z.to_nat pos := x]> l).
Proof.
  intros Hs Hlo Hpos Ho.
  destruct (ordered_up_hole lo pos l Hs Ho Hlo) as [_ Hg]. split.
  - intros i Hi Hpi Hne Hpne a b. pose proof (parent_lt i Hi).
    rewrite !list_lookup_insert_ne by lia. by apply Ho.
  - intros Hp0 Hlp c a b Hc Hcp. pose proof (parent_lt c Hc). pose proof (parent_lt pos Hp0).
    rewrite !list_lookup_insert_ne by lia. by apply Hg.
Qed.

(** Dropping the last slot keeps what order there is. *)
Lemma ordered_removelast lo l : ordered_from bt lo l → ordered_from bt lo (removelast l).
Proof.
  intros Ho i Hi Hlo a b Ha Hb. apply (Ho i Hi Hlo).
  - rewrite removelast_firstn_len in Ha. by apply lookup_take_Some in Ha as [? _].
  - rewrite removelast_firstn_len in Hb. by apply lookup_take_Some in Hb as [? _].
Qed.

(** In a heap-ordered list nothing is better than the root. *)
Lemma root_best l r :
  strict_weak_order bt → heap_ordered bt l → l !! 0%nat = Some r →
  ∀ i a, l !! i = Some a → bt a r = false.
Proof.
  intros Hs Ho Hr i. induction (lt_wf i) as [i _ IH]. intros a Hia.
  destruct i as [|i].
  - rewrite Hr in Hia. injection Hia as <-. apply (swo_irrefl bt Hs).
  - set (z := Z.of_nat (S i)).
    assert (Hz : 0 < z) by lia.
    pose proof (parent_lt z Hz) as Hp.
    destruct (l !! Z.to_nat (parent z)) as [b|] eqn:Hb.
    + apply (swo_negtrans bt Hs _ b).
      * apply (Ho z Hz ltac:(lia) a b); [|done].
        by replace (Z.to_nat z) with (S i) by lia.
      * apply (IH (Z.to_nat (parent z))); [lia|done].
    + apply lookup_ge_None in Hb. apply lookup_lt_Some in Hia. lia.
Qed.

(** A new last slot is a hole with nothing below it. *)
Lemma ordered_app_up_hole l x :
  heap_ordered bt l → up_hole bt 0 (Z.of_nat (length l)) (l ++ [x]).
Proof.
  intros Ho. split.
  - intros i Hi Hlo Hne a b Ha Hb. pose proof (parent_lt i Hi).
    pose proof (lookup_lt_Some _ _ _ Ha) as Hlen. rewrite length_app in Hlen. simpl in Hlen.
    rewrite lookup_app_l in Ha by lia. rewrite lookup_app_l in Hb by lia.
    by apply (Ho i Hi Hlo).
  - intros _ _ c a b Hc Hcp Ha _. pose proof (parent_lt c Hc).
    apply lookup_lt_Some in Ha. rewrite length_app in Ha. simpl in Ha. lia.
Qed.

(** A prefix keeps what order there is. *)
Lemma ordered_app_l lo l1 l2 : ordered_from bt lo (l1 ++ l2) → ordered_from bt lo l1.
Proof.
  intros Ho i Hi Hlo a b Ha Hb. apply (Ho i Hi Hlo).
  - by apply lookup_app_l_Some.
  - by apply lookup_app_l_Some.
Qed.

(** Before [_sink top] in [_heapify]: the slots after [top] are in order. *)
Lemma ordered_down_hole_top top l :
  0 ≤ top → ordered_from bt (top + 1) l → down_hole bt top top l.
Proof.
  intros Htop Ho. split.
  - intros i Hi Hlo _ Hne. apply Ho; [done|lia].
  - intros Hp Hlo. pose proof (parent_lt top Hp). lia.
Qed.

(** No slot of the second half of the list has a child. *)
Lemma ordered_from_half l : ordered_from bt (Z.of_nat (length l) `div` 2) l.
Proof.
  intros i Hi Hlo a b Ha _. apply lookup_lt_Some in Ha.
  unfold parent in Hlo. zlia.
Qed.

End heap_order.

(** Overwriting a slot trades the entry it held for the new one. *)
Lemma insert_Permutation_swap {A} (l : list A) (i : nat) x y :
  l !! i = Some x → x :: <[i := y]> l ≡ₚ y :: l.
Proof.
  intros Hx. pose proof (lookup_lt_Some _ _ _ Hx) as Hi.
  rewrite insert_take_drop by done.
  rewrite <-(take_drop_middle l i x Hx) at 3.
  rewrite !Permutation_middle. f_equiv. apply perm_swap.
Qed.
Ltac wsimpl :=
  unfold with_heap, with_mem, with_position, with_create_entry in *;
  cbn [mem self _heap _position create_entry] in *.

Section exec.
Context {K : Type} `{Countable K} `{!Inhabited K}.
Implicit Types (σ : gmap loc (Entry (K:=K))) (c : EntryKind) (h : list loc)
  (P : gmap K Z) (w : world (K:=K)).

Local Abbreviation W σ c h P := (mkWorld σ (mkPQDict c h P)).

Lemma bind_run {A B} (m : M A) (f : A → M B) w :
  (m ≫= f) w =
    match m w with
    | Return a w' => f a w'
    | Raise e w' => Raise e w'
    | Hang => Hang
    end.
Proof. done. Qed.

Lemma py_index_nonneg n i :
  0 ≤ i < Z.of_nat n → py_index n i = Some (Z.to_nat i).
Proof. intros ?. unfold py_index. by rewrite bool_decide_eq_true_2. Qed.

Lemma heap_getitem_ok σ c h P i x :
  0 ≤ i → h !! Z.to_nat i = Some x →
  heap_getitem i (W σ c h P) = Return x (W σ c h P).
Proof.
  intros Hi Hx. unfold heap_getitem; simpl.
  rewrite py_index_nonneg by (apply lookup_lt_Some in Hx; lia). by rewrite Hx.
Qed.

Lemma heap_setitem_ok σ c h P i x :
  0 ≤ i < Z.of_nat (length h) →
  heap_setitem i x (W σ c h P) = Return () (W σ c (<[Z.to_nat i:=x]> h) P).
Proof. intros Hi. unfold heap_setitem; simpl. by rewrite py_index_nonneg. Qed.

Lemma swim_loop_run (Inv : Z → list loc → gmap K Z → Prop) σ c e top :
  0 ≤ top →
  (∀ pos hf P x,
     Inv pos hf P → top < pos →
     hf !! Z.to_nat pos = Some e → hf !! Z.to_nat (parent pos) = Some x →
     entry_lt (σ !!! e) (σ !!! x) = true →
     Inv (parent pos) (move hf pos (parent pos) e x) (<[dkey (σ !!! x) := pos]> P)) →
  ∀ fuel pos h P,
    0 ≤ pos < Z.of_nat (length h) → (Z.to_nat pos < fuel)%nat →
    Inv pos (<[Z.to_nat pos := e]> h) P →
    ∃ pos' h' P',
      swim_loop fuel e pos top (W σ c h P) = Return pos' (W σ c h' P')
      ∧ 0 ≤ pos' < Z.of_nat (length h')
      ∧ Inv pos' (<[Z.to_nat pos' := e]> h') P'
      ∧ (pos' ≤ top ∨
         ∃ x, h' !! Z.to_nat (parent pos') = Some x
              ∧ entry_lt (σ !!! e) (σ !!! x) = false).
Proof.
  intros Htop Hstep. induction fuel as [|fuel IH]; intros pos h P Hpos Hfuel HInv; [lia|].
  simpl. case_bool_decide as Hgt; last first.
  { exists pos, h, P. split_and!; [done|lia|lia|done|left; lia]. }
  pose proof (parent_lt pos ltac:(lia)) as Hpar. fold (parent pos).
  destruct (lookup_lt_is_Some_2 h (Z.to_nat (parent pos)) ltac:(lia)) as [x Hx].
  rewrite bind_run, (heap_getitem_ok _ _ _ _ _ x) by (done || lia).
  rewrite bind_run. unfold lt at 1. wsimpl.
  destruct (entry_lt (σ !!! e) (σ !!! x)) eqn:Hlt; last first.
  { exists pos, h, P. split_and!; [done|lia|lia|done|right; eauto]. }
  rewrite bind_run, heap_setitem_ok by lia.
  rewrite bind_run. unfold entry_dkey at 1. rewrite bind_run. unfold position_setitem at 1.
  wsimpl.
  destruct (IH (parent pos) (<[Z.to_nat pos:=x]> h) (<[dkey (σ !!! x):=pos]> P))
    as (pos' & h' & P' & Hrun & ? & ? & ?).
  - rewrite length_insert. lia.
  - lia.
  - specialize (Hstep pos (<[Z.to_nat pos:=e]> h) P x HInv ltac:(lia)).
    unfold move in Hstep. rewrite list_insert_insert_eq in Hstep.
    apply Hstep; [|by rewrite list_lookup_insert_ne by lia|done].
    by rewrite list_lookup_insert_eq by lia.
  - exists pos', h', P'. by rewrite Hrun.
Qed.

Lemma right_child_wins_run σ c h P pos a :
  0 ≤ pos → h !! Z.to_nat (2 * pos + 1) = Some a →
  right_child_wins (Z.of_nat (length h)) (2 * pos + 1) (2 * pos + 1 + 1) (W σ c h P) =
    Return (match h !! Z.to_nat (2 * pos + 2) with
            | Some b => negb (entry_lt (σ !!! a) (σ !!! b))
            | None => false
            end) (W σ c h P).
Proof.
  intros Hpos Ha. unfold right_child_wins.
  replace (2 * pos + 1 + 1) with (2 * pos + 2) by lia.
  case_bool_decide as Hlen.
  - destruct (lookup_lt_is_Some_2 h (Z.to_nat (2 * pos + 2)) ltac:(lia)) as [b Hb].
    rewrite Hb, bind_run, (heap_getitem_ok _ _ _ _ _ a) by (done || lia).
    by rewrite bind_run, (heap_getitem_ok _ _ _ _ _ b) by (done || lia).
  - by rewrite lookup_ge_None_2 by lia.
Qed.

Lemma chosen_child σ h pos a :
  0 ≤ pos → h !! Z.to_nat (2 * pos + 1) = Some a →
  let j := if match h !! Z.to_nat (2 * pos + 2) with
              | Some b => negb (entry_lt (σ !!! a) (σ !!! b))
              | None => false
              end then 2 * pos + 1 + 1 else 2 * pos + 1 in
  (j = 2 * pos + 1 ∨ j = 2 * pos + 2) ∧ j < Z.of_nat (length h)
  ∧ child_choice σ h pos j.
Proof.
  intros Hpos Ha. unfold child_choice. rewrite Ha.
  pose proof (lookup_lt_Some _ _ _ Ha) as Hla.
  destruct (h !! Z.to_nat (2 * pos + 2)) as [b|] eqn:Hb.
  - apply lookup_lt_Some in Hb.
    destruct (entry_lt (σ !!! a) (σ !!! b)) eqn:Hab; simpl;
      (split_and!; [lia|lia|exists a; rewrite Hab; split; [done|lia]]).
  - split_and!; [lia|lia|by exists a].
Qed.

Lemma sink_loop_run (Inv : Z → list loc → gmap K Z → Prop) σ c e :
  (∀ pos hf P j x,
     Inv pos hf P → 0 ≤ pos →
     hf !! Z.to_nat pos = Some e → hf !! Z.to_nat j = Some x →
     child_choice σ hf pos j →
     Inv j (move hf pos j e x) (<[dkey (σ !!! x) := pos]> P)) →
  ∀ fuel pos h P,
    0 ≤ pos < Z.of_nat (length h) → Z.of_nat (length h) - pos ≤ Z.of_nat fuel →
    Inv pos (<[Z.to_nat pos := e]> h) P →
    ∃ pos' h' P',
      sink_loop fuel (Z.of_nat (length h)) pos (2 * pos + 1) (W σ c h P)
        = Return pos' (W σ c h' P')
      ∧ 0 ≤ pos' < Z.of_nat (length h')
      ∧ Z.of_nat (length h') ≤ 2 * pos' + 1
      ∧ Inv pos' (<[Z.to_nat pos' := e]> h') P'.
Proof.
  intros Hstep. induction fuel as [|fuel IH]; intros pos h P Hpos Hfuel HInv; [lia|].
  simpl. case_bool_decide as Hlt; last first.
  { exists pos, h, P. split_and!; [done|lia..|done]. }
  destruct (lookup_lt_is_Some_2 h (Z.to_nat (2 * pos + 1)) ltac:(lia)) as [a Ha].
  rewrite bind_run, (right_child_wins_run _ _ _ _ _ a) by (done || lia).
  pose proof (chosen_child σ h pos a ltac:(lia) Ha) as Hj. simpl in Hj.
  set (j := if match h !! Z.to_nat (2 * pos + 2) with
               | Some b => negb (entry_lt (σ !!! a) (σ !!! b))
               | None => false
               end then 2 * pos + 1 + 1 else 2 * pos + 1) in *.
  assert (child_choice σ (<[Z.to_nat pos:=e]> h) pos j) as Hchoice.
  { destruct Hj as (_ & _ & b & Hb & Hm). exists b.
    rewrite !list_lookup_insert_ne by lia. done. }
  clearbody j. destruct Hj as (Hj & Hjlen & _).
  destruct (lookup_lt_is_Some_2 h (Z.to_nat j) ltac:(lia)) as [x Hx].
  rewrite bind_run, (heap_getitem_ok _ _ _ _ _ x) by (done || lia).
  rewrite bind_run, heap_setitem_ok by lia.
  rewrite bind_run. unfold entry_dkey at 1. rewrite bind_run. unfold position_setitem at 1.
  wsimpl.
  destruct (IH j (<[Z.to_nat pos:=x]> h) (<[dkey (σ !!! x):=pos]> P))
    as (pos' & h' & P' & Hrun & ? & ? & ?).
  - rewrite length_insert. lia.
  - rewrite length_insert. lia.
  - specialize (Hstep pos (<[Z.to_nat pos:=e]> h) P j x HInv ltac:(lia)).
    unfold move in Hstep. rewrite list_insert_insert_eq in Hstep.
    apply Hstep; [|by rewrite list_lookup_insert_ne by lia|done].
    by rewrite list_lookup_insert_eq by lia.
  - rewrite length_insert in Hrun. exists pos', h', P'. by rewrite Hrun.
Qed.

End exec.

Section invariants.
Context {K : Type} `{Countable K} `{!Inhabited K}.
Implicit Types (σ : gmap loc (Entry (K:=K))) (c : EntryKind) (h hf : list loc)
  (P : gmap K Z) (w : world (K:=K)) (e x l : loc).

Local Abbreviation W σ c h P := (mkWorld σ (mkPQDict c h P)).

Lemma entries_ok_allocated σ c h : entries_ok σ c h → allocated σ h.
Proof. intros Ho l Hl. by apply Ho. Qed.

Lemma entry_lt_cmp σ c a b :
  kind (σ !!! a) = c →
  entry_lt (σ !!! a) (σ !!! b) = cmp_of c (prio σ a) (prio σ b).
Proof. intros <-. unfold entry_lt, cmp_of, prio. by destruct (kind _). Qed.

Lemma prios_lookup σ h (i : nat) a :
  prios σ h !! i = Some a ↔ ∃ l, h !! i = Some l ∧ prio σ l = a.
Proof.
  unfold prios. rewrite list_lookup_fmap. destruct (h !! i); simpl; split; [intros [= <-]; eauto|intros (?&[= <-]&<-); done|done|intros (?&?&?); done].
Qed.

Lemma move_lookup hf pos j e x (i : nat) :
  0 ≤ pos < Z.of_nat (length hf) → 0 ≤ j < Z.of_nat (length hf) →
  move hf pos j e x !! i =
    if decide (i = Z.to_nat j) then Some e
    else if decide (i = Z.to_nat pos) then Some x
    else hf !! i.
Proof.
  intros Hpos Hj. unfold move. repeat case_decide; subst.
  - by rewrite list_lookup_insert_eq by (rewrite length_insert; lia).
  - rewrite list_lookup_insert_ne by done.
    by rewrite list_lookup_insert_eq by lia.
  - by rewrite !list_lookup_insert_ne by done.
Qed.

Lemma move_length hf pos j e x : length (move hf pos j e x) = length hf.
Proof. unfold move. by rewrite !length_insert. Qed.

Lemma move_prios σ hf pos j e x :
  prios σ (move hf pos j e x) =
    <[Z.to_nat j := prio σ e]> (<[Z.to_nat pos := prio σ x]> (prios σ hf)).
Proof. unfold prios, move. by rewrite !list_fmap_insert. Qed.

Section move.
Context σ hf pos j e x
  (Hpos : 0 ≤ pos < Z.of_nat (length hf)) (Hj : 0 ≤ j < Z.of_nat (length hf))
  (Hne : pos ≠ j)
  (He : hf !! Z.to_nat pos = Some e) (Hx : hf !! Z.to_nat j = Some x)
  (Hnd : NoDup hf).

Lemma move_elem_of l : l ∈ move hf pos j e x ↔ l ∈ hf.
Proof using Hpos Hj Hne He Hx.
  rewrite !list_elem_of_lookup. split; intros [i Hi].
  - rewrite move_lookup in Hi by done. repeat case_decide; simplify_eq; eauto.
  - destruct (decide (i = Z.to_nat j)) as [->|]; [|destruct (decide (i = Z.to_nat pos)) as [->|]].
    + exists (Z.to_nat pos). rewrite move_lookup by done.
      rewrite decide_False, decide_True by lia. congruence.
    + exists (Z.to_nat j). rewrite move_lookup by done.
      rewrite decide_True by lia. congruence.
    + exists i. rewrite move_lookup by done. by rewrite !decide_False by done.
Qed.

Lemma move_NoDup : NoDup (move hf pos j e x).
Proof using Hpos Hj Hne He Hx Hnd.
  apply NoDup_alt. intros i1 i2 l. rewrite !move_lookup by done.
  pose proof (proj1 (NoDup_alt hf) Hnd) as Hinj.
  destruct (decide (i1 = Z.to_nat j)) as [E1|N1];
    [|destruct (decide (i1 = Z.to_nat pos)) as [E1'|N1']];
    (destruct (decide (i2 = Z.to_nat j)) as [E2|N2];
     [|destruct (decide (i2 = Z.to_nat pos)) as [E2'|N2']]);
    intros Ha Hb; simplify_eq; try done.
  - pose proof (Hinj _ _ _ He Hx). lia.
  - pose proof (Hinj _ _ _ He Hb). lia.
  - pose proof (Hinj _ _ _ He Hx). lia.
  - pose proof (Hinj _ _ _ Hx Hb). lia.
  - pose proof (Hinj _ _ _ He Ha). lia.
  - pose proof (Hinj _ _ _ Hx Ha). lia.
  - by eapply Hinj.
Qed.

Lemma move_Permutation : move hf pos j e x ≡ₚ hf.
Proof using Hpos Hj Hne He Hx Hnd.
  apply NoDup_Permutation; [apply move_NoDup|done|apply move_elem_of].
Qed.

Lemma move_sound_hole X P :
  pos_sound_ex (holding X σ e) σ hf P →
  pos_sound_ex (holding X σ e) σ (move hf pos j e x) (<[keyof σ x := pos]> P).
Proof using All.
  intros Hs k i. rewrite lookup_insert.
  case_decide as Hk.
  - intros [= <-] _. split; [lia|]. exists x. split; [|done].
    rewrite move_lookup by done. rewrite decide_False, decide_True by lia. done.
  - intros Hki HX. destruct (Hs k i Hki HX) as (Hi & l & Hil & Hlk).
    split; [done|]. exists l. split; [|done].
    rewrite move_lookup by done.
    rewrite decide_False, decide_False; [done|..]; intros Heq.
    + assert (Z.to_nat i = Z.to_nat pos) as Heq' by lia. rewrite Heq' in Hil.
      apply HX. right. congruence.
    + assert (Z.to_nat i = Z.to_nat j) as Heq' by lia. rewrite Heq' in Hil.
      congruence.
Qed.

Lemma move_complete_hole P :
  pos_complete_hole σ e hf P →
  pos_complete_hole σ e (move hf pos j e x) (<[keyof σ x := pos]> P).
Proof using All.
  intros Hc i l. rewrite move_lookup by done.
  pose proof (proj1 (NoDup_alt hf) Hnd) as Hinj.
  assert (x ≠ e) as Hxe.
  { intros ->. pose proof (Hinj _ _ _ He Hx). lia. }
  destruct (decide (i = Z.to_nat j)) as [->|Nj]; [by intros [= <-]|].
  destruct (decide (i = Z.to_nat pos)) as [->|Np].
  - intros [= <-] _. rewrite lookup_insert_eq. f_equal. lia.
  - intros Hl Hle. rewrite lookup_insert_ne; [by apply Hc|].
    intros Hk.
    pose proof (Hc _ _ Hx Hxe) as E1. pose proof (Hc _ _ Hl Hle) as E2.
    rewrite Hk in E1. rewrite E1 in E2. simplify_eq; lia.
Qed.

End move.

Lemma sound_open X σ e h P :
  pos_sound_ex X σ h P → pos_sound_ex (holding X σ e) σ h P.
Proof. intros Hs k i Hk HX. apply Hs; [done|]. intros ?. apply HX. by left. Qed.

Lemma complete_open σ e h P : pos_complete σ h P → pos_complete_hole σ e h P.
Proof. intros Hc i l Hl _. by apply Hc. Qed.

Lemma sound_fill X σ e hf pos P :
  0 ≤ pos → hf !! Z.to_nat pos = Some e →
  pos_sound_ex (holding X σ e) σ hf P →
  pos_sound_ex X σ hf (<[keyof σ e := pos]> P).
Proof.
  intros Hpos He Hs k i. rewrite lookup_insert. case_decide as Hk.
  - intros [= <-] _. eauto.
  - intros Hki HX. apply Hs; [done|]. intros [?|?]; [done|congruence].
Qed.

Lemma complete_fill σ e hf pos P :
  0 ≤ pos → hf !! Z.to_nat pos = Some e →
  NoDup (keyof σ <$> hf) →
  pos_complete_hole σ e hf P → pos_complete σ hf (<[keyof σ e := pos]> P).
Proof.
  intros Hpos He Hnd Hc i l Hl.
  pose proof (proj1 (NoDup_alt _) Hnd) as Hinj.
  destruct (decide (keyof σ l = keyof σ e)) as [Hk|Hk].
  - rewrite Hk, lookup_insert_eq. f_equal.
    assert (i = Z.to_nat pos); [|lia].
    apply (Hinj _ _ (keyof σ e)); rewrite list_lookup_fmap.
    + by rewrite Hl; simpl; rewrite Hk.
    + by rewrite He.
  - rewrite lookup_insert_ne by done. apply Hc; [done|]. by intros ->.
Qed.

(** A complete and sound index means distinct keys. *)
Lemma complete_NoDup_keys σ h P : pos_complete σ h P → NoDup (keyof σ <$> h).
Proof.
  intros Hc. apply NoDup_alt. intros i1 i2 k.
  rewrite !list_lookup_fmap.
  destruct (h !! i1) as [l1|] eqn:H1; [|done].
  destruct (h !! i2) as [l2|] eqn:H2; [|done]. simpl. intros [= Hk1] [= Hk2].
  pose proof (Hc _ _ H1) as E1. pose proof (Hc _ _ H2) as E2.
  rewrite Hk1 in E1. rewrite Hk2 in E2. simplify_eq. lia.
Qed.

Lemma complete_NoDup σ h P : pos_complete σ h P → NoDup h.
Proof.
  intros Hc. apply complete_NoDup_keys in Hc. by apply NoDup_fmap_1 in Hc.
Qed.

End invariants.

Section specs.
Context {K : Type} `{Countable K} `{!Inhabited K}.
Implicit Types (σ : gmap loc (Entry (K:=K))) (c : EntryKind) (h hf : list loc)
  (P : gmap K Z) (w : world (K:=K)) (e x l : loc).

Local Abbreviation W σ c h P := (mkWorld σ (mkPQDict c h P)).

Lemma entries_ok_perm σ c h h' : h' ≡ₚ h → entries_ok σ c h → entries_ok σ c h'.
Proof. intros Hp Ho l Hl. apply Ho. by rewrite <-Hp. Qed.

Lemma edge_ok_prios σ c hf i a b :
  0 < i →
  hf !! Z.to_nat i = Some a → hf !! Z.to_nat (parent i) = Some b →
  cmp_of c (prio σ a) (prio σ b) = false →
  edge_ok (cmp_of c) (prios σ hf) i.
Proof.
  intros Hi Ha Hb Hab a' b'. rewrite !prios_lookup.
  intros (?&?&<-) (?&?&<-). by simplify_eq.
Qed.

Lemma swim_spec X σ c0 c h P pos top lo :
  NoDup h →
  0 ≤ lo ≤ top → anc top pos → pos < Z.of_nat (length h) → pos_sound_ex X σ h P →
  ∃ h' P',
    _swim pos top (W σ c0 h P) = Return () (W σ c0 h' P')
    ∧ h' ≡ₚ h
    ∧ pos_sound_ex X σ h' P'
    ∧ (pos_complete σ h P → pos_complete σ h' P')
    ∧ (∀ i : nat, Z.of_nat i < top → h' !! i = h !! i)
    ∧ (∀ k, is_Some (P !! k) → is_Some (P' !! k))
    ∧ (strict_weak_order (cmp_of c) → entries_ok σ c h →
       up_hole (cmp_of c) lo pos (prios σ h) →
       (0 < top → lo ≤ parent top →
        ∀ e g, h !! Z.to_nat pos = Some e → h !! Z.to_nat (parent top) = Some g →
          cmp_of c (prio σ e) (prio σ g) = false) →
       ordered_from (cmp_of c) lo (prios σ h')).
Proof.
  intros Hnd Hlo Hanc Hlen Hsound.
  assert (0 ≤ pos) as Hpos0 by (pose proof (anc_le top pos ltac:(lia) Hanc); lia).
  destruct (lookup_lt_is_Some_2 h (Z.to_nat pos) ltac:(lia)) as [e He].
  unfold _swim. rewrite bind_run, (heap_getitem_ok _ _ _ _ _ e) by done.
  set (Inv := λ (q : Z) hf (Pq : gmap K Z),
    hf ≡ₚ h ∧ hf !! Z.to_nat q = Some e ∧ anc top q
    ∧ pos_sound_ex (holding X σ e) σ hf Pq
    ∧ (pos_complete σ h P → pos_complete_hole σ e hf Pq)
    ∧ (∀ i : nat, Z.of_nat i < top → hf !! i = h !! i)
    ∧ (∀ k, is_Some (P !! k) → is_Some (Pq !! k))
    ∧ (strict_weak_order (cmp_of c) → entries_ok σ c h →
       up_hole (cmp_of c) lo pos (prios σ h) → up_hole (cmp_of c) lo q (prios σ hf))).
  destruct (swim_loop_run Inv σ c0 e top ltac:(lia)) with
    (fuel := S (Z.to_nat pos)) (pos := pos) (h := h) (P := P)
    as (pos' & h' & P' & Hrun & Hpos' & HInv & Hstop).
  { (* one iteration keeps the invariant *)
    intros q hf Pq x (Hperm & Hq & Hancq & Hs & Hc & Hfr & Hdom & Hord) Hqtop _ Hx Hlt.
    pose proof (parent_lt q ltac:(lia)) as Hpq.
    assert (Z.to_nat q < length hf)%nat as Hqlen by (by eapply lookup_lt_Some).
    assert (NoDup hf) as Hndf by (by rewrite Hperm).
    assert (anc top (parent q)) as Hancp by (apply anc_parent; [done|lia]).
    pose proof (anc_le top _ ltac:(lia) Hancp) as Hple.
    split_and!.
    - rewrite <-Hperm. apply move_Permutation; (done || lia).
    - rewrite move_lookup by lia. by rewrite decide_True.
    - done.
    - apply move_sound_hole; (done || lia).
    - intros Hc0. apply move_complete_hole; (done || lia || auto).
    - intros i Hi. rewrite move_lookup by lia.
      rewrite !decide_False by lia. by apply Hfr.
    - intros k Hk. rewrite lookup_insert. case_decide; [done|by apply Hdom].
    - intros Hswo Hok Hup. rewrite move_prios.
      apply up_hole_step; [done|lia|lia|lia|..|by apply Hord].
      + apply prios_lookup; eauto.
      + apply prios_lookup; eauto.
      + rewrite <-(entry_lt_cmp σ); [done|].
        apply Hok. rewrite <-Hperm. by eapply list_elem_of_lookup_2. }
  { lia. }
  { lia. }
  { unfold Inv. rewrite list_insert_id by done.
    split_and!; auto using sound_open, complete_open. }
  rewrite bind_run, Hrun.
  rewrite bind_run, heap_setitem_ok by lia.
  rewrite bind_run. unfold entry_dkey at 1. unfold position_setitem. wsimpl.
  destruct HInv as (Hperm & Hq & Hancq & Hs & Hc & Hfr & Hdom & Hord).
  set (hf := <[Z.to_nat pos':=e]> h') in *.
  assert (length h' = length h) as Hlen'.
  { rewrite <-(Permutation_length Hperm). unfold hf. by rewrite length_insert. }
  exists hf, (<[keyof σ e := pos']> P'). split_and!.
  - done.
  - done.
  - apply sound_fill; [lia|done..].
  - intros Hc0. apply complete_fill; [lia|done| |by apply Hc].
    rewrite Hperm. by eapply complete_NoDup_keys.
  - done.
  - intros k Hk. rewrite lookup_insert. case_decide; [done|by apply Hdom].
  - intros Hswo Hok Hup Htopc. eapply up_hole_done; [by apply Hord|].
    intros Hp0 Hlop.
    pose proof (parent_lt pos' Hp0) as Hpp.
    destruct Hstop as [Hle|(x & Hx & Hlt)].
    + pose proof (anc_le top _ ltac:(lia) Hancq).
      assert (pos' = top) as -> by lia.
      destruct (lookup_lt_is_Some_2 h (Z.to_nat (parent top)) ltac:(lia)) as [g Hg].
      apply (edge_ok_prios _ _ _ _ e g); [done|done| |by eapply Htopc].
      rewrite Hfr by lia. done.
    + apply (edge_ok_prios _ _ _ _ e x); [done|done| |].
      * unfold hf. by rewrite list_lookup_insert_ne by lia.
      * rewrite <-(entry_lt_cmp σ); [done|].
        apply Hok. rewrite <-Hperm. by eapply list_elem_of_lookup_2.
Qed.

Lemma child_choice_parent σ hf q j :
  0 ≤ q → child_choice σ hf q j → 0 < j ∧ parent j = q.
Proof.
  intros Hq (a & Ha & Hch).
  assert (j = 2 * q + 1 ∨ j = 2 * q + 2) as Hj.
  { destruct (hf !! Z.to_nat (2 * q + 2)); [destruct (entry_lt _ _)|]; lia. }
  split; [lia|apply parent_children; lia].
Qed.

Lemma best_child σ c hf q j x :
  strict_weak_order (cmp_of c) → entries_ok σ c hf → 0 ≤ q →
  hf !! Z.to_nat j = Some x → child_choice σ hf q j →
  0 < j ∧ parent j = q ∧
  ∀ ch y, 0 < ch → parent ch = q → prios σ hf !! Z.to_nat ch = Some y →
    cmp_of c (y) (prio σ x) = false.
Proof.
  intros Hswo Hok Hq Hx (a & Ha & Hch).
  assert (kind (σ !!! a) = c) as Hka.
  { apply Hok. by eapply list_elem_of_lookup_2. }
  assert (j = 2 * q + 1 ∨ j = 2 * q + 2) as Hj.
  { destruct (hf !! Z.to_nat (2 * q + 2)); [destruct (entry_lt _ _)|]; lia. }
  split; [lia|]. split; [apply parent_children; lia|].
  intros ch y Hch0 Hpch. apply parent_children in Hpch; [|lia..].
  rewrite prios_lookup. intros (l & Hl & <-).
  pose proof (swo_irrefl _ Hswo) as Hirr. pose proof (swo_asym _ Hswo) as Hasym.
  destruct (hf !! Z.to_nat (2 * q + 2)) as [b|] eqn:Hb.
  - rewrite (entry_lt_cmp σ c) in Hch by done.
    destruct (cmp_of c (prio σ a) (prio σ b)) eqn:Hab; subst j;
      destruct Hpch as [-> | ->]; rewrite ?Ha, ?Hb in Hl, Hx.
    + assert (l = a) as -> by congruence. assert (x = a) as -> by congruence. auto.
    + assert (l = b) as -> by congruence. assert (x = a) as -> by congruence. auto.
    + assert (l = a) as -> by congruence. assert (x = b) as -> by congruence. auto.
    + assert (l = b) as -> by congruence. assert (x = b) as -> by congruence. auto.
  - subst j. destruct Hpch as [-> | ->]; rewrite ?Ha, ?Hb in Hl, Hx; [|congruence].
    assert (l = a) as -> by congruence. assert (x = a) as -> by congruence. auto.
Qed.

Lemma sink_spec X σ c0 c h P top lo :
  NoDup h →
  0 ≤ lo ≤ top → top < Z.of_nat (length h) → pos_sound_ex X σ h P →
  ∃ h' P',
    _sink top (W σ c0 h P) = Return () (W σ c0 h' P')
    ∧ h' ≡ₚ h
    ∧ pos_sound_ex X σ h' P'
    ∧ (pos_complete σ h P → pos_complete σ h' P')
    ∧ (∀ i : nat, Z.of_nat i < top → h' !! i = h !! i)
    ∧ (∀ k, is_Some (P !! k) → is_Some (P' !! k))
    ∧ (strict_weak_order (cmp_of c) → entries_ok σ c h →
       down_hole (cmp_of c) lo top (prios σ h) →
       (0 < top → lo ≤ parent top →
        ∀ e g, h !! Z.to_nat top = Some e → h !! Z.to_nat (parent top) = Some g →
          cmp_of c (prio σ e) (prio σ g) = false) →
       ordered_from (cmp_of c) lo (prios σ h')).
Proof.
  intros Hnd Hlo Hlen Hsound.
  destruct (lookup_lt_is_Some_2 h (Z.to_nat top) ltac:(lia)) as [e He].
  unfold _sink. rewrite bind_run. unfold heap_len at 1. wsimpl.
  rewrite bind_run, (heap_getitem_ok _ _ _ _ _ e) by (done || lia).
  set (Inv := λ (q : Z) hf (Pq : gmap K Z),
    hf ≡ₚ h ∧ hf !! Z.to_nat q = Some e ∧ anc top q
    ∧ pos_sound_ex (holding X σ e) σ hf Pq
    ∧ (pos_complete σ h P → pos_complete_hole σ e hf Pq)
    ∧ (∀ i : nat, Z.of_nat i < top → hf !! i = h !! i)
    ∧ (∀ k, is_Some (P !! k) → is_Some (Pq !! k))
    ∧ (strict_weak_order (cmp_of c) → entries_ok σ c h →
       down_hole (cmp_of c) lo top (prios σ h) →
       down_hole (cmp_of c) lo q (prios σ hf))).
  destruct (sink_loop_run Inv σ c0 e) with
    (fuel := S (Z.to_nat (Z.of_nat (length h)))) (pos := top) (h := h) (P := P)
    as (pos1 & h1 & P1 & Hrun & Hpos1 & Hleaf & HInv).
  { intros q hf Pq j x (Hperm & Hq & Hancq & Hs & Hc & Hfr & Hdom & Hord) Hq0 _ Hx Hch.
    destruct (child_choice_parent σ hf q j) as (Hj0 & Hpj); [done..|].
    pose proof (parent_lt j Hj0) as Hpjlt.
    pose proof (anc_le top _ ltac:(lia) Hancq) as Htq.
    assert (Z.to_nat j < length hf)%nat as Hjlen by (by eapply lookup_lt_Some).
    assert (NoDup hf) as Hndf by (by rewrite Hperm).
    split_and!.
    - rewrite <-Hperm. apply move_Permutation; (done || lia).
    - rewrite move_lookup by lia. by rewrite decide_True.
    - by eapply anc_child.
    - apply move_sound_hole; (done || lia).
    - intros Hc0. apply move_complete_hole; (done || lia || auto).
    - intros i Hi. rewrite move_lookup by lia.
      rewrite !decide_False by lia. by apply Hfr.
    - intros k Hk. rewrite lookup_insert. case_decide; [done|by apply Hdom].
    - intros Hswo Hok Hdn. rewrite move_prios.
      assert (entries_ok σ c hf) as Hokf by (by eapply entries_ok_perm).
      destruct (best_child σ c hf q j x) as (_ & _ & Hbest); [done..|].
      apply down_hole_step; [done|lia|lia|lia|done|..|by apply Hord].
      + apply prios_lookup; eauto.
      + done. }
  { lia. }
  { lia. }
  { unfold Inv. rewrite list_insert_id by done.
    split_and!; auto using sound_open, complete_open, anc_refl. }
  rewrite bind_run, Hrun.
  rewrite bind_run, heap_setitem_ok by lia.
  rewrite bind_run. unfold entry_dkey at 1.
  rewrite bind_run. unfold position_setitem at 1. wsimpl.
  destruct HInv as (Hperm & Hq & Hancq & Hs & Hc & Hfr & Hdom & Hord).
  set (hf := <[Z.to_nat pos1:=e]> h1) in *.
  assert (length hf = length h1) as Hlenf by (unfold hf; by rewrite length_insert).
  assert (length hf = length h) as Hlenh by (by rewrite Hperm).
  destruct (swim_spec X σ c0 c hf (<[keyof σ e:=pos1]> P1) pos1 top lo)
    as (h' & P' & Hrun' & Hperm' & Hs' & Hc' & Hfr' & Hdom' & Hord');
    [by rewrite Hperm|done|done|lia| |].
  { apply sound_fill; [lia|done..]. }
  exists h', P'. split_and!.
  - done.
  - by rewrite Hperm'.
  - done.
  - intros Hc0. apply Hc'. apply complete_fill; [lia|done| |by apply Hc].
    rewrite Hperm. by eapply complete_NoDup_keys.
  - intros i Hi. rewrite Hfr' by done. by apply Hfr.
  - intros k Hk. apply Hdom'. rewrite lookup_insert. case_decide; [done|by apply Hdom].
  - intros Hswo Hok Hdn Htopc. apply Hord'; [done|by eapply entries_ok_perm|..].
    + apply down_hole_leaf; [lia| |by apply Hord].
      unfold prios. rewrite length_fmap. lia.
    + intros Ht0 Hlt0 e' g. rewrite Hq. intros [= <-].
      pose proof (parent_lt top Ht0).
      rewrite Hfr by lia. by apply Htopc.
Qed.

End specs.

Section ops.
Context {K : Type} `{Countable K} `{!Inhabited K}.
Implicit Types (σ : gmap loc (Entry (K:=K))) (c : EntryKind) (h hf : list loc)
  (P : gmap K Z) (w : world (K:=K)) (e x l : loc).

Local Abbreviation W σ c h P := (mkWorld σ (mkPQDict c h P)).

(** ** The store *)

Lemma prios_ext σ σ' h :
  (∀ x, x ∈ h → prio σ' x = prio σ x) → prios σ' h = prios σ h.
Proof.
  intros Hx. unfold prios. apply list_eq. intros i. rewrite !list_lookup_fmap.
  destruct (h !! i) as [x|] eqn:Hi; [simpl|done]. f_equal. apply Hx.
  by eapply list_elem_of_lookup_2.
Qed.

Lemma pos_sound_ex_ext X σ σ' h P :
  (∀ x, x ∈ h → keyof σ' x = keyof σ x) →
  pos_sound_ex X σ h P → pos_sound_ex X σ' h P.
Proof.
  intros Hx Hs k i Hk HX. destruct (Hs k i Hk HX) as (Hi & l & Hl & Hlk).
  split; [done|]. exists l. split; [done|]. rewrite Hx; [done|].
  by eapply list_elem_of_lookup_2.
Qed.

Lemma pos_complete_ext σ σ' h P :
  (∀ x, x ∈ h → keyof σ' x = keyof σ x) →
  pos_complete σ h P → pos_complete σ' h P.
Proof.
  intros Hx Hc i l Hl. rewrite Hx by (by eapply list_elem_of_lookup_2). by apply Hc.
Qed.

Lemma entries_ok_ext σ σ' c h :
  (∀ x, x ∈ h → is_Some (σ !! x) → is_Some (σ' !! x) ∧ kind (σ' !!! x) = kind (σ !!! x)) →
  entries_ok σ c h → entries_ok σ' c h.
Proof.
  intros Hx Ho l Hl. destruct (Ho l Hl) as [Ha Hk].
  destruct (Hx l Hl Ha) as [? Hk']. by rewrite Hk'.
Qed.

Lemma allocated_fresh σ h : allocated σ h → fresh (dom σ) ∉ h.
Proof.
  intros Ho Hin. pose proof (Ho _ Hin) as Ha.
  apply elem_of_dom in Ha. by apply is_fresh in Ha.
Qed.

Lemma lookup_total_alloc σ (o : Entry (K:=K)) x :
  is_Some (σ !! x) → <[fresh (dom σ) := o]> σ !!! x = σ !!! x.
Proof.
  intros Ha. apply lookup_total_insert_ne. intros <-.
  apply elem_of_dom in Ha. by apply is_fresh in Ha.
Qed.

Lemma set_pkey_keyof σ l pk x : keyof (set_pkey σ l pk) x = keyof σ x.
Proof.
  unfold keyof, set_pkey. destruct (decide (l = x)) as [->|].
  - by rewrite lookup_total_insert_eq.
  - by rewrite lookup_total_insert_ne.
Qed.

Lemma set_pkey_kind σ l pk x : kind (set_pkey σ l pk !!! x) = kind (σ !!! x).
Proof.
  unfold set_pkey. destruct (decide (l = x)) as [->|].
  - by rewrite lookup_total_insert_eq.
  - by rewrite lookup_total_insert_ne.
Qed.

Lemma set_pkey_prio σ l pk x :
  prio (set_pkey σ l pk) x = if decide (x = l) then pk else prio σ x.
Proof.
  unfold prio, set_pkey. case_decide as Hx; [subst|].
  - by rewrite lookup_total_insert_eq.
  - by rewrite lookup_total_insert_ne.
Qed.

Lemma set_pkey_alloc σ l pk x : is_Some (σ !! x) → is_Some (set_pkey σ l pk !! x).
Proof.
  unfold set_pkey. intros Hx. destruct (decide (l = x)) as [->|].
  - by rewrite lookup_insert_eq.
  - by rewrite lookup_insert_ne.
Qed.


Lemma set_pkey_prios σ h (i : nat) l pk :
  NoDup h → h !! i = Some l →
  prios (set_pkey σ l pk) h = <[i := pk]> (prios σ h).
Proof.
  intros Hnd Hl. apply list_eq. intros i'. unfold prios.
  pose proof (proj1 (NoDup_alt h) Hnd) as Hinj.
  destruct (decide (i' = i)) as [->|Hne].
  - rewrite list_lookup_insert_eq by (rewrite length_fmap; by eapply lookup_lt_Some).
    rewrite list_lookup_fmap, Hl. simpl. by rewrite set_pkey_prio, decide_True.
  - rewrite list_lookup_insert_ne by done. rewrite !list_lookup_fmap.
    destruct (h !! i') as [x|] eqn:Hx; [simpl|done].
    rewrite set_pkey_prio, decide_False; [done|].
    intros ->. by specialize (Hinj _ _ _ Hx Hl).
Qed.

(** ** Repositioning an entry *)

Lemma reposition_spec σ c0 c h P pos :
  strict_weak_order (cmp_of c) →
  NoDup h → entries_ok σ c h →
  0 ≤ pos < Z.of_nat (length h) → pos_sound σ h P →
  ∃ h' P',
    reposition pos (W σ c0 h P) = Return () (W σ c0 h' P')
    ∧ h' ≡ₚ h
    ∧ pos_sound σ h' P'
    ∧ (pos_complete σ h P → pos_complete σ h' P')
    ∧ (down_hole (cmp_of c) 0 pos (prios σ h) →
       heap_ordered (cmp_of c) (prios σ h')).
Proof.
  intros Hswo Hnd Hok Hpos Hsound.
  destruct (lookup_lt_is_Some_2 h (Z.to_nat pos) ltac:(lia)) as [e He].
  assert (kind (σ !!! e) = c) as Hke.
  { apply Hok. by eapply list_elem_of_lookup_2. }
  unfold reposition. fold (parent pos).
  (* the entry stays where it is *)
  assert (∀ (Hup : 0 < pos → ∀ g, h !! Z.to_nat (parent pos) = Some g →
                     cmp_of c (prio σ e) (prio σ g) = false)
            (Hdown : ∀ i y, 0 < i → parent i = pos → h !! Z.to_nat i = Some y →
                     cmp_of c (prio σ y) (prio σ e) = false),
    ∃ h' P', Return () (W σ c0 h P) = Return () (W σ c0 h' P')
      ∧ h' ≡ₚ h ∧ pos_sound σ h' P'
      ∧ (pos_complete σ h P → pos_complete σ h' P')
      ∧ (down_hole (cmp_of c) 0 pos (prios σ h) →
         heap_ordered (cmp_of c) (prios σ h'))) as Hstay.
  { intros Hup Hdown. exists h, P. split_and!; [done..|].
    intros Hdh. eapply down_hole_closed; [done|..].
    - intros Hp0 _. pose proof (parent_lt pos Hp0).
      destruct (lookup_lt_is_Some_2 h (Z.to_nat (parent pos)) ltac:(lia)) as [g Hg].
      eapply edge_ok_prios; eauto.
    - intros i Hi Hip a b. rewrite !prios_lookup.
      intros (y & Hy & <-). rewrite Hip, He. intros (? & [= <-] & <-). eauto. }
  (* the check against the parent *)
  assert (∃ up : bool,
    (if bool_decide (parent pos > -1)
     then a ← heap_getitem pos; b ← heap_getitem (parent pos); lt a b
     else mret false) (W σ c0 h P) = Return up (W σ c0 h P)
    ∧ if up then 0 < pos ∧ ∃ g, h !! Z.to_nat (parent pos) = Some g
                  ∧ cmp_of c (prio σ e) (prio σ g) = true
      else 0 < pos → ∀ g, h !! Z.to_nat (parent pos) = Some g →
                  cmp_of c (prio σ e) (prio σ g) = false) as (up & Hrun & Hupc).
  { case_bool_decide as Hp.
    - assert (0 < pos) as Hp0 by (unfold parent in Hp; zlia).
      pose proof (parent_lt pos Hp0).
      destruct (lookup_lt_is_Some_2 h (Z.to_nat (parent pos)) ltac:(lia)) as [g Hg].
      rewrite bind_run, (heap_getitem_ok _ _ _ _ _ e) by (done || lia).
      rewrite bind_run, (heap_getitem_ok _ _ _ _ _ g) by (done || lia).
      unfold lt. wsimpl. rewrite (entry_lt_cmp σ c) by done.
      eexists. split; [done|].
      destruct (cmp_of c (prio σ e) (prio σ g)) eqn:Heg.
      + eauto.
      + intros _ g' Hg'. congruence.
    - exists false. split; [done|]. intros Hp0. unfold parent in Hp. zlia. }
  rewrite bind_run, Hrun. clear Hrun. destruct up.
  { (* swim *)
    destruct Hupc as (Hp0 & g & Hg & Heg).
    destruct (swim_spec (λ _, False) σ c0 c h P pos 0 0)
      as (h' & P' & Hr & Hperm & Hs & Hc & _ & _ & Hord);
      [done|lia|apply anc_root; lia|lia|done|].
    exists h', P'. split_and!; [done..|].
    intros Hdh. apply Hord; [done|done| |lia].
    pose proof (parent_lt pos Hp0).
    eapply (down_hole_up _ _ _ _ (prio σ e) (prio σ g)); [done|done|lia|..|done|done];
      apply prios_lookup; eauto. }
  rewrite bind_run. unfold heap_len at 1. wsimpl.
  case_bool_decide as Hchild; last first.
  { (* no child *)
    apply Hstay; [done|]. intros i y Hi Hip Hy.
    apply lookup_lt_Some in Hy. apply parent_children in Hip; lia. }
  destruct (lookup_lt_is_Some_2 h (Z.to_nat (2 * pos + 1)) ltac:(lia)) as [a Ha].
  rewrite bind_run, (right_child_wins_run _ _ _ _ _ a) by (done || lia).
  pose proof (chosen_child σ h pos a ltac:(lia) Ha) as Hj. simpl in Hj.
  set (j := if match h !! Z.to_nat (2 * pos + 2) with
               | Some b => negb (entry_lt (σ !!! a) (σ !!! b))
               | None => false
               end then 2 * pos + 1 + 1 else 2 * pos + 1) in *.
  clearbody j. destruct Hj as (Hj & Hjlen & Hchoice).
  destruct (lookup_lt_is_Some_2 h (Z.to_nat j) ltac:(lia)) as [x Hx].
  destruct (best_child σ c h pos j x) as (Hj0 & Hpj & Hbest); [done|done|lia|done|done|].
  assert (kind (σ !!! x) = c) as Hkx.
  { apply Hok. by eapply list_elem_of_lookup_2. }
  rewrite bind_run, (heap_getitem_ok _ _ _ _ _ x) by (done || lia).
  rewrite bind_run, (heap_getitem_ok _ _ _ _ _ e) by (done || lia).
  rewrite bind_run. unfold lt at 1. wsimpl. rewrite (entry_lt_cmp σ c) by done.
  destruct (cmp_of c (prio σ x) (prio σ e)) eqn:Hxe.
  - (* sink *)
    destruct (sink_spec (λ _, False) σ c0 c h P pos 0)
      as (h' & P' & Hr & Hperm & Hs & Hc & _ & _ & Hord);
      [done|lia|lia|done|].
    exists h', P'. split_and!; [done..|].
    intros Hdh. apply Hord; [done|done|done|].
    intros Hp0 _ e' g. rewrite He. intros [= <-]. by apply Hupc.
  - apply Hstay; [done|]. intros i y Hi Hip Hy.
    apply (swo_negtrans _ Hswo _ (prio σ x)); [|done].
    apply (Hbest i); [done|done|]. apply prios_lookup; eauto.
Qed.


(** ** Appending a new entry *)

Lemma items_ext σ σ' h :
  (∀ x, x ∈ h → σ' !!! x = σ !!! x) → items σ' h = items σ h.
Proof.
  intros Hx. unfold items. apply list_eq. intros i. rewrite !list_lookup_fmap.
  destruct (h !! i) as [x|] eqn:Hi; [simpl|done]. unfold keyof, prio.
  rewrite Hx; [done|]. by eapply list_elem_of_lookup_2.
Qed.

Lemma items_keys σ h : (items σ h).*1 = keyof σ <$> h.
Proof. unfold items. rewrite <-list_fmap_compose. done. Qed.

Lemma items_prios σ h : (items σ h).*2 = prios σ h.
Proof. unfold items, prios. rewrite <-list_fmap_compose. done. Qed.

Section alloc.
Context σ c h P (dk : K) (pk : Z)
  (Hnd : NoDup h) (Hok : allocated σ h).
Let l := fresh (dom σ).
Let σ1 : gmap loc Entry := <[l := PQDictEntry c dk pk]> σ.

Lemma alloc_same x : x ∈ h → σ1 !!! x = σ !!! x.
Proof using Hok.
  intros Hx. apply lookup_total_alloc. by apply Hok.
Qed.

Lemma alloc_new : σ1 !!! l = PQDictEntry c dk pk.
Proof. apply lookup_total_insert_eq. Qed.

Lemma alloc_NoDup : NoDup (h ++ [l]).
Proof using Hnd Hok.
  apply NoDup_app. split_and!; [done| |apply NoDup_singleton].
  intros x Hx ->%list_elem_of_singleton. by apply (allocated_fresh σ h).
Qed.

Lemma alloc_allocated : allocated σ1 (h ++ [l]).
Proof using Hok.
  intros x [Hx| ->%list_elem_of_singleton]%elem_of_app.
  - unfold σ1. destruct (decide (l = x)) as [->|].
    + by rewrite lookup_insert_eq.
    + rewrite lookup_insert_ne by done. by apply Hok.
  - unfold σ1. by rewrite lookup_insert_eq.
Qed.

Lemma alloc_entries_ok : entries_ok σ c h → entries_ok σ1 c (h ++ [l]).
Proof using Hok.
  intros Hok' x [Hx| ->%list_elem_of_singleton]%elem_of_app.
  - rewrite alloc_same by done. destruct (Hok' x Hx) as [Ha Hk]. split; [|done].
    unfold σ1. destruct (decide (l = x)) as [->|].
    + by rewrite lookup_insert_eq.
    + by rewrite lookup_insert_ne.
  - rewrite alloc_new. split; [|done]. unfold σ1. by rewrite lookup_insert_eq.
Qed.

Lemma alloc_prios : prios σ1 (h ++ [l]) = prios σ h ++ [pk].
Proof using Hok.
  unfold prios. rewrite fmap_app. simpl. f_equal.
  - apply prios_ext. intros x Hx. unfold prio. by rewrite alloc_same.
  - unfold prio. by rewrite alloc_new.
Qed.

Lemma alloc_items : items σ1 (h ++ [l]) = items σ h ++ [(dk, pk)].
Proof using Hok.
  unfold items. rewrite fmap_app. simpl. f_equal.
  - apply items_ext. apply alloc_same.
  - unfold keyof, prio. by rewrite alloc_new.
Qed.

Lemma alloc_sound :
  pos_sound σ h P →
  pos_sound σ1 (h ++ [l]) (<[dk := Z.of_nat (length h)]> P).
Proof using Hok.
  intros Hs k i. rewrite lookup_insert. case_decide as Hk.
  - intros [= <-] _. split; [lia|]. exists l. split.
    + rewrite Nat2Z.id. by rewrite lookup_app_r, Nat.sub_diag by lia.
    + unfold keyof. by rewrite alloc_new.
  - intros Hki HX. destruct (Hs k i Hki HX) as (Hi & x & Hx & Hxk).
    split; [done|]. exists x. split; [by apply lookup_app_l_Some|].
    unfold keyof. rewrite alloc_same; [done|]. by eapply list_elem_of_lookup_2.
Qed.

Lemma alloc_complete :
  P !! dk = None → pos_complete σ h P →
  pos_complete σ1 (h ++ [l]) (<[dk := Z.of_nat (length h)]> P).
Proof using Hok.
  intros Hdk Hc i x Hx. apply lookup_app_Some in Hx as [Hx|[Hi Hx]].
  - unfold keyof. rewrite alloc_same by (by eapply list_elem_of_lookup_2).
    rewrite lookup_insert_ne; [by apply Hc|].
    intros Hk. pose proof (Hc _ _ Hx) as Hc'. unfold keyof in Hc'. congruence.
  - apply list_lookup_singleton_Some in Hx as [Hi' <-].
    unfold keyof. rewrite alloc_new. simpl. rewrite lookup_insert_eq. f_equal. lia.
Qed.

End alloc.

(** ** [__setitem__] *)

Lemma setitem_new_spec σ c h P dk pk :
  NoDup h → allocated σ h → pos_sound σ h P →
  P !! dk = None →
  let l := fresh (dom σ) in
  let σ1 : gmap loc Entry := <[l := PQDictEntry c dk pk]> σ in
  ∃ h' P',
    __setitem__ dk pk (W σ c h P) = Return () (W σ1 c h' P')
    ∧ h' ≡ₚ h ++ [l]
    ∧ pos_sound σ1 h' P'
    ∧ (pos_complete σ h P → pos_complete σ1 h' P')
    ∧ (strict_weak_order (cmp_of c) → entries_ok σ c h →
       heap_ordered (cmp_of c) (prios σ h) →
       heap_ordered (cmp_of c) (prios σ1 h')).
Proof.
  intros Hnd Hok Hs Hdk l σ1.
  unfold __setitem__, try_except_else, position_getitem. wsimpl. rewrite Hdk.
  rewrite decide_True by done.
  rewrite bind_run. unfold heap_len at 1. wsimpl.
  rewrite bind_run. unfold new_entry at 1. wsimpl. fold l. fold σ1.
  rewrite bind_run. unfold heap_append at 1. wsimpl.
  rewrite bind_run. unfold position_setitem at 1. wsimpl.
  destruct (swim_spec (λ _, False) σ1 c c (h ++ [l])
              (<[dk:=Z.of_nat (length h)]> P) (Z.of_nat (length h)) 0 0)
    as (h' & P' & Hr & Hperm & Hs' & Hc' & _ & _ & Hord').
  - by apply (alloc_NoDup σ).
  - lia.
  - apply anc_root. lia.
  - rewrite length_app. simpl. lia.
  - by apply (alloc_sound σ c).
  - exists h', P'. split_and!; [done|done|done| |].
    + intros Hc. apply Hc'. by apply (alloc_complete σ c).
    + intros Hswo Hok' Hord. apply Hord'; [done|by apply alloc_entries_ok| |lia].
      unfold σ1, l. rewrite (alloc_prios σ c) by done.
      replace (Z.of_nat (length h)) with (Z.of_nat (length (prios σ h)))
        by (unfold prios; by rewrite length_fmap).
      by apply ordered_app_up_hole.
Qed.

Lemma setitem_upd_spec σ c0 c h P dk pk pos :
  strict_weak_order (cmp_of c) →
  NoDup h → entries_ok σ c h → pos_sound σ h P →
  heap_ordered (cmp_of c) (prios σ h) →
  P !! dk = Some pos →
  ∃ l h' P',
    h !! Z.to_nat pos = Some l ∧ keyof σ l = dk
    ∧ __setitem__ dk pk (W σ c0 h P) = Return () (W (set_pkey σ l pk) c0 h' P')
    ∧ h' ≡ₚ h
    ∧ pos_sound (set_pkey σ l pk) h' P'
    ∧ (pos_complete σ h P → pos_complete (set_pkey σ l pk) h' P')
    ∧ heap_ordered (cmp_of c) (prios (set_pkey σ l pk) h').
Proof.
  intros Hswo Hnd Hok Hs Hord Hdk.
  destruct (Hs dk pos Hdk) as (Hpos & l & Hl & Hlk); [tauto|].
  pose proof (lookup_lt_Some _ _ _ Hl) as Hlen.
  unfold __setitem__, try_except_else, position_getitem. wsimpl. rewrite Hdk.
  rewrite bind_run, (heap_getitem_ok _ _ _ _ _ l) by done.
  rewrite bind_run. unfold entry_set_pkey at 1. wsimpl. fold (set_pkey σ l pk).
  destruct (reposition_spec (set_pkey σ l pk) c0 c h P pos)
    as (h' & P' & Hr & Hperm & Hs' & Hc' & Hord').
  - done.
  - done.
  - eapply entries_ok_ext; [|done]. intros x _ Hx.
    split; [by apply set_pkey_alloc|apply set_pkey_kind].
  - lia.
  - eapply pos_sound_ex_ext; [|done]. intros x _. apply set_pkey_keyof.
  - exists l, h', P'. split_and!; [done..| |].
    + intros Hc. apply Hc'. eapply pos_complete_ext; [|done].
      intros x _. apply set_pkey_keyof.
    + apply Hord'. rewrite (set_pkey_prios _ _ (Z.to_nat pos)) by done.
      by apply ordered_insert_down_hole.
Qed.

(** ** [__delitem__] and [pop] *)

Lemma vacate_spec σ c0 c h P dk pos l :
  strict_weak_order (cmp_of c) →
  NoDup h → entries_ok σ c h → pos_sound σ h P →
  heap_ordered (cmp_of c) (prios σ h) →
  P !! dk = Some pos → h !! Z.to_nat pos = Some l → 0 ≤ pos →
  ∃ el h' P',
    last h = Some el
    ∧ fill_vacated pos l el (W σ c0 (removelast h) (delete dk P))
        = Return () (W σ c0 h' P')
    ∧ l :: h' ≡ₚ h
    ∧ pos_sound σ h' P'
    ∧ (pos_complete σ h P → pos_complete σ h' P')
    ∧ heap_ordered (cmp_of c) (prios σ h').
Proof.
  intros Hswo Hnd Hok Hs Hord Hdk Hl Hpos.
  pose proof (lookup_lt_Some _ _ _ Hl) as Hlen.
  destruct (last h) as [el|] eqn:Hlast; last first.
  { apply last_None in Hlast. subst h. simpl in Hlen. lia. }
  apply last_Some in Hlast as [h0 ->].
  exists el. rewrite removelast_last.
  rewrite length_app in Hlen. simpl in Hlen.
  pose proof (proj1 (NoDup_alt _) Hnd) as Hinj.
  assert ((h0 ++ [el]) !! length h0 = Some el) as Hel.
  { by rewrite lookup_app_r, Nat.sub_diag by lia. }
  assert (keyof σ l = dk) as Hlk.
  { destruct (Hs dk pos Hdk) as (_ & l' & Hl' & Hk'); [tauto|]. congruence. }
  assert (heap_ordered (cmp_of c) (prios σ h0)) as Hord0.
  { unfold prios in *. rewrite fmap_app in Hord. by eapply ordered_app_l. }
  (* what the index says about the other keys *)
  assert (∀ k i, k ≠ keyof σ el → delete dk P !! k = Some i →
            0 ≤ i ∧ ∃ x, h0 !! Z.to_nat i = Some x ∧ keyof σ x = k
                         ∧ Z.to_nat i ≠ Z.to_nat pos) as Hothers.
  { intros k i Hkel Hki. apply lookup_delete_Some in Hki as [Hkdk Hki].
    destruct (Hs k i Hki) as (Hi & x & Hx & Hxk); [tauto|].
    split; [done|]. exists x.
    assert (Z.to_nat i ≠ length h0) as Hne.
    { intros Heq. rewrite Heq in Hx. congruence. }
    assert (Z.to_nat i ≠ Z.to_nat pos) as Hne'.
    { intros Heq. rewrite Heq in Hx. congruence. }
    split_and!; [|done..].
    rewrite lookup_app_l in Hx; [done|]. apply lookup_lt_Some in Hx.
    rewrite length_app in Hx. simpl in Hx. lia. }
  unfold fill_vacated. case_bool_decide as Hne.
  - (* the last entry moves into the vacated slot *)
    assert (Z.to_nat pos < length h0)%nat as Hpos0.
    { destruct (decide (Z.to_nat pos = length h0)) as [Heq|]; [|lia].
      rewrite Heq in Hl. congruence. }
    rewrite lookup_app_l in Hl by done.
    rewrite bind_run, heap_setitem_ok by lia.
    rewrite bind_run. unfold entry_dkey at 1.
    rewrite bind_run. unfold position_setitem at 1. wsimpl.
    assert (l :: <[Z.to_nat pos:=el]> h0 ≡ₚ h0 ++ [el]) as Hperm0.
    { rewrite insert_Permutation_swap by done. by rewrite Permutation_cons_append. }
    assert (NoDup (<[Z.to_nat pos:=el]> h0)) as Hnd1.
    { rewrite <-Hperm0 in Hnd. by apply NoDup_cons in Hnd as [_ ?]. }
    destruct (reposition_spec σ c0 c (<[Z.to_nat pos:=el]> h0)
                (<[keyof σ el:=pos]> (delete dk P)) pos)
      as (h' & P' & Hr & Hperm & Hs' & Hc' & Hord').
    + done.
    + done.
    + intros x Hx. apply Hok. rewrite <-Hperm0. by right.
    + rewrite length_insert. lia.
    + intros k i. rewrite lookup_insert. case_decide as Hk.
      * intros [= <-] _. split; [done|]. exists el. split; [|done].
        by rewrite list_lookup_insert_eq.
      * intros Hki _. destruct (Hothers k i) as (Hi & x & Hx & Hxk & Hnp); [done..|].
        split; [done|]. exists x. by rewrite list_lookup_insert_ne.
    + exists h', P'. split_and!; [done|done|by rewrite Hperm|done| |].
      * intros Hc. apply Hc'. intros i x Hx.
        pose proof (complete_NoDup_keys _ _ _ Hc) as Hndk.
        pose proof (proj1 (NoDup_alt _) Hndk) as Hinjk.
        destruct (decide (i = Z.to_nat pos)) as [->|Hi].
        -- rewrite list_lookup_insert_eq in Hx by done. injection Hx as <-.
           rewrite lookup_insert_eq. f_equal. lia.
        -- rewrite list_lookup_insert_ne in Hx by done.
           pose proof (lookup_lt_Some _ _ _ Hx) as Hilen.
           assert ((h0 ++ [el]) !! i = Some x) as Hx' by (by apply lookup_app_l_Some).
           assert (∀ j y, (h0 ++ [el]) !! j = Some y → keyof σ y = keyof σ x → j = i)
             as Huniq.
           { intros j y Hy Hyk. apply (Hinjk j i (keyof σ x));
               rewrite list_lookup_fmap; [by rewrite Hy; simpl; rewrite Hyk|by rewrite Hx']. }
           rewrite lookup_insert_ne.
           2:{ intros Hk. specialize (Huniq _ _ Hel Hk). lia. }
           rewrite lookup_delete_ne.
           2:{ intros Hk. rewrite <-Hlk in Hk.
               specialize (Huniq (Z.to_nat pos) l (lookup_app_l_Some _ _ _ _ Hl) Hk). lia. }
           by apply Hc.
      * apply Hord'. unfold prios. rewrite list_fmap_insert.
        by apply ordered_insert_down_hole.
  - (* the deleted entry was the last one *)
    subst el.
    assert (Z.to_nat pos = length h0) as Hposl by (by eapply Hinj).
    exists h0, (delete dk P).
    split_and!; [done|done|by rewrite Permutation_cons_append| | |done].
    + intros k i Hki _.
      destruct (decide (k = keyof σ l)) as [->|Hk].
      { rewrite Hlk, lookup_delete_eq in Hki. done. }
      destruct (Hothers k i) as (Hi & x & Hx & Hxk & Hnp); eauto.
    + intros Hc i x Hx.
      pose proof (complete_NoDup_keys _ _ _ Hc) as Hndk.
      pose proof (proj1 (NoDup_alt _) Hndk) as Hinjk.
      pose proof (lookup_lt_Some _ _ _ Hx) as Hilen.
      assert ((h0 ++ [l]) !! i = Some x) as Hx' by (by apply lookup_app_l_Some).
      rewrite lookup_delete_ne; [by apply Hc|].
      intros Hk. rewrite <-Hlk in Hk.
      assert (length h0 = i); [|lia].
      apply (Hinjk _ _ (keyof σ l)); rewrite list_lookup_fmap;
        [by rewrite Hel|by rewrite Hx'; simpl; rewrite Hk].
Qed.

Lemma delitem_spec σ c0 c h P dk pos :
  strict_weak_order (cmp_of c) →
  NoDup h → entries_ok σ c h → pos_sound σ h P →
  heap_ordered (cmp_of c) (prios σ h) →
  P !! dk = Some pos →
  ∃ l h' P',
    h !! Z.to_nat pos = Some l ∧ keyof σ l = dk
    ∧ __delitem__ dk (W σ c0 h P) = Return () (W σ c0 h' P')
    ∧ l :: h' ≡ₚ h
    ∧ pos_sound σ h' P'
    ∧ (pos_complete σ h P → pos_complete σ h' P')
    ∧ heap_ordered (cmp_of c) (prios σ h').
Proof.
  intros Hswo Hnd Hok Hs Hord Hdk.
  destruct (Hs dk pos Hdk) as (Hpos & l & Hl & Hlk); [tauto|].
  destruct (vacate_spec σ c0 c h P dk pos l) as (el & h' & P' & Hlast & Hr & ?); [done..|].
  exists l, h', P'. split_and!; [done|done| |tauto..].
  unfold __delitem__. rewrite bind_run. unfold position_pop at 1. wsimpl. rewrite Hdk.
  rewrite bind_run, (heap_getitem_ok _ _ _ _ _ l) by done.
  rewrite bind_run. unfold heap_pop at 1. wsimpl. by rewrite Hlast.
Qed.

Lemma pop_spec σ c0 c h P dk pos default :
  strict_weak_order (cmp_of c) →
  NoDup h → entries_ok σ c h → pos_sound σ h P →
  heap_ordered (cmp_of c) (prios σ h) →
  P !! dk = Some pos →
  ∃ l h' P',
    h !! Z.to_nat pos = Some l ∧ keyof σ l = dk
    ∧ pop dk default (W σ c0 h P) = Return (prio σ l) (W σ c0 h' P')
    ∧ l :: h' ≡ₚ h
    ∧ pos_sound σ h' P'
    ∧ (pos_complete σ h P → pos_complete σ h' P')
    ∧ heap_ordered (cmp_of c) (prios σ h').
Proof.
  intros Hswo Hnd Hok Hs Hord Hdk.
  destruct (Hs dk pos Hdk) as (Hpos & l & Hl & Hlk); [tauto|].
  destruct (vacate_spec σ c0 c h P dk pos l) as (el & h' & P' & Hlast & Hr & ?); [done..|].
  exists l, h', P'. split_and!; [done|done| |tauto..].
  unfold pop, try_except_else. unfold position_pop at 1. wsimpl. rewrite Hdk.
  rewrite bind_run, (heap_getitem_ok _ _ _ _ _ l) by done.
  rewrite bind_run. unfold entry_pkey at 1. wsimpl.
  rewrite bind_run. unfold heap_pop at 1. wsimpl. rewrite Hlast.
  by rewrite bind_run, Hr.
Qed.

Lemma delitem_missing w dk :
  _position (self w) !! dk = None → __delitem__ dk w = Raise KeyError w.
Proof.
  intros Hdk. unfold __delitem__. rewrite bind_run. unfold position_pop. by rewrite Hdk.
Qed.

Lemma pop_missing w dk default :
  _position (self w) !! dk = None →
  pop dk default w = match default with
                     | None => Raise KeyError w
                     | Some d => Return d w
                     end.
Proof.
  intros Hdk. unfold pop, try_except_else, position_pop. rewrite Hdk.
  rewrite decide_True by done. by destruct default.
Qed.

(** ** [popitem] *)

Lemma popitem_empty w : _heap (self w) = [] → popitem w = Raise KeyError w.
Proof.
  intros Hh. unfold popitem. rewrite bind_run.
  unfold try_except, try_except_else, heap_pop. by rewrite Hh.
Qed.

Lemma popitem_spec σ c0 c h P :
  strict_weak_order (cmp_of c) →
  NoDup h → entries_ok σ c h → pos_sound σ h P →
  heap_ordered (cmp_of c) (prios σ h) →
  h ≠ [] →
  ∃ l h' P3,
    h !! 0%nat = Some l
    ∧ popitem (W σ c0 h P) =
        match P3 !! keyof σ l with
        | Some _ => Return (keyof σ l, prio σ l) (W σ c0 h' (delete (keyof σ l) P3))
        | None => Raise KeyError (W σ c0 h' P3)
        end
    ∧ l :: h' ≡ₚ h
    ∧ pos_sound_ex (λ k, k = keyof σ l) σ h' P3
    ∧ (pos_complete σ h P → pos_complete σ h' P3 ∧ is_Some (P3 !! keyof σ l))
    ∧ heap_ordered (cmp_of c) (prios σ h').
Proof.
  intros Hswo Hnd Hok Hs Hord Hne.
  destruct (last h) as [el|] eqn:Hlast; last first.
  { by apply last_None in Hlast. }
  pose proof Hlast as Hlast'.
  apply last_Some in Hlast' as [h0 ->]. clear Hne.
  pose proof (proj1 (NoDup_alt _) Hnd) as Hinj.
  assert ((h0 ++ [el]) !! length h0 = Some el) as Hel.
  { by rewrite lookup_app_r, Nat.sub_diag by lia. }
  assert (heap_ordered (cmp_of c) (prios σ h0)) as Hord0.
  { unfold prios in *. rewrite fmap_app in Hord. by eapply ordered_app_l. }
  unfold popitem. rewrite bind_run.
  unfold try_except, try_except_else. unfold heap_pop at 1. wsimpl.
  rewrite Hlast, removelast_last.
  unfold mret at 1, M_ret at 1.
  rewrite bind_run. unfold heap_len at 1. wsimpl.
  rewrite bind_run.
  case_bool_decide as Hn.
  - (* the last entry replaces the root and sinks *)
    destruct h0 as [|l h0]; [done|]. clear Hn.
    exists l. simpl in Hel.
    rewrite bind_run, (heap_getitem_ok _ _ _ _ _ l) by done.
    rewrite bind_run, heap_setitem_ok by (simpl; lia).
    rewrite bind_run. unfold entry_dkey at 1.
    rewrite bind_run. unfold position_setitem at 1. wsimpl.
    change (<[Z.to_nat 0:=el]> (l :: h0)) with (el :: h0).
    assert (NoDup (el :: h0)) as Hnd1.
    { apply (NoDup_app [l] (h0 ++ [el])) in Hnd as (_ & _ & Hnd).
      by rewrite <-Permutation_cons_append in Hnd. }
    assert (l ∉ el :: h0) as Hl1.
    { apply (NoDup_app [l] (h0 ++ [el])) in Hnd as (_ & Hnd & _).
      rewrite Permutation_cons_append. apply Hnd. by left. }
    destruct (sink_spec (λ k, k = keyof σ l) σ c0 c (el :: h0)
                (<[keyof σ el:=0]> P) 0 0)
      as (h' & P' & Hr & Hperm & Hs' & Hc' & _ & Hdom & Hord').
    + done.
    + lia.
    + simpl. lia.
    + intros k i. rewrite lookup_insert. case_decide as Hk.
      * intros [= <-] _. split; [done|]. by exists el.
      * intros Hki Hkl. destruct (Hs k i Hki) as (Hi & x & Hx & Hxk); [tauto|].
        split; [done|]. exists x. split; [|done].
        destruct (Z.to_nat i) as [|i'] eqn:Hi'.
        { simpl in Hx. congruence. }
        simpl in *. apply lookup_app_Some in Hx as [Hx|[Hi'' Hx]]; [done|].
        apply list_lookup_singleton_Some in Hx as [_ <-]. congruence.
    + fold (keyof σ el). rewrite bind_run, Hr.
      unfold mret at 1, M_ret at 1.
      rewrite bind_run. unfold entry_dkey at 1.
      rewrite bind_run. unfold position_delitem at 1. wsimpl.
      fold (keyof σ l).
      exists h', P'. split_and!.
      * done.
      * destruct (P' !! keyof σ l); [|done].
        rewrite bind_run. unfold entry_pkey at 1. done.
      * rewrite Hperm. simpl. f_equiv. apply Permutation_cons_append.
      * done.
      * intros Hc.
        pose proof (complete_NoDup_keys _ _ _ Hc) as Hndk.
        pose proof (proj1 (NoDup_alt _) Hndk) as Hinjk.
        assert (keyof σ el ≠ keyof σ l) as Hkel.
        { intros Hk. assert (S (length h0) = 0%nat); [|done].
          apply (Hinjk _ _ (keyof σ l)); rewrite list_lookup_fmap; simpl; [|done].
          by rewrite Hel; simpl; rewrite Hk. }
        split.
        -- apply Hc'. intros i x Hx. destruct i as [|i].
           { injection Hx as <-. by rewrite lookup_insert_eq. }
           simpl in Hx.
           assert (((l :: h0) ++ [el]) !! S i = Some x) as Hx'.
           { simpl. by apply lookup_app_l_Some. }
           rewrite lookup_insert_ne; [by apply Hc|].
           intros Hk. assert (S (length h0) = S i) as Heq.
           { apply (Hinjk _ _ (keyof σ x)); rewrite list_lookup_fmap.
             - simpl. by rewrite Hel; simpl; rewrite Hk.
             - by rewrite Hx'. }
           apply lookup_lt_Some in Hx. lia.
        -- apply Hdom. rewrite lookup_insert_ne by done.
           by rewrite (Hc 0%nat l).
      * apply Hord'; [done| | |lia].
        { intros x Hx. apply Hok. rewrite elem_of_app, elem_of_cons, list_elem_of_singleton.
          apply elem_of_cons in Hx as [->|Hx]; auto. }
        change (prios σ (el :: h0)) with (<[Z.to_nat 0 := prio σ el]> (prios σ (l :: h0))).
        by apply ordered_insert_down_hole.
  - (* the queue held one entry *)
    assert (h0 = []) as ->.
    { destruct h0; [done|]. simpl in Hn. lia. }
    exists el. simpl.
    unfold mret at 1, M_ret at 1.
    rewrite bind_run. unfold entry_dkey at 1.
    rewrite bind_run. unfold position_delitem at 1. wsimpl. fold (keyof σ el).
    exists [], P. split_and!.
    + done.
    + destruct (P !! keyof σ el); [|done].
      rewrite bind_run. unfold entry_pkey at 1. done.
    + done.
    + intros k i Hki Hkl. destruct (Hs k i Hki) as (Hi & x & Hx & Hxk); [tauto|].
      apply lookup_lt_Some in Hx as Hlt. simpl in Hlt.
      replace (Z.to_nat i) with 0%nat in Hx by lia. simpl in Hx. congruence.
    + intros Hc. split; [by intros i x ?|]. by rewrite (Hc 0%nat el).
    + by intros i Hi Hlo a b Ha.
Qed.

(** ** [__init__] and [_heapify] *)

Lemma init_loop_spec c seq : ∀ σ h P,
  NoDup h → entries_ok σ c h → pos_sound σ h P →
  ∃ σ' h' P',
    init_loop seq (Z.of_nat (length h)) (W σ c h P)
      = Return (Z.of_nat (length h')) (W σ' c h' P')
    ∧ NoDup h' ∧ entries_ok σ' c h' ∧ pos_sound σ' h' P'
    ∧ items σ' h' = items σ h ++ seq
    ∧ (pos_complete σ h P → NoDup (items σ h ++ seq).*1 → pos_complete σ' h' P')
    ∧ (∀ x, is_Some (σ !! x) → σ' !! x = σ !! x).
Proof.
  induction seq as [|[dk pk] seq IH]; intros σ h P Hnd Hok Hs.
  { exists σ, h, P. split_and!; [done..|by rewrite app_nil_r|done|done]. }
  simpl. rewrite bind_run. unfold new_entry at 1. wsimpl.
  rewrite bind_run. unfold heap_append at 1. wsimpl.
  rewrite bind_run. unfold position_setitem at 1. wsimpl.
  set (l := fresh (dom σ)). set (σ1 := <[l:=PQDictEntry c dk pk]> σ).
  replace (Z.of_nat (length h) + 1) with (Z.of_nat (length (h ++ [l])))
    by (rewrite length_app; simpl; lia).
  destruct (IH σ1 (h ++ [l]) (<[dk:=Z.of_nat (length h)]> P))
    as (σ' & h' & P' & Hr & Hnd' & Hok' & Hs' & Hit & Hc' & Hfr).
  - apply (alloc_NoDup σ); [done|by eapply entries_ok_allocated].
  - apply alloc_entries_ok; [by eapply entries_ok_allocated|done].
  - apply (alloc_sound σ c); [by eapply entries_ok_allocated|done].
  - pose proof (entries_ok_allocated _ _ _ Hok) as Hal.
    exists σ', h', P'. split_and!; [done..| | |].
    + rewrite Hit. unfold σ1, l. rewrite (alloc_items σ c) by done.
      by rewrite <-app_assoc.
    + intros Hc Hndk. apply Hc'.
      * apply (alloc_complete σ c); [done| |done].
        destruct (P !! dk) as [i|] eqn:Hdk; [|done]. exfalso.
        destruct (Hs dk i Hdk) as (_ & x & Hx & Hxk); [tauto|].
        rewrite fmap_app in Hndk. apply NoDup_app in Hndk as (_ & Hdisj & _).
        apply (Hdisj dk); [|simpl; by left].
        rewrite items_keys. apply list_elem_of_fmap. exists x.
        split; [done|]. by eapply list_elem_of_lookup_2.
      * unfold σ1, l. rewrite (alloc_items σ c) by done. by rewrite <-app_assoc.
    + intros x Hx. rewrite Hfr.
      * unfold σ1. apply lookup_insert_ne. intros <-.
        apply elem_of_dom in Hx. by apply is_fresh in Hx.
      * unfold σ1. rewrite lookup_insert_ne; [done|]. intros <-.
        apply elem_of_dom in Hx. by apply is_fresh in Hx.
Qed.

Lemma heapify_loop_spec σ c0 c (m : nat) : ∀ h P,
  strict_weak_order (cmp_of c) →
  NoDup h → entries_ok σ c h → pos_sound σ h P →
  (m ≤ length h)%nat →
  ordered_from (cmp_of c) (Z.of_nat m) (prios σ h) →
  ∃ h' P',
    for_each (reverse (seqZ 0 (Z.of_nat m))) _sink (W σ c0 h P)
      = Return () (W σ c0 h' P')
    ∧ h' ≡ₚ h
    ∧ pos_sound σ h' P'
    ∧ (pos_complete σ h P → pos_complete σ h' P')
    ∧ heap_ordered (cmp_of c) (prios σ h').
Proof.
  induction m as [|m IH]; intros h P Hswo Hnd Hok Hs Hm Hord.
  { exists h, P. split_and!; done. }
  rewrite seqZ_S, reverse_snoc. simpl. rewrite Z.add_0_l.
  destruct (sink_spec (λ _, False) σ c0 c h P (Z.of_nat m) (Z.of_nat m))
    as (h1 & P1 & Hr & Hperm & Hs1 & Hc1 & _ & _ & Hord1);
    [done|lia|lia|done|].
  rewrite bind_run, Hr.
  destruct (IH h1 P1) as (h' & P' & Hr' & Hperm' & Hs' & Hc' & Hord');
    [done|by rewrite Hperm|by eapply entries_ok_perm|done| |  |].
  - rewrite Hperm. lia.
  - apply Hord1; [done|done|..].
    + apply ordered_down_hole_top; [lia|].
      replace (Z.of_nat m + 1) with (Z.of_nat (S m)) by lia. done.
    + intros Hm0 Hlo. pose proof (parent_lt _ Hm0). lia.
  - exists h', P'. split_and!; [done|by rewrite Hperm'|done|auto|done].
Qed.

Lemma heapify_spec σ c0 c h P :
  strict_weak_order (cmp_of c) →
  NoDup h → entries_ok σ c h → pos_sound σ h P →
  ∃ h' P',
    _heapify (W σ c0 h P) = Return () (W σ c0 h' P')
    ∧ h' ≡ₚ h
    ∧ pos_sound σ h' P'
    ∧ (pos_complete σ h P → pos_complete σ h' P')
    ∧ heap_ordered (cmp_of c) (prios σ h').
Proof.
  intros Hswo Hnd Hok Hs. unfold _heapify.
  rewrite bind_run. unfold heap_len at 1. wsimpl.
  assert (0 ≤ Z.of_nat (length h) `div` 2 ≤ Z.of_nat (length h)) as Hhalf by zlia.
  rewrite <-(Z2Nat.id (Z.of_nat (length h) `div` 2)) by lia.
  apply heapify_loop_spec; [done..|lia|].
  rewrite Z2Nat.id by lia.
  replace (length h) with (length (prios σ h)) by (unfold prios; by rewrite length_fmap).
  apply ordered_from_half.
Qed.

End ops.

Section world.
Context {K : Type} `{Countable K} `{!Inhabited K}.
Implicit Types (σ : gmap loc (Entry (K:=K))) (c ck : EntryKind) (h hf : list loc)
  (P : gmap K Z) (w : world (K:=K)) (e x l : loc).

Local Abbreviation W σ c h P := (mkWorld σ (mkPQDict c h P)).

Lemma kept_refl ck w : wfk ck w → kept ck w w.
Proof. by intros ?. Qed.

Lemma entries_ok_set_pkey σ c h l pk :
  entries_ok σ c h → entries_ok (set_pkey σ l pk) c h.
Proof.
  apply entries_ok_ext. intros x _ Hx.
  split; [by apply set_pkey_alloc|apply set_pkey_kind].
Qed.

Lemma setitem_kept w dk pk :
  wfw w → ends_in (kept (create_entry (self w)) w) (__setitem__ dk pk w).
Proof.
  destruct w as [σ [c h P]]. intros [Hswo Hnd Hok Hs Hord]. wsimpl.
  destruct (P !! dk) as [pos|] eqn:Hdk.
  - destruct (setitem_upd_spec σ c c h P dk pk pos)
      as (l & h' & P' & Hl & Hlk & Hr & Hperm & Hs' & Hc' & Hord'); [done..|].
    rewrite Hr. simpl. split_and!; [|done|done].
    split; wsimpl; [done|by rewrite Hperm| |done|done].
    eapply entries_ok_perm; [done|]. by apply entries_ok_set_pkey.
  - destruct (setitem_new_spec σ c h P dk pk)
      as (h' & P' & Hr & Hperm & Hs' & Hc' & Hord');
      [done|by eapply entries_ok_allocated|done|done|].
    rewrite Hr. simpl. split_and!; [|done|done].
    split; wsimpl; [done| | |done|by apply Hord'].
    + rewrite Hperm. apply (alloc_NoDup σ); [done|by eapply entries_ok_allocated].
    + eapply entries_ok_perm; [done|].
      apply alloc_entries_ok; [by eapply entries_ok_allocated|done].
Qed.

Lemma additem_kept w dk pk :
  wfw w → ends_in (kept (create_entry (self w)) w) (additem dk pk w).
Proof.
  intros Hw. unfold additem. rewrite bind_run. unfold position_contains at 1.
  case_bool_decide; [by apply kept_refl|by apply setitem_kept].
Qed.

Lemma updateitem_kept w dk pk :
  wfw w → ends_in (kept (create_entry (self w)) w) (updateitem dk pk w).
Proof.
  intros Hw. unfold updateitem. rewrite bind_run. unfold position_contains at 1.
  case_bool_decide; [by apply setitem_kept|by apply kept_refl].
Qed.

Lemma delitem_kept ck w dk :
  wfk ck w → ends_in (kept ck w) (__delitem__ dk w).
Proof.
  destruct w as [σ [c h P]]. intros [Hswo Hnd Hok Hs Hord]. wsimpl.
  destruct (P !! dk) as [pos|] eqn:Hdk.
  - destruct (delitem_spec σ c ck h P dk pos)
      as (l & h' & P' & Hl & Hlk & Hr & Hperm & Hs' & Hc' & Hord'); [done..|].
    rewrite Hr. simpl. split_and!; [|done|done].
    rewrite <-Hperm in Hnd. apply NoDup_cons in Hnd as [_ Hnd].
    split; wsimpl; [done|done| |done|done].
    intros x Hx. apply Hok. rewrite <-Hperm. by right.
  - rewrite delitem_missing by done. by apply kept_refl.
Qed.

Lemma pop_kept ck w dk default :
  wfk ck w → ends_in (kept ck w) (pop dk default w).
Proof.
  destruct w as [σ [c h P]]. intros [Hswo Hnd Hok Hs Hord]. wsimpl.
  destruct (P !! dk) as [pos|] eqn:Hdk.
  - destruct (pop_spec σ c ck h P dk pos default)
      as (l & h' & P' & Hl & Hlk & Hr & Hperm & Hs' & Hc' & Hord'); [done..|].
    rewrite Hr. simpl. split_and!; [|done|done].
    rewrite <-Hperm in Hnd. apply NoDup_cons in Hnd as [_ Hnd].
    split; wsimpl; [done|done| |done|done].
    intros x Hx. apply Hok. rewrite <-Hperm. by right.
  - rewrite pop_missing by done. destruct default; by apply kept_refl.
Qed.

Lemma complete_delete_absent σ h P k :
  pos_complete σ h P → k ∉ keyof σ <$> h → pos_complete σ h (delete k P).
Proof.
  intros Hc Hk i x Hx. rewrite lookup_delete_ne; [by apply Hc|].
  intros ->. apply Hk. apply list_elem_of_fmap. exists x. split; [done|].
  by eapply list_elem_of_lookup_2.
Qed.

Lemma popitem_kept ck w :
  wfk ck w → ends_in (kept ck w) (popitem w).
Proof.
  destruct w as [σ [c h P]]. intros [Hswo Hnd Hok Hs Hord]. wsimpl.
  destruct (decide (h = [])) as [->|Hne].
  { rewrite popitem_empty by done. by apply kept_refl. }
  destruct (popitem_spec σ c ck h P)
    as (l & h' & P3 & Hl & Hr & Hperm & Hs' & Hc' & Hord'); [done..|].
  rewrite Hr.
  assert (NoDup h') as Hnd'.
  { rewrite <-Hperm in Hnd. by apply NoDup_cons in Hnd as [_ ?]. }
  assert (entries_ok σ ck h') as Hok'.
  { intros x Hx. apply Hok. rewrite <-Hperm. by right. }
  destruct (P3 !! keyof σ l) as [i|] eqn:Hk; simpl.
  - split_and!; [|done|].
    + split; wsimpl; [done..| |done].
      intros k j Hkj _. apply lookup_delete_Some in Hkj as [Hne' Hkj].
      by apply (Hs' k j).
    + unfold pcomplete. wsimpl. intros Hc. destruct (Hc' Hc) as [Hc3 _].
      apply complete_delete_absent; [done|].
      pose proof (complete_NoDup_keys _ _ _ Hc) as Hndk.
      rewrite <-Hperm in Hndk. simpl in Hndk. by apply NoDup_cons in Hndk as [? _].
  - split_and!; [|done|].
    + split; wsimpl; [done..| |done].
      intros k j Hkj _. apply (Hs' k j); [done|]. intros ->. congruence.
    + unfold pcomplete. wsimpl. intros Hc. destruct (Hc' Hc) as [_ [? ?]]. congruence.
Qed.

(** ** Construction *)

Lemma items_Permutation σ h h' : h' ≡ₚ h → items σ h' ≡ₚ items σ h.
Proof. intros Hp. unfold items. by rewrite Hp. Qed.

Lemma sound_empty σ (P : gmap K Z) : pos_sound σ [] ∅.
Proof. intros k i Hk. by rewrite lookup_empty in Hk. Qed.

Lemma init_spec σ c h0 P0 args kwargs :
  strict_weak_order (cmp_of c) → (length args ≤ 1)%nat →
  ∃ σ' h' P',
    __init__ args kwargs (W σ c h0 P0) = Return () (W σ' c h' P')
    ∧ wfk c (W σ' c h' P')
    ∧ items σ' h' ≡ₚ init_pairs args kwargs
    ∧ (NoDup (init_pairs args kwargs).*1 → pos_complete σ' h' P')
    ∧ (∀ x, is_Some (σ !! x) → σ' !! x = σ !! x).
Proof.
  intros Hswo Hargs. unfold __init__.
  rewrite bool_decide_eq_false_2 by lia.
  rewrite bind_run. wsimpl.
  set (seq := match args with s :: _ => s | [] => [] end).
  assert (init_pairs args kwargs = seq ++ kwargs) as Hpairs by done.
  destruct (init_loop_spec c seq σ [] ∅)
    as (σ1 & h1 & P1 & Hr1 & Hnd1 & Hok1 & Hs1 & Hit1 & Hc1 & Hfr1);
    [apply NoDup_nil_2|by intros ? ?%elem_of_nil|by apply sound_empty|].
  destruct (init_loop_spec c kwargs σ1 h1 P1)
    as (σ2 & h2 & P2 & Hr2 & Hnd2 & Hok2 & Hs2 & Hit2 & Hc2 & Hfr2); [done..|].
  destruct (heapify_spec σ2 c c h2 P2)
    as (h' & P' & Hr & Hperm & Hs' & Hc' & Hord'); [done..|].
  exists σ2, h', P'. split_and!.
  - rewrite bind_run.
    assert (match args with
            | seq0 :: _ => init_loop seq0 0
            | [] => mret 0
            end (W σ c [] ∅) = Return (Z.of_nat (length h1)) (W σ1 c h1 P1)) as ->.
    { subst seq. destruct args as [|s args]; [|done].
      simpl in Hr1. by injection Hr1 as <- <- <- <-. }
    rewrite bind_run.
    assert (match kwargs with
            | [] => mret (Z.of_nat (length h1))
            | _ :: _ => init_loop kwargs (Z.of_nat (length h1))
            end (W σ1 c h1 P1) = Return (Z.of_nat (length h2)) (W σ2 c h2 P2)) as ->.
    { destruct kwargs; [|done]. simpl in Hr2. by injection Hr2 as <- <- <- <-. }
    done.
  - split; wsimpl; [done|by rewrite Hperm|by eapply entries_ok_perm|done|done].
  - rewrite (items_Permutation _ _ _ Hperm), Hit2, Hit1, Hpairs. done.
  - intros Hndk. apply Hc'. apply Hc2.
    + apply Hc1; [by intros i x ?|]. rewrite Hpairs, fmap_app in Hndk.
      by apply NoDup_app in Hndk as [? _].
    + rewrite Hit1. simpl. by rewrite <-Hpairs.
  - intros x Hx. rewrite Hfr2; [by apply Hfr1|]. rewrite Hfr1; done.
Qed.

Lemma new_PQDict_run σ : new_PQDict σ = Return () (W σ MinEntry [] ∅).
Proof. done. Qed.

Lemma minpq_run args kwargs σ :
  minpq args kwargs σ = __init__ args kwargs (W σ MinEntry [] ∅).
Proof. done. Qed.

Lemma maxpq_run args kwargs σ :
  maxpq args kwargs σ = __init__ args kwargs (W σ MaxEntry [] ∅).
Proof. done. Qed.

Lemma custompq_run c args kwargs σ :
  custompq (EntryClass c) args kwargs σ = __init__ args kwargs (W σ c [] ∅).
Proof. done. Qed.

Lemma init_many_args σ c h0 P0 args kwargs w :
  __init__ args kwargs (W σ c h0 P0) = Return () w → (length args ≤ 1)%nat.
Proof.
  unfold __init__. case_bool_decide as Hlen; [done|]. intros _. lia.
Qed.

Lemma swo_MinEntry : strict_weak_order (cmp_of MinEntry).
Proof. split; simpl; intros; lia. Qed.

Lemma swo_MaxEntry : strict_weak_order (cmp_of MaxEntry).
Proof. split; simpl; intros; lia. Qed.

(** ** Draining the queue *)

Lemma sound_nil_empty σ P : pos_sound σ [] P → P = ∅.
Proof.
  intros Hs. apply map_empty. intros k.
  destruct (P !! k) as [i|] eqn:Hk; [|done].
  by destruct (Hs k i Hk) as (_ & x & Hx & _); [tauto|].
Qed.

Lemma popitem_wf ck w :
  wfk ck w → pcomplete w → _heap (self w) ≠ [] →
  ∃ l w',
    _heap (self w) !! 0%nat = Some l
    ∧ popitem w = Return (keyof (mem w) l, prio (mem w) l) w'
    ∧ wfk ck w' ∧ pcomplete w'
    ∧ mem w' = mem w ∧ create_entry (self w') = create_entry (self w)
    ∧ l :: _heap (self w') ≡ₚ _heap (self w).
Proof.
  intros Hw Hc Hne. pose proof (popitem_kept ck w Hw) as Hk.
  destruct w as [σ [c h P]]. destruct Hw as [Hswo Hnd Hok Hs Hord].
  unfold pcomplete in *. wsimpl.
  destruct (popitem_spec σ c ck h P)
    as (l & h' & P3 & Hl & Hr & Hperm & Hs' & Hc' & Hord'); [done..|].
  destruct (Hc' Hc) as [Hc3 [i Hi]]. rewrite Hi in Hr.
  rewrite Hr in Hk. destruct Hk as (Hw' & _ & Hcc).
  exists l, (W σ c h' (delete (keyof σ l) P3)).
  split_and!; [done|done|done|by apply Hcc|done|done|done].
Qed.

Lemma drain_spec ck (n : nat) : ∀ w,
  wfk ck w → pcomplete w → length (_heap (self w)) = n →
  ∃ its w',
    popitems n w = Return its w'
    ∧ iteritems_loop (S n) w = Return its w'
    ∧ its ≡ₚ items (mem w) (_heap (self w))
    ∧ StronglySorted (pops_before ck) its
    ∧ _heap (self w') = [] ∧ _position (self w') = ∅
    ∧ mem w' = mem w ∧ create_entry (self w') = create_entry (self w).
Proof.
  induction n as [|n IH]; intros w Hw Hc Hlen.
  - apply nil_length_inv in Hlen.
    exists [], w. split_and!; [done| |by rewrite Hlen|constructor|done| |done|done].
    + simpl. unfold try_except_else. by rewrite popitem_empty.
    + destruct Hw as [_ _ _ Hs _]. rewrite Hlen in Hs. by eapply sound_nil_empty.
  - destruct (popitem_wf ck w) as (l & w1 & Hl & Hr & Hw1 & Hc1 & Hm & Hce & Hperm);
      [done|done|by intros Heq; rewrite Heq in Hlen|].
    destruct (IH w1) as (its & w' & Hpop & Hit & Hperm' & Hsort & Hh & HP & Hm' & Hce');
      [done|done| |].
    { apply Permutation_length in Hperm. simpl in Hperm. lia. }
    exists ((keyof (mem w) l, prio (mem w) l) :: its), w'.
    split_and!; [| | | |done|done|congruence|congruence].
    + change (popitems (S n) w) with
        ((item ← popitem; rest ← popitems n; mret (item :: rest)) w).
      by rewrite bind_run, Hr, bind_run, Hpop.
    + change (iteritems_loop (S (S n)) w) with
        (try_except_else popitem KeyError (mret [])
           (λ item, rest ← iteritems_loop (S n); mret (item :: rest)) w).
      unfold try_except_else. by rewrite Hr, bind_run, Hit.
    + rewrite Hperm', Hm.
      apply (items_Permutation (mem w) (_heap (self w)) (l :: _heap (self w1)) Hperm).
    + constructor; [done|].
      apply Forall_forall. intros [k q] Hkq.
      rewrite Hperm', Hm in Hkq. apply list_elem_of_fmap in Hkq as (x & [= -> ->] & Hx).
      assert (x ∈ _heap (self w)) as Hin by (rewrite <-Hperm; by right).
      apply list_elem_of_lookup in Hin as [j Hj].
      unfold pops_before. simpl.
      destruct Hw as [Hswo _ _ _ Hord].
      apply (root_best (cmp_of ck) (prios (mem w) (_heap (self w))) (prio (mem w) l)
               Hswo Hord) with (i := j); apply prios_lookup; eauto.
Qed.

Lemma iteritems_spec ck w :
  wfk ck w → pcomplete w →
  ∃ its w',
    iteritems w = Return its w'
    ∧ its ≡ₚ items (mem w) (_heap (self w))
    ∧ StronglySorted (pops_before ck) its
    ∧ _heap (self w') = [] ∧ _position (self w') = ∅.
Proof.
  intros Hw Hc.
  destruct (drain_spec ck (length (_heap (self w))) w)
    as (its & w' & _ & Hit & Hperm & Hsort & Hh & HP & _); [done..|].
  exists its, w'. by split_and!.
Qed.

Lemma sorted_ascending (its : list (K * Z)) :
  StronglySorted (pops_before MinEntry) its → Sorted Z.le its.*2.
Proof.
  intros Hs. apply StronglySorted_Sorted.
  apply (StronglySorted_fmap snd (pops_before MinEntry) Z.le); [|done].
  intros [??] [??]. unfold pops_before. simpl. lia.
Qed.

Lemma sorted_descending (its : list (K * Z)) :
  StronglySorted (pops_before MaxEntry) its → Sorted Z.ge its.*2.
Proof.
  intros Hs. apply StronglySorted_Sorted.
  apply (StronglySorted_fmap snd (pops_before MaxEntry) Z.ge); [|done].
  intros [??] [??]. unfold pops_before. simpl. lia.
Qed.

(** ** Reading *)

Lemma getitem_present σ c h P dk pos :
  pos_sound σ h P → P !! dk = Some pos →
  ∃ l, h !! Z.to_nat pos = Some l ∧ keyof σ l = dk
       ∧ __getitem__ dk (W σ c h P) = Return (prio σ l) (W σ c h P).
Proof.
  intros Hs Hdk. destruct (Hs dk pos Hdk) as (Hpos & l & Hl & Hlk); [tauto|].
  exists l. split_and!; [done..|].
  unfold __getitem__. rewrite bind_run. unfold position_getitem at 1. wsimpl.
  rewrite Hdk. by rewrite bind_run, (heap_getitem_ok _ _ _ _ _ l).
Qed.

Lemma getitem_missing w dk :
  _position (self w) !! dk = None → __getitem__ dk w = Raise KeyError w.
Proof.
  intros Hdk. unfold __getitem__. rewrite bind_run. unfold position_getitem.
  by rewrite Hdk.
Qed.

Lemma peek_empty w : _heap (self w) = [] → peek w = Raise KeyError w.
Proof.
  intros Hh. unfold peek. rewrite bind_run.
  unfold try_except, try_except_else, heap_getitem. by rewrite Hh.
Qed.

Lemma peek_nonempty σ c h P l :
  h !! 0%nat = Some l →
  peek (W σ c h P) = Return (keyof σ l, prio σ l) (W σ c h P).
Proof.
  intros Hl. unfold peek. rewrite bind_run.
  unfold try_except, try_except_else.
  by rewrite (heap_getitem_ok _ _ _ _ _ l).
Qed.

(** The keys of the index are the keys the heap holds. *)
Lemma dom_index σ h P :
  pos_sound σ h P → pos_complete σ h P →
  dom P = list_to_set (keyof σ <$> h).
Proof.
  intros Hs Hc. apply set_eq. intros k.
  rewrite elem_of_dom, elem_of_list_to_set, list_elem_of_fmap. split.
  - intros [i Hi]. destruct (Hs k i Hi) as (_ & x & Hx & Hxk); [tauto|].
    exists x. split; [done|]. by eapply list_elem_of_lookup_2.
  - intros (x & -> & Hx). apply list_elem_of_lookup in Hx as [i Hx].
    rewrite (Hc i x Hx). eauto.
Qed.

Lemma size_index σ h P :
  pos_sound σ h P → pos_complete σ h P → size P = length h.
Proof.
  intros Hs Hc. rewrite <-size_dom, (dom_index σ h) by done.
  rewrite size_list_to_set by (by eapply complete_NoDup_keys).
  by rewrite length_fmap.
Qed.

(** ** The frame of a queue in the store *)

Lemma agree_total σ σ' x : σ' !! x = σ !! x → σ' !!! x = σ !!! x.
Proof. intros Hx. by rewrite !lookup_total_alt, Hx. Qed.

Lemma wfk_frame ck σ σ' c h P :
  (∀ x, x ∈ h → σ' !! x = σ !! x) →
  wfk ck (W σ c h P) → wfk ck (W σ' c h P).
Proof.
  intros Hx [Hswo Hnd Hok Hs Hord]. wsimpl.
  assert (∀ x, x ∈ h → σ' !!! x = σ !!! x) as Hx' by (intros; by apply agree_total, Hx).
  split; wsimpl; [done|done|..].
  - eapply entries_ok_ext; [|done]. intros x Hin Ha.
    by rewrite Hx, Hx' by done.
  - eapply pos_sound_ex_ext; [|done]. intros x Hin. unfold keyof. by rewrite Hx'.
  - rewrite (prios_ext σ σ'); [done|]. intros x Hin. unfold prio. by rewrite Hx'.
Qed.

Lemma complete_frame σ σ' h P :
  (∀ x, x ∈ h → σ' !! x = σ !! x) →
  pos_complete σ h P → pos_complete σ' h P.
Proof.
  intros Hx. apply pos_complete_ext. intros x Hin. unfold keyof.
  by rewrite (agree_total σ σ') by (by apply Hx).
Qed.

Lemma getitem_frame σ σ' c c' h P dk :
  (∀ x, x ∈ h → σ' !! x = σ !! x) →
  final (__getitem__ dk (W σ c h P)) = Some (W σ c h P) ∧
  match __getitem__ dk (W σ' c' h P), __getitem__ dk (W σ c h P) with
  | Return p _, Return p' _ => p = p'
  | Raise e _, Raise e' _ => e = e'
  | _, _ => False
  end.
Proof.
  intros Hx. unfold __getitem__. rewrite !bind_run. unfold position_getitem. wsimpl.
  destruct (P !! dk) as [pos|]; [|done].
  rewrite !bind_run. unfold heap_getitem. wsimpl.
  destruct (py_index (length h) pos) as [n|]; [|done].
  destruct (h !! n) as [x|] eqn:Hn; [|done].
  unfold entry_pkey. wsimpl. split; [done|].
  rewrite (agree_total σ σ'); [done|]. apply Hx. by eapply list_elem_of_lookup_2.
Qed.

Lemma lookup_priority_frame σ σ' q q' k :
  _heap q' = _heap q → _position q' = _position q →
  (∀ x, x ∈ _heap q → σ' !! x = σ !! x) →
  lookup_priority σ' q' k = lookup_priority σ q k.
Proof.
  destruct q as [c h P], q' as [c' h' P']. simpl. intros -> -> Hx.
  destruct (getitem_frame σ σ' c c' h P k Hx) as [_ Hg].
  unfold lookup_priority.
  destruct (__getitem__ k (W σ' c' h P)), (__getitem__ k (W σ c h P));
    naive_solver.
Qed.

Lemma lookup_priority_Some σ c h P k pos l :
  P !! k = Some pos → 0 ≤ pos → h !! Z.to_nat pos = Some l →
  lookup_priority σ (mkPQDict c h P) k = Some (prio σ l).
Proof.
  intros Hk Hpos Hl. unfold lookup_priority, __getitem__.
  rewrite bind_run. unfold position_getitem at 1. wsimpl. rewrite Hk.
  by rewrite bind_run, (heap_getitem_ok _ _ _ _ _ l).
Qed.

(** ** [__copy__] *)

Lemma copy_entries_spec (q : PQDict (K:=K)) h : ∀ σ,
  allocated σ h →
  ∃ σ' h',
    copy_entries h (mkWorld σ q) = Return h' (mkWorld σ' q)
    ∧ length h' = length h
    ∧ NoDup h'
    ∧ (∀ x, x ∈ h' → σ !! x = None ∧ is_Some (σ' !! x))
    ∧ (∀ x, is_Some (σ !! x) → σ' !! x = σ !! x)
    ∧ (∀ (i : nat) x x', h !! i = Some x → h' !! i = Some x' → σ' !!! x' = σ !!! x).
Proof.
  induction h as [|e h IH]; intros σ Hal.
  { exists σ, []. split_and!; [done|done|constructor| |done|done].
    by intros ? ?%elem_of_nil. }
  simpl. rewrite bind_run. unfold copy_entry at 1. wsimpl.
  set (l := fresh (dom σ)). set (σ1 := <[l:=σ !!! e]> σ).
  assert (σ !! l = None) as Hl.
  { apply not_elem_of_dom. apply is_fresh. }
  assert (∀ x, is_Some (σ !! x) → σ1 !! x = σ !! x) as Hfr1.
  { intros x Hx. unfold σ1. rewrite lookup_insert_ne; [done|].
    intros <-. rewrite Hl in Hx. by destruct Hx. }
  destruct (IH σ1) as (σ' & h' & Hr & Hlen & Hnd & Hfresh & Hfr & Hcp).
  { intros x Hx. rewrite Hfr1; apply Hal; by right. }
  rewrite bind_run. fold σ1.
  change (mkWorld σ1 (self (mkWorld σ q))) with (mkWorld σ1 q).
  rewrite Hr. exists σ', (l :: h'). split_and!.
  - done.
  - simpl. by rewrite Hlen.
  - constructor; [|done]. intros Hin. destruct (Hfresh l Hin) as [Hn _].
    unfold σ1 in Hn. by rewrite lookup_insert_eq in Hn.
  - intros x [->|Hx]%elem_of_cons.
    + split; [done|]. rewrite Hfr; unfold σ1; by rewrite lookup_insert_eq.
    + destruct (Hfresh x Hx) as [Hn Hs]. split; [|done].
      unfold σ1 in Hn. destruct (decide (l = x)) as [->|Hne]; [done|].
      by rewrite lookup_insert_ne in Hn.
  - intros x Hx. rewrite Hfr; [by apply Hfr1|]. by rewrite Hfr1.
  - intros [|i] x x'; simpl.
    + intros [= <-] [= <-]. rewrite (agree_total σ1 σ').
      * unfold σ1. by rewrite lookup_total_insert_eq.
      * apply Hfr. unfold σ1. by rewrite lookup_insert_eq.
    + intros Hx Hx'. rewrite (Hcp i x x') by done.
      apply agree_total, Hfr1, Hal. right. by eapply list_elem_of_lookup_2.
Qed.

Lemma copy_spec ck σ c h P :
  wfk ck (W σ c h P) →
  ∃ σ' h',
    __copy__ (W σ c h P) = Return (mkPQDict MinEntry h' P) (W σ' c h P)
    ∧ wfk ck (W σ' MinEntry h' P)
    ∧ wfk ck (W σ' c h P)
    ∧ (pos_complete σ h P → pos_complete σ' h' P ∧ pos_complete σ' h P)
    ∧ (∀ x, x ∈ h' → x ∉ h)
    ∧ (∀ x, is_Some (σ !! x) → σ' !! x = σ !! x)
    ∧ (∀ (i : nat) x x', h !! i = Some x → h' !! i = Some x' → σ' !!! x' = σ !!! x)
    ∧ length h' = length h.
Proof.
  intros Hw. pose proof Hw as [Hswo Hnd Hok Hs Hord]. wsimpl.
  destruct (copy_entries_spec (mkPQDict c h P) h σ)
    as (σ' & h' & Hr & Hlen & Hnd' & Hfresh & Hfr & Hcp);
    [by eapply entries_ok_allocated|].
  assert (∀ x, x ∈ h → σ' !! x = σ !! x) as Hsame.
  { intros x Hx. apply Hfr. by apply Hok. }
  assert (∀ (i : nat) x', h' !! i = Some x' →
            ∃ x, h !! i = Some x ∧ σ' !!! x' = σ !!! x) as Hback.
  { intros i x' Hx'. destruct (lookup_lt_is_Some_2 h i) as [x Hx].
    - rewrite <-Hlen. by eapply lookup_lt_Some.
    - exists x. split; [done|]. by eapply Hcp. }
  assert (∀ (i : nat) x, h !! i = Some x →
            ∃ x', h' !! i = Some x' ∧ σ' !!! x' = σ !!! x) as Hforth.
  { intros i x Hx. destruct (lookup_lt_is_Some_2 h' i) as [x' Hx'].
    - rewrite Hlen. by eapply lookup_lt_Some.
    - exists x'. split; [done|]. by eapply Hcp. }
  exists σ', h'. split_and!.
  - unfold __copy__. rewrite new_PQDict_run. wsimpl. by rewrite Hr.
  - split; wsimpl; [done|done|..].
    + intros x' Hx'. split; [by apply Hfresh|].
      apply list_elem_of_lookup in Hx' as [i Hx'].
      destruct (Hback i x' Hx') as (x & Hx & ->). apply Hok.
      by eapply list_elem_of_lookup_2.
    + intros k i Hk _. destruct (Hs k i Hk) as (Hi & x & Hx & Hxk); [tauto|].
      split; [done|]. destruct (Hforth _ x Hx) as (x' & Hx' & Heq).
      exists x'. split; [done|]. unfold keyof. by rewrite Heq.
    + replace (prios σ' h') with (prios σ h); [done|].
      apply list_eq. intros i. unfold prios. rewrite !list_lookup_fmap.
      destruct (h !! i) as [x|] eqn:Hx.
      * destruct (Hforth i x Hx) as (x' & -> & Heq). simpl. unfold prio. by rewrite Heq.
      * rewrite (lookup_ge_None_2 h'); [done|]. rewrite Hlen. by apply lookup_ge_None.
  - by apply (wfk_frame ck σ).
  - intros Hc. split; [|by apply (complete_frame σ)].
    intros i x' Hx'. destruct (Hback i x' Hx') as (x & Hx & Heq).
    unfold keyof. rewrite Heq. by apply Hc.
  - intros x Hx' Hx. destruct (Hfresh x Hx') as [Hn _].
    destruct (Hok x Hx) as [[o Ho] _]. congruence.
  - done.
  - done.
  - done.
Qed.

End world.

(** * The claims *)

Section claims.
Context {K : Type} `{Countable K} `{!Inhabited K}.
Implicit Types (σ : gmap loc (Entry (K:=K))) (c ck : EntryKind) (h hf : list loc)
  (P : gmap K Z) (w : world (K:=K)) (e x l : loc).

Local Abbreviation W σ c h P := (mkWorld σ (mkPQDict c h P)).

Lemma ends_in_final {A} (Q : world (K:=K) → Prop) (o : outcome A) w' :
  ends_in Q o → final o = Some w' → Q w'.
Proof. destruct o; simpl; [by intros ? [= <-]..|done]. Qed.

Lemma kept_wfw w w' : kept (create_entry (self w)) w w' → wfw w'.
Proof. intros (Hw & Hce & _). unfold wfw. by rewrite Hce. Qed.

Lemma init_wfw σ c args kwargs w :
  strict_weak_order (cmp_of c) →
  __init__ args kwargs (W σ c [] ∅) = Return () w → wfw w.
Proof.
  intros Hswo Hr. pose proof (init_many_args _ _ _ _ _ _ _ Hr) as Hlen.
  destruct (init_spec σ c [] ∅ args kwargs Hswo Hlen)
    as (σ' & h' & P' & Hr' & Hw & _).
  rewrite Hr' in Hr. by injection Hr as <-.
Qed.

Lemma reachable_wfw w : reachable w → wfw w.
Proof.
  induction 1 as [σ args kwargs w Hr|σ args kwargs w Hr|σ args kwargs w Hr
                  |σ c args kwargs w Hswo Hr
                  |w dk pk w' _ IH Hf|w dk pk w' _ IH Hf|w dk pk w' _ IH Hf
                  |w dk w' _ IH Hf|w dk default w' _ IH Hf|w w' _ IH Hf].
  - eapply init_wfw; [apply swo_MinEntry|done].
  - rewrite minpq_run in Hr. eapply init_wfw; [apply swo_MinEntry|done].
  - rewrite maxpq_run in Hr. eapply init_wfw; [apply swo_MaxEntry|done].
  - rewrite custompq_run in Hr. by eapply init_wfw.
  - eapply kept_wfw, ends_in_final; [by apply setitem_kept|done].
  - eapply kept_wfw, ends_in_final; [by apply additem_kept|done].
  - eapply kept_wfw, ends_in_final; [by apply updateitem_kept|done].
  - eapply kept_wfw, ends_in_final; [by apply delitem_kept|done].
  - eapply kept_wfw, ends_in_final; [by apply pop_kept|done].
  - eapply kept_wfw, ends_in_final; [by apply popitem_kept|done].
Qed.

Lemma wfk_heap_property w : wfw w → heap_property w.
Proof.
  intros [Hswo Hnd Hok Hs Hord] i a b Hi Ha Hb.
  assert (cmp_of (create_entry (self w)) (pkey (mem w !!! a)) (pkey (mem w !!! b))
          = false) as Hab.
  { pose proof (parent_lt i Hi).
    apply (Hord i Hi ltac:(lia)); apply prios_lookup; eauto. }
  split; [done|]. rewrite (entry_lt_cmp _ (create_entry (self w))); [done|].
  apply Hok. by eapply list_elem_of_lookup_2.
Qed.

(** C1. In every state reached from a constructor by [__setitem__],
    [additem], [updateitem], [__delitem__], [pop] and [popitem], whether
    they return or raise, no entry at a non-root index is better than the
    entry at its parent index under the queue's ordering (min, max, or a
    custom strict weak order). *)
Theorem heap_invariant w : reachable w → heap_property w.
Proof. intros Hr. by apply wfk_heap_property, reachable_wfw. Qed.

(** Every public operation ends: a reachable state has a successor. *)
Lemma reachable_progress w dk pk default :
  reachable w →
  is_Some (final (__setitem__ dk pk w)) ∧ is_Some (final (additem dk pk w))
  ∧ is_Some (final (updateitem dk pk w)) ∧ is_Some (final (__delitem__ dk w))
  ∧ is_Some (final (pop dk default w)) ∧ is_Some (final (popitem w)).
Proof.
  intros Hw%reachable_wfw.
  pose proof (setitem_kept w dk pk Hw). pose proof (additem_kept w dk pk Hw).
  pose proof (updateitem_kept w dk pk Hw). pose proof (delitem_kept _ w dk Hw).
  pose proof (pop_kept _ w dk default Hw). pose proof (popitem_kept _ w Hw).
  split_and!;
    match goal with |- is_Some (final ?o) => destruct o; simpl in *; eauto; done end.
Qed.

(** ** Construction from pairs with distinct keys *)

Lemma init_wf σ c args kwargs w :
  strict_weak_order (cmp_of c) →
  NoDup (init_pairs args kwargs).*1 →
  __init__ args kwargs (W σ c [] ∅) = Return () w →
  wf w ∧ create_entry (self w) = c
  ∧ items (mem w) (_heap (self w)) ≡ₚ init_pairs args kwargs.
Proof.
  intros Hswo Hnd Hr. pose proof (init_many_args _ _ _ _ _ _ _ Hr) as Hlen.
  destruct (init_spec σ c [] ∅ args kwargs Hswo Hlen)
    as (σ' & h' & P' & Hr' & Hw & Hit & Hc & _).
  rewrite Hr' in Hr. injection Hr as <-. split_and!; [|done|done].
  split; [done|]. by apply Hc.
Qed.

Lemma init_returns σ c args kwargs :
  strict_weak_order (cmp_of c) → (length args ≤ 1)%nat →
  ∃ w, __init__ args kwargs (W σ c [] ∅) = Return () w.
Proof.
  intros Hswo Hlen.
  destruct (init_spec σ c [] ∅ args kwargs Hswo Hlen) as (σ' & h' & P' & Hr & _).
  eauto.
Qed.

(** ** The index *)

Lemma wf_index_bijection w : wf w → index_bijection w.
Proof.
  intros [[_ _ _ Hs _] Hc]. split.
  - intros k i. split.
    + intros Hk. apply (Hs k i); [done|tauto].
    + intros (Hi & l & Hl & <-). pose proof (Hc _ _ Hl) as Hc'.
      unfold keyof in Hc'. rewrite Hc'. f_equal. lia.
  - symmetry. by eapply size_index.
Qed.

Lemma index_bijection_NoDup_keys w :
  index_bijection w → NoDup (items (mem w) (_heap (self w))).*1.
Proof.
  intros [Hb _]. rewrite items_keys. apply NoDup_alt. intros i j k.
  rewrite !list_lookup_fmap.
  destruct (_heap (self w) !! i) as [x|] eqn:Hx; [|done].
  destruct (_heap (self w) !! j) as [y|] eqn:Hy; [|done].
  simpl. intros [= Hxk] [= Hyk].
  assert (_position (self w) !! k = Some (Z.of_nat i)) as Hi.
  { apply Hb. split; [lia|]. exists x. by rewrite Nat2Z.id. }
  assert (_position (self w) !! k = Some (Z.of_nat j)) as Hj.
  { apply Hb. split; [lia|]. exists y. by rewrite Nat2Z.id. }
  rewrite Hi in Hj. injection Hj. lia.
Qed.

(** Whenever the pairs given to the constructor repeat a key, the queue
    it returns breaks the bijection. *)
Lemma duplicate_keys_break_bijection σ args kwargs w :
  PQDict_call args kwargs σ = Return () w →
  ¬ NoDup (init_pairs args kwargs).*1 → ¬ index_bijection w.
Proof.
  intros Hr Hdup Hb. apply Hdup. unfold PQDict_call in Hr.
  pose proof (init_many_args _ _ _ _ _ _ _ Hr) as Hlen.
  destruct (init_spec σ MinEntry [] ∅ args kwargs swo_MinEntry Hlen)
    as (σ' & h' & P' & Hr' & Hw & Hit & _).
  rewrite Hr' in Hr. injection Hr as <-.
  apply index_bijection_NoDup_keys in Hb. wsimpl.
  by rewrite <-Hit.
Qed.

(** ** [pushpopitem] *)

(** C4. [pushpopitem] inserts nothing and returns nothing: in every
    state and for every pair it raises [NameError] at its second
    statement, where it reads the unbound name [self_position], and
    leaves the queue as it was. *)
Theorem pushpopitem_raises_NameError w dk pk :
  pushpopitem dk pk w = Raise NameError w.
Proof. done. Qed.

(** ** Errors *)

(** C5. In a well-formed queue, [__getitem__], [updateitem],
    [__delitem__] and [pop] without a default raise [KeyError] exactly
    when the key is not in the index; [additem] raises [KeyError] exactly
    when it is; [popitem] and [peek] raise [KeyError] exactly when the heap
    is empty; whenever one of them raises, the store, the heap list and
    the index are what they were; otherwise it returns. *)
Theorem error_taxonomy w dk pk :
  wf w →
  raises_iff (__getitem__ dk) KeyError (_position (self w) !! dk = None) w
  ∧ raises_iff (updateitem dk pk) KeyError (_position (self w) !! dk = None) w
  ∧ raises_iff (__delitem__ dk) KeyError (_position (self w) !! dk = None) w
  ∧ raises_iff (pop dk None) KeyError (_position (self w) !! dk = None) w
  ∧ raises_iff (additem dk pk) KeyError (is_Some (_position (self w) !! dk)) w
  ∧ raises_iff popitem KeyError (_heap (self w) = []) w
  ∧ raises_iff peek KeyError (_heap (self w) = []) w.
Proof.
  intros [Hw Hc]. pose proof Hw as [Hswo Hnd Hok Hs Hord].
  destruct w as [σ [c h P]]. unfold pcomplete in *. wsimpl.
  split_and!; split.
  - intros Hk. by apply getitem_missing.
  - intros Hk. destruct (P !! dk) as [pos|] eqn:Hdk; [|done].
    destruct (getitem_present σ c h P dk pos) as (l & _ & _ & Hr); eauto.
  - intros Hk. unfold updateitem. rewrite bind_run. unfold position_contains at 1.
    wsimpl. rewrite Hk. by rewrite bool_decide_eq_false_2 by (by intros [??]).
  - intros Hk. destruct (P !! dk) as [pos|] eqn:Hdk; [|done].
    unfold updateitem. rewrite bind_run. unfold position_contains at 1. wsimpl.
    rewrite Hdk, bool_decide_eq_true_2 by eauto. simpl.
    destruct (setitem_upd_spec σ c c h P dk pk pos)
      as (l & h' & P' & _ & _ & Hr & _); eauto.
  - intros Hk. by apply delitem_missing.
  - intros Hk. destruct (P !! dk) as [pos|] eqn:Hdk; [|done].
    destruct (delitem_spec σ c c h P dk pos) as (l & h' & P' & _ & _ & Hr & _); eauto.
  - intros Hk. by rewrite pop_missing.
  - intros Hk. destruct (P !! dk) as [pos|] eqn:Hdk; [|done].
    destruct (pop_spec σ c c h P dk pos None) as (l & h' & P' & _ & _ & Hr & _); eauto.
  - intros Hk. unfold additem. rewrite bind_run. unfold position_contains at 1.
    wsimpl. by rewrite bool_decide_eq_true_2.
  - intros Hk. unfold additem. rewrite bind_run. unfold position_contains at 1.
    wsimpl. rewrite bool_decide_eq_false_2 by done.
    assert (P !! dk = None) as Hdk.
    { destruct (P !! dk) eqn:?; [|done]. destruct Hk. eauto. }
    destruct (setitem_new_spec σ c h P dk pk) as (h' & P' & Hr & _);
      [done|by eapply entries_ok_allocated|done|done|]. eauto.
  - intros Hh. by apply popitem_empty.
  - intros Hh. destruct (popitem_wf c (W σ c h P)) as (l & w' & _ & Hr & _); eauto.
  - intros Hh. by apply peek_empty.
  - intros Hh. destruct h as [|l h]; [done|].
    rewrite (peek_nonempty _ _ _ _ l) by done. eauto.
Qed.

(** ** Updating to the same priority *)


(** ** Inserting, then deleting *)

Lemma list_to_set_keys_perm σ h h' :
  h' ≡ₚ h → (list_to_set (keyof σ <$> h') : gset K) = list_to_set (keyof σ <$> h).
Proof. intros Hp. apply set_eq. intros k. by rewrite !elem_of_list_to_set, Hp. Qed.

(** C7. In a well-formed queue that does not hold [dk], [__setitem__]
    of [dk] followed by [__delitem__] of [dk] both return; afterwards the
    heap list has the length it had, and the index has the size and the
    set of keys it had. *)
Theorem insert_delete_inverse w dk pk :
  wf w → _position (self w) !! dk = None →
  ∃ w1 w2,
    __setitem__ dk pk w = Return () w1
    ∧ __delitem__ dk w1 = Return () w2
    ∧ length (_heap (self w2)) = length (_heap (self w))
    ∧ size (_position (self w2)) = size (_position (self w))
    ∧ dom (_position (self w2)) = dom (_position (self w))
    ∧ wf w2.
Proof.
  intros [Hw Hc] Hdk. pose proof Hw as [Hswo Hnd Hok Hs Hord].
  destruct w as [σ [c h P]]. unfold pcomplete in *. wsimpl.
  pose proof (entries_ok_allocated _ _ _ Hok) as Hal.
  destruct (setitem_new_spec σ c h P dk pk)
    as (h1 & P1 & Hr1 & Hperm1 & Hs1 & Hc1 & Hord1); [done..|].
  set (l := fresh (dom σ)) in *. set (σ1 := <[l:=PQDictEntry c dk pk]> σ) in *.
  specialize (Hc1 Hc). specialize (Hord1 Hswo Hok Hord).
  assert (NoDup h1) as Hnd1 by (rewrite Hperm1; by apply (alloc_NoDup σ)).
  assert (entries_ok σ1 c h1) as Hok1.
  { eapply entries_ok_perm; [done|]. by apply alloc_entries_ok. }
  assert (keyof σ1 l = dk) as Hlk.
  { unfold keyof, σ1. by rewrite lookup_total_insert_eq. }
  assert (l ∈ h1) as Hl1.
  { rewrite Hperm1, elem_of_app, list_elem_of_singleton. by right. }
  apply list_elem_of_lookup in Hl1 as [j Hj].
  pose proof (Hc1 _ _ Hj) as Hpj. rewrite Hlk in Hpj.
  destruct (delitem_spec σ1 c c h1 P1 dk (Z.of_nat j))
    as (l2 & h2 & P2 & Hl2 & Hl2k & Hr2 & Hperm2 & Hs2 & Hc2 & Hord2); [done..|].
  rewrite Nat2Z.id, Hj in Hl2. injection Hl2 as <-.
  specialize (Hc2 Hc1).
  assert (h2 ≡ₚ h) as Hperm.
  { apply (Permutation_cons_inv (a := l)).
    rewrite Hperm2, Hperm1. symmetry. apply Permutation_cons_append. }
  assert (∀ x, x ∈ h → keyof σ1 x = keyof σ x) as Hkeys.
  { intros x Hx. unfold keyof. by rewrite (alloc_same σ c h dk pk Hal). }
  exists (W σ1 c h1 P1), (W σ1 c h2 P2). wsimpl.
  split_and!; [done|done|by rewrite Hperm| | |].
  - rewrite (size_index σ1 h2 P2), (size_index σ h P) by done. by rewrite Hperm.
  - rewrite (dom_index σ1 h2 P2), (dom_index σ h P) by done.
    rewrite (list_to_set_keys_perm σ1 h h2) by done. f_equal.
    apply list_eq. intros i. rewrite !list_lookup_fmap.
    destruct (h !! i) as [x|] eqn:Hx; [simpl|done]. f_equal. apply Hkeys.
    by eapply list_elem_of_lookup_2.
  - split; [|done]. split; wsimpl; [done|by rewrite Hperm| |done|done].
    intros x Hx. apply Hok1. rewrite <-Hperm2. by right.
Qed.

(** ** Copies *)

Lemma independent_sym σ a b : independent σ a b → independent σ b a.
Proof. intros (Ha & Hb & Hd). split_and!; [done..|]. intros x Hx Hx'. by apply (Hd x). Qed.

(** Assigning a priority to a key of [a] changes no priority of [b]. *)
Lemma mutation_isolated σ a b dk pk :
  independent σ a b → is_Some (_position a !! dk) →
  ∃ σ' a',
    __setitem__ dk pk (mkWorld σ a) = Return () (mkWorld σ' a')
    ∧ updateitem dk pk (mkWorld σ a) = Return () (mkWorld σ' a')
    ∧ lookup_priority σ' a' dk = Some pk
    ∧ (∀ k, lookup_priority σ' b k = lookup_priority σ b k)
    ∧ independent σ' a' b.
Proof.
  intros ((ca & Hwa & Hca) & (cb & Hwb & Hcb) & Hd) [pos Hdk].
  destruct a as [c h P], b as [c' hb Pb]. unfold pcomplete in *. wsimpl.
  pose proof Hwa as [Hswo Hnd Hok Hs Hord]. wsimpl.
  destruct (setitem_upd_spec σ c ca h P dk pk pos)
    as (l & h' & P' & Hl & Hlk & Hr & Hperm & Hs' & Hc' & Hord'); [done..|].
  specialize (Hc' Hca).
  assert (l ∈ h) as Hlh by (by eapply list_elem_of_lookup_2).
  assert (∀ x, x ∈ hb → set_pkey σ l pk !! x = σ !! x) as Hfr.
  { intros x Hx. unfold set_pkey. apply lookup_insert_ne. intros <-. by apply (Hd l). }
  exists (set_pkey σ l pk), (mkPQDict c h' P'). split_and!.
  - done.
  - unfold updateitem. rewrite bind_run. unfold position_contains at 1. wsimpl.
    by rewrite Hdk, bool_decide_eq_true_2 by eauto.
  - assert (l ∈ h') as Hlh' by (by rewrite Hperm).
    apply list_elem_of_lookup in Hlh' as [j Hj].
    pose proof (Hc' _ _ Hj) as Hpj. rewrite set_pkey_keyof, Hlk in Hpj.
    rewrite (lookup_priority_Some _ _ _ _ _ (Z.of_nat j) l); [|done|lia|by rewrite Nat2Z.id].
    by rewrite set_pkey_prio, decide_True.
  - intros k. by apply lookup_priority_frame.
  - split_and!.
    + exists ca. split; [|done]. split; wsimpl; [done|by rewrite Hperm| |done|done].
      eapply entries_ok_perm; [done|]. by apply entries_ok_set_pkey.
    + exists cb. split; [by apply (wfk_frame cb σ)|by apply (complete_frame σ)].
    + intros x Hx. apply Hd. by rewrite <-Hperm.
Qed.

(** C8. The copy of a well-formed queue is a queue of fresh entry
    objects: it shares none with the original and reads the same
    priorities. From then on, however often a stored key of either queue is
    assigned a priority (by [__setitem__] or [updateitem]), the assignment
    returns, is read back, changes no priority the other queue reads, and
    leaves the two queues sharing no entry object. *)
Theorem copy_independence σ q :
  wf (mkWorld σ q) →
  ∃ cp σ1,
    __copy__ (mkWorld σ q) = Return cp (mkWorld σ1 q)
    ∧ (∀ x, x ∈ _heap cp → x ∉ _heap q)
    ∧ (∀ k, lookup_priority σ1 cp k = lookup_priority σ q k)
    ∧ (∀ k, lookup_priority σ1 q k = lookup_priority σ q k)
    ∧ independent σ1 q cp ∧ independent σ1 cp q
    ∧ ∀ σ' a b dk pk,
        independent σ' a b → is_Some (_position a !! dk) →
        ∃ σ'' a',
          __setitem__ dk pk (mkWorld σ' a) = Return () (mkWorld σ'' a')
          ∧ updateitem dk pk (mkWorld σ' a) = Return () (mkWorld σ'' a')
          ∧ lookup_priority σ'' a' dk = Some pk
          ∧ (∀ k, lookup_priority σ'' b k = lookup_priority σ' b k)
          ∧ independent σ'' a' b ∧ independent σ'' b a'.
Proof.
  intros [Hw Hc]. destruct q as [c h P]. unfold pcomplete in *. wsimpl.
  destruct (copy_spec c σ c h P Hw)
    as (σ1 & h' & Hr & Hwc & Hwq & Hcs & Hdisj & Hfr & Hcp & Hlen).
  destruct (Hcs Hc) as [Hcc Hcq].
  pose proof Hw as [Hswo Hnd Hok Hs Hord]. wsimpl.
  assert (independent σ1 (mkPQDict c h P) (mkPQDict MinEntry h' P)) as Hind.
  { split_and!; [by exists c|by exists c|]. intros x Hx Hx'. by apply (Hdisj x). }
  exists (mkPQDict MinEntry h' P), σ1. split_and!.
  - done.
  - done.
  - intros k. unfold lookup_priority, __getitem__.
    rewrite !bind_run. unfold position_getitem. wsimpl.
    destruct (P !! k) as [pos|] eqn:Hk; [|done].
    destruct (Hs k pos Hk) as (Hpos & x & Hx & Hxk); [tauto|].
    destruct (lookup_lt_is_Some_2 h' (Z.to_nat pos)) as [x' Hx'].
    { rewrite Hlen. by eapply lookup_lt_Some. }
    rewrite !bind_run, (heap_getitem_ok _ _ _ _ _ x'), (heap_getitem_ok _ _ _ _ _ x)
      by done.
    unfold entry_pkey. wsimpl. by rewrite (Hcp (Z.to_nat pos) x x').
  - intros k. apply lookup_priority_frame; [done..|].
    intros x Hx. apply Hfr. by apply Hok.
  - done.
  - by apply independent_sym.
  - intros σ' a b dk pk Hab Hdk.
    destruct (mutation_isolated σ' a b dk pk Hab Hdk)
      as (σ'' & a' & ? & ? & ? & ? & Hind').
    exists σ'', a'. split_and!; [done..|by apply independent_sym].
Qed.

(** C10. The copy of a well-formed queue creates entries of the class
    default [_MinEntry], whatever class the original creates.  It has the
    index of the original and a heap list of the same length, whose
    entries are new objects with the attributes and the class of the
    entries they were copied from, slot by slot, so that two copied entries
    compare as the originals do; a key assigned in the copy for the first
    time gets a [_MinEntry] object, which the index then points at. *)
Theorem copy_resets_entry_class σ q :
  wf (mkWorld σ q) →
  ∃ cp σ1,
    __copy__ (mkWorld σ q) = Return cp (mkWorld σ1 q)
    ∧ create_entry cp = MinEntry
    ∧ _position cp = _position q
    ∧ length (_heap cp) = length (_heap q)
    ∧ (∀ x, x ∈ _heap cp → x ∉ _heap q)
    ∧ (∀ (i : nat) x x', _heap q !! i = Some x → _heap cp !! i = Some x' →
         σ1 !!! x' = σ !!! x ∧ kind (σ1 !!! x') = create_entry q)
    ∧ (∀ (i j : nat) x y x' y',
         _heap q !! i = Some x → _heap q !! j = Some y →
         _heap cp !! i = Some x' → _heap cp !! j = Some y' →
         entry_lt (σ1 !!! x') (σ1 !!! y') = entry_lt (σ !!! x) (σ !!! y)
         ∧ entry_lt (σ1 !!! x') (σ1 !!! y')
           = cmp_of (create_entry q) (pkey (σ !!! x)) (pkey (σ !!! y)))
    ∧ ∀ dk pk, _position cp !! dk = None →
        ∃ w2 l (i : nat),
          __setitem__ dk pk (mkWorld σ1 cp) = Return () w2
          ∧ create_entry (self w2) = MinEntry
          ∧ _position (self w2) !! dk = Some (Z.of_nat i)
          ∧ _heap (self w2) !! i = Some l
          ∧ mem w2 !!! l = PQDictEntry MinEntry dk pk.
Proof.
  intros [Hw Hc]. destruct q as [c h P]. unfold pcomplete in *. wsimpl.
  destruct (copy_spec c σ c h P Hw)
    as (σ1 & h' & Hr & Hwc & Hwq & Hcs & Hdisj & Hfr & Hcp & Hlen).
  destruct (Hcs Hc) as [Hcc Hcq].
  pose proof Hw as [Hswo Hnd Hok Hs Hord].
  pose proof Hwc as [_ Hnd' Hok' Hs' _]. wsimpl.
  exists (mkPQDict MinEntry h' P), σ1.
  split_and!; [done|done|done|done|done| | |].
  - intros i x x' Hx Hx'. split; [by eapply Hcp|].
    rewrite (Hcp i x x') by done. apply Hok. by eapply list_elem_of_lookup_2.
  - intros i j x y x' y' Hx Hy Hx' Hy'.
    rewrite (Hcp i x x'), (Hcp j y y') by done. split; [done|].
    apply (entry_lt_cmp σ c x y). apply Hok. by eapply list_elem_of_lookup_2.
  - intros dk pk Hdk. wsimpl.
    destruct (setitem_new_spec σ1 MinEntry h' P dk pk)
      as (h2 & P2 & Hr2 & Hperm2 & Hs2 & Hc2 & _);
      [done|by eapply entries_ok_allocated|done|done|].
    set (l := fresh (dom σ1)) in *.
    set (σ2 := <[l:=PQDictEntry MinEntry dk pk]> σ1) in *.
    assert (l ∈ h2) as Hl2.
    { rewrite Hperm2, elem_of_app, list_elem_of_singleton. by right. }
    apply list_elem_of_lookup in Hl2 as [j Hj].
    pose proof (Hc2 Hcc _ _ Hj) as Hpj.
    assert (σ2 !!! l = PQDictEntry MinEntry dk pk) as Hl.
    { unfold σ2. by rewrite lookup_total_insert_eq. }
    unfold keyof in Hpj. rewrite Hl in Hpj. simpl in Hpj.
    exists (W σ2 MinEntry h2 P2), l, j. by split_and!.
Qed.

(** ** Popping everything *)

Lemma popitems_all w :
  wf w →
  ∃ its w',
    popitems (length (_heap (self w))) w = Return its w'
    ∧ iteritems w = Return its w'
    ∧ length its = length (_heap (self w))
    ∧ _heap (self w') = [] ∧ _position (self w') = ∅
    ∧ its ≡ₚ items (mem w) (_heap (self w))
    ∧ StronglySorted (pops_before (create_entry (self w))) its.
Proof.
  intros [Hw Hc].
  destruct (drain_spec (create_entry (self w)) (length (_heap (self w))) w)
    as (its & w' & Hpop & Hit & Hperm & Hsort & Hh & HP & _); [done..|].
  exists its, w'. split_and!; [done|done| |done..].
  rewrite Hperm. unfold items. by rewrite length_fmap.
Qed.

(** A list of pairs with distinct priorities has one sorted order. *)
Lemma sorted_perm_unique ck (its target : list (K * Z)) :
  (∀ a b, cmp_of ck a b = false → cmp_of ck b a = false → a = b) →
  NoDup target.*2 →
  its ≡ₚ target →
  StronglySorted (pops_before ck) its →
  StronglySorted (pops_before ck) target →
  its = target.
Proof.
  intros Hanti Hnd Hperm Hs Ht.
  apply (StronglySorted_unique_strong (pops_before ck)); [|done..].
  intros x1 x2 Hx1 Hx2 H12 H21. rewrite Hperm in Hx1.
  apply list_elem_of_lookup in Hx1 as [i Hi].
  apply list_elem_of_lookup in Hx2 as [j Hj].
  assert (x1.2 = x2.2) as Heq by (by apply Hanti).
  assert (i = j) as ->; [|congruence].
  apply (proj1 (NoDup_alt _) Hnd i j x1.2); rewrite list_lookup_fmap.
  - by rewrite Hi.
  - by rewrite Hj, Heq.
Qed.

Lemma PQDict_call_spec σ pairs :
  NoDup pairs.*1 →
  ∃ w, PQDict_call [pairs] [] σ = Return () w
       ∧ wf w ∧ create_entry (self w) = MinEntry
       ∧ items (mem w) (_heap (self w)) ≡ₚ pairs.
Proof.
  intros Hnd. unfold PQDict_call.
  destruct (init_returns σ MinEntry [pairs] []) as [w Hr];
    [apply swo_MinEntry|simpl; lia|].
  exists w. split; [done|].
  assert (init_pairs [pairs] [] = pairs) as Hp by apply app_nil_r.
  rewrite <-Hp. apply (init_wf σ); [apply swo_MinEntry|by rewrite Hp|done].
Qed.

Lemma maxpq_spec σ pairs :
  NoDup pairs.*1 →
  ∃ w, maxpq [pairs] [] σ = Return () w
       ∧ wf w ∧ create_entry (self w) = MaxEntry
       ∧ items (mem w) (_heap (self w)) ≡ₚ pairs.
Proof.
  intros Hnd. rewrite maxpq_run.
  destruct (init_returns σ MaxEntry [pairs] []) as [w Hr];
    [apply swo_MaxEntry|simpl; lia|].
  exists w. split; [done|].
  assert (init_pairs [pairs] [] = pairs) as Hp by apply app_nil_r.
  rewrite <-Hp. apply (init_wf σ); [apply swo_MaxEntry|by rewrite Hp|done].
Qed.

Lemma sort_by_value_spec σ pairs (reverse : bool) :
  NoDup pairs.*1 →
  ∃ its w',
    sort_by_value pairs reverse σ = Return its w'
    ∧ its ≡ₚ pairs
    ∧ StronglySorted (pops_before (if reverse then MaxEntry else MinEntry)) its.
Proof.
  intros Hnd. unfold sort_by_value. destruct reverse.
  - destruct (maxpq_spec σ pairs Hnd) as (w & -> & Hw & Hce & Hit). simpl.
    destruct (popitems_all w Hw) as (its & w' & _ & Hr & _ & _ & _ & Hperm & Hs).
    exists its, w'. split_and!; [done|by rewrite Hperm|by rewrite <-Hce].
  - destruct (PQDict_call_spec σ pairs Hnd) as (w & -> & Hw & Hce & Hit). simpl.
    destruct (popitems_all w Hw) as (its & w' & _ & Hr & _ & _ & _ & Hperm & Hs).
    exists its, w'. split_and!; [done|by rewrite Hperm|by rewrite <-Hce].
Qed.

End claims.

(** * The queue as a mapping *)

Section view.
Context {K : Type} `{Countable K} `{!Inhabited K}.
Implicit Types (σ : gmap loc (Entry (K:=K))) (c ck : EntryKind) (h hf : list loc)
  (P : gmap K Z) (w : world (K:=K)) (e x l : loc).

Local Abbreviation W σ c h P := (mkWorld σ (mkPQDict c h P)).



Lemma items_elem_of σ h k p :
  (k, p) ∈ items σ h ↔ ∃ l, l ∈ h ∧ keyof σ l = k ∧ prio σ l = p.
Proof.
  unfold items. rewrite list_elem_of_fmap. split.
  - intros (l & [= -> ->] & Hl). eauto.
  - intros (l & Hl & <- & <-). eauto.
Qed.

Lemma wf_NoDup_keys w : pcomplete w → NoDup (items (mem w) (_heap (self w))).*1.
Proof. intros Hc. rewrite items_keys. by eapply complete_NoDup_keys. Qed.

(** [q[k]] reads the mapping. *)
Lemma priority_contents ck w k :
  wfk ck w → pcomplete w → priority w k = contents w !! k.
Proof.
  intros [Hswo Hnd Hok Hs Hord] Hc. pose proof (wf_NoDup_keys w Hc) as Hk.
  destruct w as [σ [c h P]]. unfold priority, contents, pcomplete in *. wsimpl.
  destruct (list_to_map (items σ h) !! k) as [p|] eqn:Hl.
  - apply elem_of_list_to_map in Hl; [|done].
    apply items_elem_of in Hl as (l & Hl & <- & <-).
    apply list_elem_of_lookup in Hl as [i Hi].
    apply (lookup_priority_Some _ _ _ _ _ (Z.of_nat i)); [by apply Hc|lia|].
    by rewrite Nat2Z.id.
  - apply not_elem_of_list_to_map in Hl. rewrite items_keys in Hl.
    destruct (P !! k) as [pos|] eqn:HP.
    + destruct (Hs k pos HP) as (_ & l & Hl' & Hkl); [tauto|].
      destruct Hl. apply list_elem_of_fmap. exists l. split; [done|].
      by eapply list_elem_of_lookup_2.
    + unfold lookup_priority. by rewrite getitem_missing.
Qed.

(** [q[k]] returns the priority of [k] or raises [KeyError], and leaves
    the state as it was. *)
Lemma getitem_run ck w k :
  wfk ck w →
  __getitem__ k w = match priority w k with
                    | Some p => Return p w
                    | None => Raise KeyError w
                    end.
Proof.
  intros [Hswo Hnd Hok Hs Hord]. destruct w as [σ [c h P]]. unfold priority. wsimpl.
  destruct (P !! k) as [pos|] eqn:HP.
  - destruct (getitem_present σ c h P k pos Hs HP) as (l & Hl & Hkl & Hr).
    unfold lookup_priority. by rewrite Hr.
  - unfold lookup_priority. by rewrite getitem_missing.
Qed.

Lemma contents_index ck w k :
  wfk ck w → pcomplete w →
  is_Some (contents w !! k) ↔ is_Some (_position (self w) !! k).
Proof.
  intros Hw Hc. pose proof (wf_NoDup_keys w Hc) as Hk.
  pose proof Hw as [Hswo Hnd Hok Hs Hord].
  destruct w as [σ [c h P]]. unfold contents, pcomplete in *. wsimpl. split.
  - intros [p Hp]. apply elem_of_list_to_map in Hp; [|done].
    apply items_elem_of in Hp as (l & Hl & <- & <-).
    apply list_elem_of_lookup in Hl as [i Hi]. rewrite (Hc i l Hi). eauto.
  - intros [pos HP]. destruct (Hs k pos HP) as (_ & l & Hl' & Hkl); [tauto|].
    exists (prio σ l). apply elem_of_list_to_map; [done|].
    apply items_elem_of. exists l. split; [|done]. by eapply list_elem_of_lookup_2.
Qed.

Lemma contents_size w :
  pcomplete w → size (contents w) = length (_heap (self w)).
Proof.
  intros Hc. pose proof (wf_NoDup_keys w Hc) as Hk. unfold contents.
  rewrite <-size_dom, dom_list_to_map_L, size_list_to_set by done.
  rewrite length_fmap. unfold items. by rewrite length_fmap.
Qed.

(** Taking the entry [l] out of the heap list deletes its key. *)
Lemma contents_remove σ c h P c' h' P' l :
  NoDup (keyof σ <$> h) → l :: h' ≡ₚ h →
  contents (W σ c' h' P') = delete (keyof σ l) (contents (W σ c h P))
  ∧ contents (W σ c h P) !! keyof σ l = Some (prio σ l).
Proof.
  intros Hk Hp. unfold contents. wsimpl.
  assert (items σ h ≡ₚ (keyof σ l, prio σ l) :: items σ h') as Hit.
  { by rewrite <-(items_Permutation σ _ _ Hp). }
  assert (NoDup (items σ h).*1) as Hk' by (by rewrite items_keys).
  rewrite (list_to_map_proper _ _ Hk' Hit), list_to_map_cons.
  rewrite Hit in Hk'. rewrite fmap_cons in Hk'. apply NoDup_cons in Hk' as [Hnin _].
  split; [|by rewrite lookup_insert_eq].
  symmetry. apply delete_insert_id. by apply not_elem_of_list_to_map.
Qed.

(** Writing [pk] into the entry [l] updates its key. *)
Lemma contents_set_pkey σ c h P c' h' P' l pk :
  NoDup (keyof σ <$> h) → l ∈ h → h' ≡ₚ h →
  contents (W (set_pkey σ l pk) c' h' P')
    = <[keyof σ l := pk]> (contents (W σ c h P)).
Proof.
  intros Hk Hl Hp. unfold contents. wsimpl.
  assert (NoDup (items (set_pkey σ l pk) h').*1) as Hk1.
  { rewrite items_keys, Hp. erewrite list_fmap_ext; [done|].
    intros ???. apply set_pkey_keyof. }
  assert (NoDup (items σ h).*1) as Hk2 by (by rewrite items_keys).
  apply map_eq. intros k. apply option_eq. intros p.
  rewrite <-elem_of_list_to_map by done. rewrite items_elem_of.
  setoid_rewrite Hp. setoid_rewrite set_pkey_keyof. setoid_rewrite set_pkey_prio.
  destruct (decide (k = keyof σ l)) as [->|Hne].
  - rewrite lookup_insert_eq. split.
    + intros (x & Hx & Hkx & Hpx).
      assert (x = l) as ->.
      { apply list_elem_of_lookup in Hx as [i Hi]. apply list_elem_of_lookup in Hl as [j Hj].
        assert (i = j) as ->.
        { eapply NoDup_lookup; [exact Hk|..]; rewrite list_lookup_fmap.
          - by rewrite Hi.
          - rewrite Hj. simpl. by rewrite Hkx. }
        congruence. }
      rewrite decide_True in Hpx by done. by subst.
    + intros [= <-]. exists l. by rewrite decide_True.
  - rewrite lookup_insert_ne by done. rewrite <-elem_of_list_to_map by done.
    rewrite items_elem_of. split.
    + intros (x & Hx & Hkx & Hpx). exists x. rewrite decide_False in Hpx; [done|].
      intros ->. done.
    + intros (x & Hx & Hkx & Hpx). exists x. rewrite decide_False; [done|].
      intros ->. done.
Qed.

(** Appending a new entry for an absent key inserts it. *)
Lemma contents_alloc σ c h P c' h' P' dk pk :
  NoDup h → allocated σ h → NoDup (keyof σ <$> h) → dk ∉ keyof σ <$> h →
  h' ≡ₚ h ++ [fresh (dom σ)] →
  contents (W (<[fresh (dom σ) := PQDictEntry c dk pk]> σ) c' h' P')
    = <[dk := pk]> (contents (W σ c h P)).
Proof.
  intros Hnd Hal Hk Hnin Hp. unfold contents. wsimpl.
  pose proof (alloc_items σ c h dk pk Hal) as Hit. simpl in Hit.
  assert (items (<[fresh (dom σ) := PQDictEntry c dk pk]> σ) h'
            ≡ₚ (dk, pk) :: items σ h) as Hit'.
  { rewrite (items_Permutation _ _ _ Hp), Hit. symmetry. apply Permutation_cons_append. }
  rewrite <-list_to_map_cons. apply list_to_map_proper; [|done].
  rewrite Hit', fmap_cons, items_keys. simpl. by apply NoDup_cons.
Qed.

Lemma contents_slot σ c h P l :
  NoDup (keyof σ <$> h) → l ∈ h →
  contents (W σ c h P) !! keyof σ l = Some (prio σ l).
Proof.
  intros Hk Hl. unfold contents. wsimpl.
  apply elem_of_list_to_map; [by rewrite items_keys|].
  apply items_elem_of. eauto.
Qed.

Lemma contents_elem_of σ c h P k p :
  NoDup (keyof σ <$> h) →
  contents (W σ c h P) !! k = Some p → ∃ l, l ∈ h ∧ keyof σ l = k ∧ prio σ l = p.
Proof.
  intros Hk Hl. unfold contents in Hl. wsimpl.
  apply elem_of_list_to_map in Hl; [|by rewrite items_keys].
  by apply items_elem_of.
Qed.

Lemma getitem_priority w k p w' :
  __getitem__ k w = Return p w' → priority w k = Some p.
Proof. destruct w. intros Hr. unfold priority, lookup_priority. simpl. by rewrite Hr. Qed.

Lemma kept_wf w w' :
  wf w → kept (create_entry (self w)) w w' → wf w'.
Proof.
  intros [Hw Hc] (Hk & Hce & Hpc). split; [|by apply Hpc].
  unfold wfw. by rewrite Hce.
Qed.

Lemma complete_absent σ h P dk :
  pos_complete σ h P → P !! dk = None → dk ∉ keyof σ <$> h.
Proof.
  intros Hc HP (l & -> & Hl)%list_elem_of_fmap.
  apply list_elem_of_lookup in Hl as [i Hi]. by rewrite (Hc i l Hi) in HP.
Qed.

(** ** The methods as operations on the mapping *)

Lemma setitem_contents w dk pk :
  wf w →
  ∃ w', __setitem__ dk pk w = Return () w' ∧ wf w'
        ∧ create_entry (self w') = create_entry (self w)
        ∧ contents w' = <[dk := pk]> (contents w).
Proof.
  intros Hwf. pose proof Hwf as [Hw Hc].
  pose proof (setitem_kept w dk pk Hw) as Hkept.
  pose proof Hw as [Hswo Hnd Hok Hs Hord].
  destruct w as [σ [c h P]]. unfold pcomplete in *. wsimpl.
  pose proof (complete_NoDup_keys _ _ _ Hc) as Hk.
  destruct (P !! dk) as [pos|] eqn:HP.
  - destruct (setitem_upd_spec σ c c h P dk pk pos)
      as (l & h' & P' & Hl & Hkl & Hr & Hperm & _); [done..|].
    rewrite Hr in Hkept. simpl in Hkept. eexists. split; [exact Hr|].
    split; [by eapply kept_wf|]. split; [done|].
    rewrite <-Hkl. apply contents_set_pkey; [done| |done].
    by eapply list_elem_of_lookup_2.
  - pose proof (entries_ok_allocated _ _ _ Hok) as Hal.
    destruct (setitem_new_spec σ c h P dk pk)
      as (h' & P' & Hr & Hperm & _); [done..|].
    rewrite Hr in Hkept. simpl in Hkept. eexists. split; [exact Hr|].
    split; [by eapply kept_wf|]. split; [done|].
    apply contents_alloc; [done..| |done]. by eapply complete_absent.
Qed.

Lemma delitem_contents w dk :
  wf w → is_Some (_position (self w) !! dk) →
  ∃ p w', pop dk None w = Return p w' ∧ __delitem__ dk w = Return () w'
        ∧ (∀ d, pop dk (Some d) w = Return p w')
        ∧ wf w'
        ∧ create_entry (self w') = create_entry (self w)
        ∧ contents w !! dk = Some p
        ∧ contents w' = delete dk (contents w).
Proof.
  intros Hwf [pos HP]. pose proof Hwf as [Hw Hc].
  pose proof (delitem_kept _ w dk Hw) as Hkept.
  pose proof Hw as [Hswo Hnd Hok Hs Hord].
  destruct w as [σ [c h P]]. unfold pcomplete in *. wsimpl.
  pose proof (complete_NoDup_keys _ _ _ Hc) as Hk.
  destruct (delitem_spec σ c c h P dk pos)
    as (l & h' & P' & Hl & Hkl & Hr & Hperm & _); [done..|].
  assert (∀ default, ∃ h2 P2,
    pop dk default (W σ c h P) = Return (prio σ l) (W σ c h2 P2)) as Hpop.
  { intros default. destruct (pop_spec σ c c h P dk pos default)
      as (l2 & h2 & P2 & Hl2 & _ & Hr2 & _); [done..|].
    assert (l2 = l) as -> by congruence. eauto. }
  assert (∀ default,
    pop dk default (W σ c h P) = Return (prio σ l) (W σ c h' P')) as Hpop'.
  { intros default. destruct (Hpop default) as (h2 & P2 & Hr2). rewrite Hr2.
    revert Hr Hr2. unfold __delitem__, pop, try_except_else.
    rewrite !bind_run. unfold position_pop at 1 2. wsimpl. rewrite HP.
    rewrite !bind_run.
    destruct (heap_getitem pos _) as [e w1| |]; [|done..].
    rewrite !bind_run. unfold entry_pkey at 1. rewrite !bind_run.
    destruct (heap_pop _) as [el w2| |]; [|done..]. rewrite !bind_run.
    destruct (fill_vacated _ _ _ _) as [[] w3| |]; [|done..].
    intros [= ->] [= _ <- <-]. done. }
  rewrite Hr in Hkept. simpl in Hkept.
  destruct (contents_remove σ c h P c h' P' l Hk Hperm) as [Hcont Hlk].
  rewrite Hkl in Hcont, Hlk.
  exists (prio σ l), (W σ c h' P'). split_and!; [done|done|done|by eapply kept_wf|done|done|done].
Qed.

Lemma popitem_contents w :
  wf w → _heap (self w) ≠ [] →
  ∃ k p w', peek w = Return (k, p) w ∧ popitem w = Return (k, p) w'
        ∧ wf w'
        ∧ create_entry (self w') = create_entry (self w)
        ∧ contents w !! k = Some p
        ∧ (∀ k' p', contents w !! k' = Some p' →
             cmp_of (create_entry (self w)) p' p = false)
        ∧ contents w' = delete k (contents w).
Proof.
  intros Hwf Hne. pose proof Hwf as [Hw Hc].
  destruct (popitem_wf _ w Hw Hc Hne) as (l & w' & Hl & Hr & Hw' & Hc' & Hm & Hce & Hperm).
  pose proof Hw as [Hswo Hnd Hok Hs Hord].
  destruct w as [σ [c h P]]. destruct w' as [σ' [c' h' P']].
  unfold pcomplete in *. wsimpl. subst σ' c'.
  pose proof (complete_NoDup_keys _ _ _ Hc) as Hk.
  destruct (contents_remove σ c h P c h' P' l Hk Hperm) as [Hcont Hlk].
  exists (keyof σ l), (prio σ l), (W σ c h' P').
  split_and!; [by apply peek_nonempty|done|by split|done|done| |done].
  intros k' p' Hk'. apply contents_elem_of in Hk' as (l' & Hl' & _ & <-); [|done].
  apply list_elem_of_lookup in Hl' as [i Hi].
  apply (root_best (cmp_of c) (prios σ h) (prio σ l) Hswo Hord) with i.
  - apply prios_lookup. eauto.
  - apply prios_lookup. eauto.
Qed.

End view.

(** * What a user of the queue observes *)

Section observe.
Context {K : Type} `{Countable K} `{!Inhabited K}.
Implicit Types (σ : gmap loc (Entry (K:=K))) (c ck : EntryKind) (h hf : list loc)
  (P : gmap K Z) (w : world (K:=K)) (e x l : loc).

Local Abbreviation W σ c h P := (mkWorld σ (mkPQDict c h P)).

Lemma wf_priority w k : wf w → priority w k = contents w !! k.
Proof. intros [Hw Hc]. by eapply priority_contents. Qed.

Lemma wf_getitem w k :
  wf w →
  __getitem__ k w = match contents w !! k with
                    | Some p => Return p w
                    | None => Raise KeyError w
                    end.
Proof.
  intros Hwf. rewrite <-wf_priority by done. destruct Hwf as [Hw Hc].
  by eapply getitem_run.
Qed.

Lemma wf_getitem_Return w k p w' :
  wf w → __getitem__ k w = Return p w' → contents w !! k = Some p.
Proof. intros Hwf Hr. rewrite <-wf_priority by done. by eapply getitem_priority. Qed.

Lemma wf_getitem_items w k p w' :
  wf w → __getitem__ k w = Return p w' → (k, p) ∈ items (mem w) (_heap (self w)).
Proof.
  intros Hwf Hget. apply wf_getitem_Return in Hget; [|done].
  unfold contents in Hget. apply elem_of_list_to_map in Hget; [done|].
  apply wf_NoDup_keys, Hwf.
Qed.

Lemma wf_length w : wf w → length (_heap (self w)) = size (contents w).
Proof. intros [_ Hc]. by rewrite contents_size. Qed.

Lemma wf_contains w k :
  wf w →
  __contains__ k w = Return (bool_decide (is_Some (contents w !! k))) w.
Proof.
  intros [Hw Hc]. unfold __contains__, position_contains. f_equal.
  apply bool_decide_ext. symmetry. by eapply contents_index.
Qed.

Lemma size_delete_S (m : gmap K Z) k p :
  m !! k = Some p → S (size (delete k m)) = size m.
Proof.
  intros Hk. rewrite <-(insert_delete_id m k p Hk) at 2.
  rewrite map_size_insert_None; [done|]. apply lookup_delete_eq.
Qed.

(** X1. In a well-formed queue [q[dk] = pk] returns; afterwards [q[dk]]
    returns [pk], every other key reads as before, and the queue has one
    entry more if [dk] was not stored and as many as before if it was. *)
Theorem setitem_getitem w dk pk :
  wf w →
  ∃ w', __setitem__ dk pk w = Return () w'
    ∧ wf w'
    ∧ __getitem__ dk w' = Return pk w'
    ∧ (∀ k, k ≠ dk → priority w' k = priority w k)
    ∧ length (_heap (self w')) =
        if bool_decide (is_Some (_position (self w) !! dk))
        then length (_heap (self w)) else S (length (_heap (self w))).
Proof.
  intros Hwf. destruct (setitem_contents w dk pk Hwf) as (w' & Hr & Hwf' & Hce & Hcont).
  exists w'. split_and!; [done|done|..].
  - by rewrite wf_getitem, Hcont, lookup_insert_eq.
  - intros k Hk. by rewrite !wf_priority, Hcont, lookup_insert_ne.
  - rewrite !wf_length, Hcont, map_size_insert by done.
    destruct Hwf as [Hw Hc]. pose proof (contents_index _ w dk Hw Hc) as Hi.
    case_bool_decide as Hdk.
    + apply Hi in Hdk as [p ->]. done.
    + destruct (contents w !! dk) eqn:Hl; [|done]. destruct Hdk. apply Hi. eauto.
Qed.

(** X2. In a well-formed queue [del q[dk]] of a stored key returns;
    afterwards [q[dk]] raises [KeyError], [dk in q] is false, every other
    key reads as before, and the queue has one entry less. *)
Theorem delitem_removes w dk :
  wf w → is_Some (_position (self w) !! dk) →
  ∃ w', __delitem__ dk w = Return () w'
    ∧ wf w'
    ∧ __getitem__ dk w' = Raise KeyError w'
    ∧ __contains__ dk w' = Return false w'
    ∧ (∀ k, k ≠ dk → priority w' k = priority w k)
    ∧ S (length (_heap (self w'))) = length (_heap (self w)).
Proof.
  intros Hwf Hdk.
  destruct (delitem_contents w dk Hwf Hdk)
    as (p & w' & _ & Hr & _ & Hwf' & Hce & Hp & Hcont).
  exists w'. split_and!; [done|done|..].
  - by rewrite wf_getitem, Hcont, lookup_delete_eq.
  - by rewrite wf_contains, Hcont, lookup_delete_eq, bool_decide_eq_false_2
      by (try done; by intros [??]).
  - intros k Hk. by rewrite !wf_priority, Hcont, lookup_delete_ne.
  - rewrite !wf_length, Hcont by done. by eapply size_delete_S.
Qed.

(** X3. In a well-formed queue [q.pop(dk)] of a stored key returns the
    priority [q[dk]] read, with or without a default, and leaves the
    queue in the state [del q[dk]] leaves it in; of a key that is not
    stored, [q.pop(dk, d)] returns [d] and [q.pop(dk)] raises [KeyError],
    the queue being left as it was. *)
Theorem pop_returns_priority w dk default :
  wf w →
  (∀ p, __getitem__ dk w = Return p w →
     ∃ w', pop dk default w = Return p w'
       ∧ __delitem__ dk w = Return () w'
       ∧ wf w'
       ∧ priority w' dk = None
       ∧ ∀ k, k ≠ dk → priority w' k = priority w k)
  ∧ (priority w dk = None →
     pop dk default w = match default with
                        | Some d => Return d w
                        | None => Raise KeyError w
                        end).
Proof.
  intros Hwf. split.
  - intros p Hget. apply wf_getitem_Return in Hget; [|done].
    assert (is_Some (_position (self w) !! dk)) as Hdk.
    { destruct Hwf as [Hw Hc]. apply (contents_index _ w dk Hw Hc). eauto. }
    destruct (delitem_contents w dk Hwf Hdk)
      as (p' & w' & Hpop & Hr & Hpopd & Hwf' & Hce & Hp & Hcont).
    assert (p' = p) as -> by congruence.
    exists w'. split_and!; [by destruct default|done|done|..].
    + by rewrite wf_priority, Hcont, lookup_delete_eq.
    + intros k Hk. by rewrite !wf_priority, Hcont, lookup_delete_ne.
  - intros Hnone. apply pop_missing. rewrite wf_priority in Hnone by done.
    destruct Hwf as [Hw Hc]. pose proof (contents_index _ w dk Hw Hc) as Hi.
    destruct (_position (self w) !! dk) eqn:HP; [|done].
    rewrite Hnone in Hi. destruct Hi as [_ Hi]. by destruct Hi.
Qed.

(** X4. [peek] on a well-formed, non-empty queue returns a stored pair
    whose priority no stored priority beats (the least of a [minpq], the
    greatest of a [maxpq]), and leaves the queue as it was. *)
Theorem peek_best w :
  wf w → _heap (self w) ≠ [] →
  ∃ k p, peek w = Return (k, p) w
    ∧ __getitem__ k w = Return p w
    ∧ ∀ k' p', __getitem__ k' w = Return p' w →
        cmp_of (create_entry (self w)) p' p = false
        ∧ (create_entry (self w) = MinEntry → p ≤ p')
        ∧ (create_entry (self w) = MaxEntry → p' ≤ p).
Proof.
  intros Hwf Hne.
  destruct (popitem_contents w Hwf Hne) as (k & p & w' & Hpeek & _ & _ & _ & Hp & Hbest & _).
  exists k, p. split; [done|]. split; [by rewrite wf_getitem, Hp|].
  intros k' p' Hget. apply wf_getitem_Return in Hget; [|done].
  specialize (Hbest k' p' Hget). split; [done|].
  split; intros Hce; rewrite Hce in Hbest; simpl in Hbest; lia.
Qed.

(** X5. [popitem] on a well-formed, non-empty queue returns the pair
    [peek] shows and removes it: afterwards its key is not stored, every
    other key reads as before, and the queue has one entry less. *)
Theorem popitem_takes_best w :
  wf w → _heap (self w) ≠ [] →
  ∃ k p w', peek w = Return (k, p) w
    ∧ popitem w = Return (k, p) w'
    ∧ wf w'
    ∧ __getitem__ k w' = Raise KeyError w'
    ∧ (∀ k', k' ≠ k → priority w' k' = priority w k')
    ∧ S (length (_heap (self w'))) = length (_heap (self w)).
Proof.
  intros Hwf Hne.
  destruct (popitem_contents w Hwf Hne)
    as (k & p & w' & Hpeek & Hr & Hwf' & Hce & Hp & _ & Hcont).
  exists k, p, w'. split_and!; [done|done|done|..].
  - by rewrite wf_getitem, Hcont, lookup_delete_eq.
  - intros k' Hk. by rewrite !wf_priority, Hcont, lookup_delete_ne.
  - rewrite !wf_length, Hcont by done. by eapply size_delete_S.
Qed.

(** ** Construction *)

Lemma init_contents σ c args kwargs :
  strict_weak_order (cmp_of c) → (length args ≤ 1)%nat →
  NoDup (init_pairs args kwargs).*1 →
  ∃ w, __init__ args kwargs (W σ c [] ∅) = Return () w
    ∧ wf w ∧ create_entry (self w) = c
    ∧ contents w = list_to_map (init_pairs args kwargs)
    ∧ length (_heap (self w)) = length (init_pairs args kwargs)
    ∧ (∀ x, is_Some (σ !! x) → mem w !! x = σ !! x).
Proof.
  intros Hswo Hlen Hnd.
  destruct (init_spec σ c [] ∅ args kwargs Hswo Hlen)
    as (σ' & h' & P' & Hr & Hw & Hit & Hc & Hfr).
  exists (W σ' c h' P'). split; [done|].
  assert (wf (W σ' c h' P')) as Hwf by (split; [done|by apply Hc]).
  split_and!; [done|done| | |done].
  - unfold contents. wsimpl. apply list_to_map_proper; [|done]. by rewrite Hit.
  - apply Permutation_length in Hit. unfold items in Hit. by rewrite length_fmap in Hit.
Qed.

Lemma contents_list_to_map w (pairs : list (K * Z)) :
  wf w → NoDup pairs.*1 → contents w = list_to_map pairs →
  (∀ k p, __getitem__ k w = Return p w ↔ (k, p) ∈ pairs)
  ∧ (∀ k, k ∉ pairs.*1 → __getitem__ k w = Raise KeyError w).
Proof.
  intros Hwf Hnd Hcont. split.
  - intros k p. rewrite wf_getitem, Hcont by done.
    rewrite (elem_of_list_to_map (M:=gmap K)) by done.
    destruct (list_to_map pairs !! k) as [p'|]; split; congruence.
  - intros k Hk. rewrite wf_getitem, Hcont by done.
    apply (not_elem_of_list_to_map (M:=gmap K) (A:=Z)) in Hk. by rewrite Hk.
Qed.

(** X6. [PQDict(seq, **kwargs)], with or without the positional
    argument, given pairwise distinct keys returns a well-formed ascending queue in which [q[k]]
    returns [p] exactly for the pairs [(k, p)] given and raises [KeyError]
    for every other key, with as many entries as pairs; the objects that
    were in the store are left alone. *)
Theorem construction_lookup σ args kwargs :
  (length args ≤ 1)%nat →
  NoDup (init_pairs args kwargs).*1 →
  ∃ w, PQDict_call args kwargs σ = Return () w
    ∧ wf w ∧ create_entry (self w) = MinEntry
    ∧ (∀ k p, __getitem__ k w = Return p w ↔ (k, p) ∈ init_pairs args kwargs)
    ∧ (∀ k, k ∉ (init_pairs args kwargs).*1 → __getitem__ k w = Raise KeyError w)
    ∧ length (_heap (self w)) = length (init_pairs args kwargs)
    ∧ (∀ x, is_Some (σ !! x) → mem w !! x = σ !! x).
Proof.
  intros Hlen Hnd.
  destruct (init_contents σ MinEntry args kwargs swo_MinEntry Hlen Hnd)
    as (w & Hr & Hwf & Hce & Hcont & Hl & Hfr).
  destruct (contents_list_to_map w _ Hwf Hnd Hcont) as [Hget Hmiss].
  exists w. by split_and!.
Qed.

(** X7. [minpq], [maxpq] and [custompq] with a subclass of [PQDictEntry]
    are [__init__] run on a new object whose [create_entry] has been set:
    with pairwise distinct keys, [custompq(cls, seq, **kwargs)] returns a
    well-formed queue of entry class [cls] that holds exactly the pairs
    given, [minpq] is [custompq] with [_MinEntry] and [maxpq] is
    [custompq] with [_MaxEntry]. *)
Theorem custompq_lookup σ c args kwargs :
  strict_weak_order (cmp_of c) →
  (length args ≤ 1)%nat →
  NoDup (init_pairs args kwargs).*1 →
  (∃ w, custompq (EntryClass c) args kwargs σ = Return () w
     ∧ wf w ∧ create_entry (self w) = c
     ∧ (∀ k p, __getitem__ k w = Return p w ↔ (k, p) ∈ init_pairs args kwargs)
     ∧ length (_heap (self w)) = length (init_pairs args kwargs))
  ∧ minpq args kwargs σ = custompq (EntryClass MinEntry) args kwargs σ
  ∧ maxpq args kwargs σ = custompq (EntryClass MaxEntry) args kwargs σ.
Proof.
  intros Hswo Hlen Hnd. split; [|done].
  destruct (init_contents σ c args kwargs Hswo Hlen Hnd)
    as (w & Hr & Hwf & Hce & Hcont & Hl & Hfr).
  destruct (contents_list_to_map w _ Hwf Hnd Hcont) as [Hget Hmiss].
  exists w. rewrite custompq_run. by split_and!.
Qed.

(** X8. [fromfunction(iterable, pkeygen)] over pairwise distinct keys
    returns a well-formed ascending queue in which [q[k]] returns
    [pkeygen(k)] for every key of the iterable and raises [KeyError] for
    every other key. *)
Theorem fromfunction_lookup σ (iterable : list K) (pkeygen : K → Z) :
  NoDup iterable →
  ∃ w, fromfunction iterable pkeygen σ = Return () w
    ∧ wf w ∧ create_entry (self w) = MinEntry
    ∧ (∀ k, k ∈ iterable → __getitem__ k w = Return (pkeygen k) w)
    ∧ (∀ k, k ∉ iterable → __getitem__ k w = Raise KeyError w)
    ∧ length (_heap (self w)) = length iterable.
Proof.
  intros Hnd. unfold fromfunction.
  set (pairs := (λ dk, (dk, pkeygen dk)) <$> iterable).
  assert (pairs.*1 = iterable) as Hkeys.
  { unfold pairs. rewrite <-list_fmap_compose. apply list_fmap_id. }
  assert (init_pairs [pairs] [] = pairs) as Hip.
  { unfold init_pairs. by rewrite app_nil_r. }
  destruct (init_contents σ MinEntry [pairs] [] swo_MinEntry)
    as (w & Hr & Hwf & Hce & Hcont & Hl & Hfr); [simpl; lia|by rewrite Hip, Hkeys|].
  rewrite Hip in Hcont, Hl.
  destruct (contents_list_to_map w pairs Hwf) as [Hget Hmiss];
    [by rewrite Hkeys|done|].
  exists w. split_and!; [done|done|done| | |].
  - intros k Hk. apply Hget. unfold pairs. apply list_elem_of_fmap. eauto.
  - intros k Hk. apply Hmiss. by rewrite Hkeys.
  - rewrite Hl. unfold pairs. by rewrite length_fmap.
Qed.

(** X9. Every constructor raises [TypeError] when it is given more than
    one positional argument, and [custompq] raises [TypeError], whatever
    its other arguments, when the class it is given is not a subclass of
    [PQDictEntry]; no entry object is created. *)
Theorem constructors_raise_TypeError σ c args kwargs :
  ((length args > 1)%nat →
     PQDict_call args kwargs σ = Raise TypeError (W σ MinEntry [] ∅)
     ∧ minpq args kwargs σ = Raise TypeError (W σ MinEntry [] ∅)
     ∧ maxpq args kwargs σ = Raise TypeError (W σ MaxEntry [] ∅)
     ∧ custompq (EntryClass c) args kwargs σ = Raise TypeError (W σ c [] ∅))
  ∧ custompq OtherClass args kwargs σ = Raise TypeError (W σ MinEntry [] ∅).
Proof.
  split; [|done]. intros Hlen.
  assert (∀ w, __init__ args kwargs w = Raise TypeError w) as Hinit.
  { intros w. unfold __init__. rewrite bool_decide_eq_true_2 by lia. done. }
  unfold PQDict_call. rewrite minpq_run, maxpq_run, custompq_run, !Hinit. done.
Qed.

(** ** Iteration *)

Lemma iter_loop_run h : ∀ w, iter_loop h w = Return (keyof (mem w) <$> h) w.
Proof.
  induction h as [|l h IH]; intros w; [done|].
  simpl. rewrite bind_run. unfold entry_dkey at 1. rewrite bind_run, IH. done.
Qed.

(** X10. Iterating over a well-formed queue yields the key of every
    entry of the heap list, in list order: every stored key exactly once,
    the key [peek] shows first, and the queue is left as it was. *)
Theorem iter_yields_every_key_once w :
  wf w →
  ∃ ks, __iter__ w = Return ks w
    ∧ NoDup ks
    ∧ length ks = length (_heap (self w))
    ∧ (∀ k, k ∈ ks ↔ ∃ p, __getitem__ k w = Return p w)
    ∧ (∀ k p, peek w = Return (k, p) w → head ks = Some k).
Proof.
  intros Hwf. pose proof Hwf as [Hw Hc].
  exists (keyof (mem w) <$> _heap (self w)).
  pose proof (complete_NoDup_keys _ _ _ Hc) as Hk.
  split; [apply iter_loop_run|]. split; [done|]. split; [by rewrite length_fmap|].
  split.
  - intros k. setoid_rewrite (wf_getitem w k Hwf).
    destruct w as [σ [c h P]]. wsimpl. split.
    + intros (l & -> & Hl)%list_elem_of_fmap. exists (prio σ l).
      by rewrite (contents_slot σ c h P l Hk Hl).
    + intros [p Hp]. destruct (contents (W σ c h P) !! k) as [p'|] eqn:Hl; [|done].
      apply contents_elem_of in Hl as (l & Hl & <- & _); [|done].
      apply list_elem_of_fmap. eauto.
  - intros k p. destruct w as [σ [c h P]]. wsimpl. destruct h as [|l h].
    + by rewrite peek_empty.
    + rewrite (peek_nonempty σ c (l :: h) P l) by done. by intros [= <- _].
Qed.

Lemma iterkeys_loop_run fuel : ∀ w,
  iterkeys_loop fuel w = match iteritems_loop fuel w with
                         | Return its w' => Return its.*1 w'
                         | Raise e w' => Raise e w'
                         | Hang => Hang
                         end.
Proof.
  induction fuel as [|fuel IH]; intros w; [done|].
  simpl. unfold try_except_else. destruct (popitem w) as [item w1|e w1|]; [|by case_decide|done].
  rewrite !bind_run, IH. by destruct (iteritems_loop fuel w1).
Qed.

Lemma itervalues_loop_run fuel : ∀ w,
  itervalues_loop fuel w = match iteritems_loop fuel w with
                           | Return its w' => Return its.*2 w'
                           | Raise e w' => Raise e w'
                           | Hang => Hang
                           end.
Proof.
  induction fuel as [|fuel IH]; intros w; [done|].
  simpl. unfold try_except_else. destruct (popitem w) as [item w1|e w1|]; [|by case_decide|done].
  rewrite !bind_run, IH. by destruct (iteritems_loop fuel w1).
Qed.

(** X11. [iteritems] run to exhaustion on a well-formed queue returns
    every stored pair exactly once, best priority first (priorities never
    decrease for an ascending queue and never increase for a descending
    one), and leaves the queue empty. *)
Theorem iteritems_sorted w :
  wf w →
  ∃ its w', iteritems w = Return its w'
    ∧ (∀ k p, (k, p) ∈ its ↔ __getitem__ k w = Return p w)
    ∧ NoDup its.*1
    ∧ StronglySorted (pops_before (create_entry (self w))) its
    ∧ (create_entry (self w) = MinEntry → Sorted Z.le its.*2)
    ∧ (create_entry (self w) = MaxEntry → Sorted Z.ge its.*2)
    ∧ _heap (self w') = [] ∧ _position (self w') = ∅.
Proof.
  intros Hwf. pose proof Hwf as [Hw Hc].
  destruct (popitems_all w Hwf) as (its & w' & _ & Hr & _ & Hh & HP & Hperm & Hs).
  pose proof (wf_NoDup_keys w Hc) as Hk.
  exists its, w'. split_and!; [done| |by rewrite Hperm|done| | |done|done].
  - intros k p. rewrite wf_getitem by done. unfold contents. rewrite Hperm.
    rewrite (elem_of_list_to_map (M:=gmap K)) by done.
    destruct (list_to_map _ !! k) as [p'|]; split; congruence.
  - intros Hce. rewrite Hce in Hs. by apply sorted_ascending.
  - intros Hce. rewrite Hce in Hs. by apply sorted_descending.
Qed.

(** X12. [iterkeys] and [itervalues] run to exhaustion on a well-formed
    queue return the keys, resp. the priorities, of the pairs [iteritems]
    returns, in the same order, and leave the queue in the same empty
    state: every stored key once, and the priorities sorted. *)
Theorem iterkeys_itervalues w :
  wf w →
  ∃ its w', iteritems w = Return its w'
    ∧ iterkeys w = Return its.*1 w'
    ∧ itervalues w = Return its.*2 w'
    ∧ NoDup its.*1
    ∧ (∀ k, k ∈ its.*1 ↔ ∃ p, __getitem__ k w = Return p w)
    ∧ (create_entry (self w) = MinEntry → Sorted Z.le its.*2)
    ∧ (create_entry (self w) = MaxEntry → Sorted Z.ge its.*2)
    ∧ _heap (self w') = [].
Proof.
  intros Hwf. pose proof Hwf as [Hw Hc].
  destruct (popitems_all w Hwf) as (its & w' & _ & Hr & _ & Hh & HP & Hperm & Hs).
  pose proof (wf_NoDup_keys w Hc) as Hk.
  exists its, w'. split; [done|].
  unfold iterkeys, itervalues. rewrite iterkeys_loop_run, itervalues_loop_run.
  unfold iteritems in Hr. rewrite Hr.
  split_and!; [done|done|by rewrite Hperm| | |  |done].
  - intros k. setoid_rewrite (wf_getitem w k Hwf). unfold contents. rewrite Hperm.
    split.
    + intros Hin. destruct (list_to_map _ !! k) as [p'|] eqn:Hl; [eauto|].
      by apply (not_elem_of_list_to_map (M:=gmap K)) in Hl.
    + intros [p Hp]. destruct (list_to_map _ !! k) as [p'|] eqn:Hl; [|done].
      apply (elem_of_list_to_map (M:=gmap K)) in Hl; [|done].
      apply list_elem_of_fmap. by exists (k, p').
  - intros Hce. rewrite Hce in Hs. by apply sorted_ascending.
  - intros Hce. rewrite Hce in Hs. by apply sorted_descending.
Qed.

(** ** The heap primitives *)

(** X13. [_heapify] on a heap list of distinct entries in any order,
    with an index that points every key at a slot holding it, returns
    and leaves the same entries rearranged so that the heap property
    holds, the index still pointing every key at a slot holding it. *)
Theorem heapify_establishes_heap_property σ c h P :
  strict_weak_order (cmp_of c) →
  NoDup h → entries_ok σ c h → pos_sound σ h P →
  ∃ h' P',
    _heapify (W σ c h P) = Return () (W σ c h' P')
    ∧ h' ≡ₚ h
    ∧ pos_sound σ h' P'
    ∧ (pos_complete σ h P → pos_complete σ h' P')
    ∧ heap_property (W σ c h' P').
Proof.
  intros Hswo Hnd Hok Hs.
  destruct (heapify_spec σ c c h P Hswo Hnd Hok Hs)
    as (h' & P' & Hr & Hperm & Hs' & Hc' & Hord).
  exists h', P'. split_and!; [done..|].
  apply wfk_heap_property. split; wsimpl; [done|by rewrite Hperm| |done|done].
  by eapply entries_ok_perm.
Qed.

(** X14. [_sink(top)] on a heap list in which every edge whose parent
    slot lies after [top] is in heap order returns and leaves the same
    entries rearranged so that every edge whose parent slot is [top] or
    later is in heap order; the slots before [top] are not touched. *)
Theorem sink_restores_order σ c h P top :
  strict_weak_order (cmp_of c) →
  NoDup h → entries_ok σ c h → pos_sound σ h P →
  0 ≤ top < Z.of_nat (length h) →
  ordered_from (cmp_of c) (top + 1) (prios σ h) →
  ∃ h' P',
    _sink top (W σ c h P) = Return () (W σ c h' P')
    ∧ h' ≡ₚ h
    ∧ pos_sound σ h' P'
    ∧ (pos_complete σ h P → pos_complete σ h' P')
    ∧ (∀ i : nat, Z.of_nat i < top → h' !! i = h !! i)
    ∧ ordered_from (cmp_of c) top (prios σ h').
Proof.
  intros Hswo Hnd Hok Hs Htop Hord.
  destruct (sink_spec (λ _, False) σ c c h P top top)
    as (h' & P' & Hr & Hperm & Hs' & Hc' & Hfr & _ & Hord');
    [done|lia|lia|done|].
  exists h', P'. split_and!; [done..|].
  apply Hord'; [done|done|by apply ordered_down_hole_top; [lia|]|].
  intros Hm0 Hlo. pose proof (parent_lt _ Hm0). lia.
Qed.

Lemma heap_ordered_prios_app σ c h h2 :
  heap_ordered (cmp_of c) (prios σ (h ++ h2)) → heap_ordered (cmp_of c) (prios σ h).
Proof. unfold prios. rewrite fmap_app. apply ordered_app_l. Qed.

(** X15. [_swim(n)] on a heap list whose first [n] entries are in heap
    order and whose last slot [n] holds one more entry returns and leaves
    the same entries rearranged so that the heap property holds. *)
Theorem swim_restores_order σ c h P l :
  strict_weak_order (cmp_of c) →
  NoDup (h ++ [l]) → entries_ok σ c (h ++ [l]) → pos_sound σ (h ++ [l]) P →
  heap_ordered (cmp_of c) (prios σ h) →
  ∃ h' P',
    _swim (Z.of_nat (length h)) 0 (W σ c (h ++ [l]) P) = Return () (W σ c h' P')
    ∧ h' ≡ₚ h ++ [l]
    ∧ pos_sound σ h' P'
    ∧ (pos_complete σ (h ++ [l]) P → pos_complete σ h' P')
    ∧ heap_property (W σ c h' P').
Proof.
  intros Hswo Hnd Hok Hs Hord.
  destruct (swim_spec (λ _, False) σ c c (h ++ [l]) P (Z.of_nat (length h)) 0 0)
    as (h' & P' & Hr & Hperm & Hs' & Hc' & _ & _ & Hord').
  - done.
  - lia.
  - apply anc_root. lia.
  - rewrite length_app. simpl. lia.
  - done.
  - exists h', P'. split_and!; [done..|].
    apply wfk_heap_property. split; wsimpl; [done|by rewrite Hperm| |done|].
    + by eapply entries_ok_perm.
    + apply Hord'; [done|done| |lia].
      unfold prios. rewrite fmap_app. simpl.
      replace (Z.of_nat (length h)) with (Z.of_nat (length (prio σ <$> h)))
        by (by rewrite length_fmap).
      by apply ordered_app_up_hole.
Qed.

(** ** Safety, and how the methods compose *)

Lemma setitem_returns w dk pk :
  wfw w → ∃ w', __setitem__ dk pk w = Return () w'.
Proof.
  intros Hw. pose proof Hw as [Hswo Hnd Hok Hs Hord].
  destruct w as [σ [c h P]]. wsimpl.
  destruct (P !! dk) as [pos|] eqn:HP.
  - destruct (setitem_upd_spec σ c c h P dk pk pos)
      as (l & h' & P' & _ & _ & Hr & _); [done..|]. eauto.
  - destruct (setitem_new_spec σ c h P dk pk)
      as (h' & P' & Hr & _); [done|by eapply entries_ok_allocated|done|done|]. eauto.
Qed.

(** X16. In every state public operations reach, also after a
    construction with repeated keys, each of [q[dk]], [q[dk] = pk],
    [additem], [updateitem], [del q[dk]], [pop], [popitem] and [peek]
    returns or raises [KeyError]: none runs forever, and no [IndexError]
    of the heap list escapes; [q[dk] = pk] always returns. *)
Theorem only_KeyError_escapes w dk pk default :
  reachable w →
  returns_or_KeyError (__getitem__ dk w)
  ∧ (∃ w', __setitem__ dk pk w = Return () w')
  ∧ returns_or_KeyError (additem dk pk w)
  ∧ returns_or_KeyError (updateitem dk pk w)
  ∧ returns_or_KeyError (__delitem__ dk w)
  ∧ returns_or_KeyError (pop dk default w)
  ∧ returns_or_KeyError (popitem w)
  ∧ returns_or_KeyError (peek w).
Proof.
  intros Hw%reachable_wfw.
  destruct (setitem_returns w dk pk Hw) as [w' Hset].
  pose proof Hw as [Hswo Hnd Hok Hs Hord].
  split_and!.
  - rewrite (getitem_run _ w dk Hw). by destruct (priority w dk).
  - eauto.
  - unfold additem. rewrite bind_run. unfold position_contains at 1.
    case_bool_decide; [done|]. by rewrite Hset.
  - unfold updateitem. rewrite bind_run. unfold position_contains at 1.
    case_bool_decide; [|done]. simpl. by rewrite Hset.
  - destruct w as [σ [c h P]]. wsimpl. destruct (P !! dk) as [pos|] eqn:HP.
    + destruct (delitem_spec σ c c h P dk pos)
        as (l & h' & P' & _ & _ & Hr & _); [done..|]. by rewrite Hr.
    + by rewrite delitem_missing.
  - destruct w as [σ [c h P]]. wsimpl. destruct (P !! dk) as [pos|] eqn:HP.
    + destruct (pop_spec σ c c h P dk pos default)
        as (l & h' & P' & _ & _ & Hr & _); [done..|]. by rewrite Hr.
    + rewrite pop_missing by done. by destruct default.
  - destruct w as [σ [c h P]]. wsimpl. destruct (decide (h = [])) as [->|Hne].
    + by rewrite popitem_empty.
    + destruct (popitem_spec σ c c h P) as (l & h' & P3 & _ & Hr & _); [done..|].
      rewrite Hr. by destruct (P3 !! keyof σ l).
  - destruct w as [σ [c h P]]. wsimpl. destruct h as [|l h].
    + by rewrite peek_empty.
    + by rewrite (peek_nonempty σ c (l :: h) P l).
Qed.

(** X17. Every method that changes the queue takes a well-formed queue
    to a well-formed queue, whether it returns or raises: the index and
    the heap list stay in bijection, with the same size. *)
Theorem mutation_keeps_bijection w w' :
  wf w → mutation w w' → wf w' ∧ index_bijection w'.
Proof.
  intros Hwf Hm. assert (wf w') as Hwf'; [|split; [done|by apply wf_index_bijection]].
  pose proof Hwf as [Hw Hc].
  destruct Hm as (dk & pk & default & [Hf|[Hf|[Hf|[Hf|[Hf|Hf]]]]]).
  - eapply kept_wf; [done|]. eapply ends_in_final; [|done]. by apply setitem_kept.
  - eapply kept_wf; [done|]. eapply ends_in_final; [|done]. by apply additem_kept.
  - eapply kept_wf; [done|]. eapply ends_in_final; [|done]. by apply updateitem_kept.
  - eapply kept_wf; [done|]. eapply ends_in_final; [|done]. by apply delitem_kept.
  - eapply kept_wf; [done|]. eapply ends_in_final; [|done]. by apply pop_kept.
  - eapply kept_wf; [done|]. eapply ends_in_final; [|done]. by apply popitem_kept.
Qed.

(** X18. In a well-formed queue, [additem(dk, pk)] of a key that is not
    stored followed by [pop(dk)] returns [pk] and leaves a well-formed
    queue in which every key reads as it did before the two calls. *)
Theorem additem_pop_roundtrip w dk pk default :
  wf w → _position (self w) !! dk = None →
  ∃ w1 w2, additem dk pk w = Return () w1
    ∧ pop dk default w1 = Return pk w2
    ∧ wf w2
    ∧ (∀ k, priority w2 k = priority w k)
    ∧ length (_heap (self w2)) = length (_heap (self w)).
Proof.
  intros Hwf HP.
  destruct (setitem_contents w dk pk Hwf) as (w1 & Hr1 & Hwf1 & Hce1 & Hcont1).
  assert (is_Some (_position (self w1) !! dk)) as Hdk.
  { destruct Hwf1 as [Hw1 Hc1]. apply (contents_index _ w1 dk Hw1 Hc1).
    rewrite Hcont1, lookup_insert_eq. eauto. }
  destruct (delitem_contents w1 dk Hwf1 Hdk)
    as (p & w2 & Hpop & _ & Hpopd & Hwf2 & Hce2 & Hp & Hcont2).
  rewrite Hcont1, lookup_insert_eq in Hp. injection Hp as <-.
  assert (contents w !! dk = None) as Hnone.
  { destruct Hwf as [Hw Hc]. pose proof (contents_index _ w dk Hw Hc) as Hi.
    rewrite HP in Hi. destruct (contents w !! dk); [|done].
    destruct Hi as [Hi _]. by destruct Hi. }
  assert (contents w2 = contents w) as Hcont.
  { rewrite Hcont2, Hcont1. by apply delete_insert_id. }
  exists w1, w2. split_and!.
  - unfold additem. rewrite bind_run. unfold position_contains at 1.
    rewrite HP, bool_decide_eq_false_2 by (by intros [??]). done.
  - by destruct default.
  - done.
  - intros k. by rewrite !wf_priority, Hcont.
  - by rewrite !wf_length, Hcont.
Qed.

(** X19. In a well-formed queue, after [q[dk] = pk] with a priority
    that beats the priority of every other stored key, [peek] returns
    [(dk, pk)]. *)
Theorem setitem_best_peek w dk pk :
  wf w →
  (∀ k p, k ≠ dk → __getitem__ k w = Return p w →
     cmp_of (create_entry (self w)) pk p = true) →
  ∃ w', __setitem__ dk pk w = Return () w' ∧ peek w' = Return (dk, pk) w'.
Proof.
  intros Hwf Hbeats.
  destruct (setitem_contents w dk pk Hwf) as (w' & Hr & Hwf' & Hce & Hcont).
  exists w'. split; [done|].
  assert (_heap (self w') ≠ []) as Hne.
  { intros Hnil. pose proof (wf_length w' Hwf') as Hl. rewrite Hnil, Hcont in Hl.
    simpl in Hl. symmetry in Hl. apply map_size_empty_inv in Hl.
    by apply insert_non_empty in Hl. }
  destruct (popitem_contents w' Hwf' Hne)
    as (k & p & w2 & Hpeek & _ & _ & _ & Hp & Hbest & _).
  rewrite Hpeek. rewrite Hce, Hcont in Hbest.
  specialize (Hbest dk pk (lookup_insert_eq _ _ _)).
  destruct (decide (k = dk)) as [->|Hk].
  - rewrite Hcont, lookup_insert_eq in Hp. by injection Hp as <-.
  - rewrite Hcont, lookup_insert_ne in Hp by done.
    rewrite (Hbeats k p Hk) in Hbest; [done|]. by rewrite wf_getitem, Hp.
Qed.

(** X20. In a well-formed queue [len(q)] is the number of keys of the
    index, [dk in q] is true exactly when [q[dk]] returns, and [len(q)]
    is 0 exactly when [peek] raises [KeyError]. *)
Theorem len_contains_agree w :
  wf w →
  __len__ w = Return (Z.of_nat (size (_position (self w)))) w
  ∧ (∀ dk, __contains__ dk w = Return true w ↔ ∃ p, __getitem__ dk w = Return p w)
  ∧ (__len__ w = Return 0 w ↔ peek w = Raise KeyError w).
Proof.
  intros Hwf. pose proof Hwf as [Hw Hc]. pose proof Hw as [Hswo Hnd Hok Hs Hord].
  split_and!.
  - unfold __len__, heap_len. by rewrite (size_index (mem w) (_heap (self w))).
  - intros dk. rewrite wf_contains, wf_getitem by done.
    destruct (contents w !! dk) as [p|]; split.
    + eauto.
    + intros _. by rewrite bool_decide_eq_true_2 by eauto.
    + rewrite bool_decide_eq_false_2 by (by intros [??]). by intros [=].
    + by intros [??].
  - destruct w as [σ [c h P]]. unfold __len__, heap_len. wsimpl. destruct h as [|l h].
    + by rewrite peek_empty.
    + rewrite (peek_nonempty σ c (l :: h) P l) by done. split; [|done].
      intros [= Hl]; simpl in Hl; lia.
Qed.



(** X22. [PQDict(seq, **kwargs)] with at most one positional argument
    returns whatever the pairs are, with one heap entry per pair given
    and the heap property; [q[k]] only ever returns a priority given for
    [k]; and the index and the heap list are in bijection exactly when
    the keys given are pairwise distinct. *)
Theorem construction_bijection_iff_distinct σ args kwargs :
  (length args ≤ 1)%nat →
  ∃ w, PQDict_call args kwargs σ = Return () w
    ∧ heap_property w
    ∧ length (_heap (self w)) = length (init_pairs args kwargs)
    ∧ (∀ k p, __getitem__ k w = Return p w → (k, p) ∈ init_pairs args kwargs)
    ∧ (index_bijection w ↔ NoDup (init_pairs args kwargs).*1).
Proof.
  intros Hlen.
  destruct (init_spec σ MinEntry [] ∅ args kwargs swo_MinEntry Hlen)
    as (σ' & h' & P' & Hr & Hw & Hit & Hc & _).
  exists (W σ' MinEntry h' P'). split; [done|].
  split; [by apply wfk_heap_property|]. split_and!.
  - wsimpl. apply Permutation_length in Hit. unfold items in Hit.
    by rewrite length_fmap in Hit.
  - intros k p Hget. rewrite <-Hit. apply items_elem_of.
    pose proof Hw as [_ _ _ Hs _]. wsimpl.
    destruct (P' !! k) as [pos|] eqn:HP.
    + destruct (getitem_present σ' MinEntry h' P' k pos Hs HP) as (l & Hl & Hkl & Hr').
      rewrite Hr' in Hget. injection Hget as <-.
      exists l. split; [by eapply list_elem_of_lookup_2|done].
    + by rewrite getitem_missing in Hget.
  - split.
    + intros Hb%index_bijection_NoDup_keys. wsimpl. by rewrite <-Hit.
    + intros Hnd. apply wf_index_bijection. split; [done|by apply Hc].
Qed.

End observe.

(** * Scenarios with string keys *)

Lemma example_queue_run :
  PQDict_call [example_pairs] [] ∅ = Return () example_queue.
Proof. by vm_compute. Qed.

Lemma example_max_queue_run :
  maxpq [example_pairs] [] ∅ = Return () example_max_queue.
Proof. by vm_compute. Qed.

Lemma example_pairs_NoDup : NoDup example_pairs.*1.
Proof. apply (bool_decide_unpack _). by vm_compute. Qed.

Lemma example_queue_wf : wf example_queue.
Proof.
  destruct (PQDict_call_spec ∅ example_pairs example_pairs_NoDup) as (w & Hr & Hw & _).
  unfold example_queue. rewrite Hr. exact Hw.
Qed.

Lemma example_max_queue_wf : wf example_max_queue.
Proof.
  destruct (maxpq_spec ∅ example_pairs example_pairs_NoDup) as (w & Hr & Hw & _).
  unfold example_max_queue. rewrite Hr. exact Hw.
Qed.

(** C2. [PQDict([(a, 1), (a, 2)])] returns a queue whose heap list has two
    slots and whose index has one key: the index and the heap list are not
    in bijection. *)
Theorem duplicate_key_construction :
  ∃ w : world (K:=string),
    PQDict_call [[("a", 1); ("a", 2)]] [] ∅ = Return () w
    ∧ length (_heap (self w)) = 2%nat
    ∧ size (_position (self w)) = 1%nat
    ∧ ¬ index_bijection w.
Proof.
  eexists. split; [by vm_compute|]. split; [by vm_compute|]. split; [by vm_compute|].
  intros [_ Hsize]. vm_compute in Hsize. discriminate.
Qed.

(** The scenarios of the specification, read in any order the mapping
    may yield its items. *)
Lemma pops_before_min_antisym a b :
  cmp_of MinEntry a b = false → cmp_of MinEntry b a = false → a = b.
Proof. simpl. lia. Qed.

Lemma pops_before_max_antisym a b :
  cmp_of MaxEntry a b = false → cmp_of MaxEntry b a = false → a = b.
Proof. simpl. lia. Qed.


(** C9. [sort_by_value] of a mapping, whatever the order in which the
    mapping yields its items, returns those items with values never
    decreasing, and never increasing when [reverse] is set; for
    {x:2, y:1, z:3} it returns [(y,1), (x,2), (z,3)], and with [reverse]
    [(z,3), (x,2), (y,1)]. *)
Theorem sort_by_value_sorts :
  (∀ (K : Type) `{Countable K} `{!Inhabited K} (m : gmap K Z)
     (pairs : list (K * Z)) (reverse : bool) (σ : gmap loc (Entry (K:=K))),
     pairs ≡ₚ map_to_list m →
     ∃ its w',
       sort_by_value pairs reverse σ = Return its w'
       ∧ its ≡ₚ map_to_list m
       ∧ (reverse = false → Sorted Z.le its.*2)
       ∧ (reverse = true → Sorted Z.ge its.*2))
  ∧ (∀ (σ : gmap loc (Entry (K:=string))) pairs,
       pairs ≡ₚ [("x", 2); ("y", 1); ("z", 3)] →
       (∃ w', sort_by_value pairs false σ
                = Return [("y", 1); ("x", 2); ("z", 3)] w')
       ∧ (∃ w', sort_by_value pairs true σ
                  = Return [("z", 3); ("x", 2); ("y", 1)] w')).
Proof.
  split.
  - intros K ??? m pairs reverse σ Hpairs.
    assert (NoDup pairs.*1) as Hnd.
    { rewrite Hpairs. apply NoDup_fst_map_to_list. }
    destruct (sort_by_value_spec σ pairs reverse Hnd) as (its & w' & Hr & Hperm & Hs).
    exists its, w'. split_and!; [done|by rewrite Hperm|..].
    + intros ->. by apply sorted_ascending.
    + intros ->. by apply sorted_descending.
  - intros σ pairs Hpairs.
    assert (NoDup pairs.*1) as Hnd.
    { rewrite Hpairs. apply (bool_decide_unpack _). by vm_compute. }
    split.
    + destruct (sort_by_value_spec σ pairs false Hnd) as (its & w' & Hr & Hperm & Hs).
      exists w'. rewrite Hr. f_equal.
      apply (sorted_perm_unique MinEntry); [apply pops_before_min_antisym| | |done|].
      * apply (bool_decide_unpack _). by vm_compute.
      * rewrite Hperm, Hpairs. apply (bool_decide_unpack _). by vm_compute.
      * unfold pops_before. repeat constructor; simpl; lia.
    + destruct (sort_by_value_spec σ pairs true Hnd) as (its & w' & Hr & Hperm & Hs).
      exists w'. rewrite Hr. f_equal.
      apply (sorted_perm_unique MaxEntry); [apply pops_before_max_antisym| | |done|].
      * apply (bool_decide_unpack _). by vm_compute.
      * rewrite Hperm, Hpairs. apply (bool_decide_unpack _). by vm_compute.
      * unfold pops_before. repeat constructor; simpl; lia.
Qed.

(** * The theorems at the scenarios *)

Lemma heap_invariant_witness :
  reachable example_after_delete ∧ heap_property example_after_delete.
Proof.
  assert (reachable example_after_delete) as Hr.
  { apply (reach_delitem example_after_update "b"); [|by vm_compute].
    apply (reach_setitem example_queue "a" 0); [|by vm_compute].
    apply (reach_PQDict ∅ [example_pairs] []). by vm_compute. }
  split; [exact Hr|]. exact (heap_invariant example_after_delete Hr).
Defined.



Lemma error_taxonomy_witness :
  wf example_queue
  ∧ raises_iff (__getitem__ "e") KeyError
      (_position (self example_queue) !! "e" = None) example_queue
  ∧ raises_iff (additem "a" 7) KeyError
      (is_Some (_position (self example_queue) !! "a")) example_queue
  ∧ raises_iff popitem KeyError (_heap (self example_queue) = []) example_queue.
Proof.
  split; [exact example_queue_wf|].
  pose proof (error_taxonomy example_queue "e" 7 example_queue_wf) as He.
  pose proof (error_taxonomy example_queue "a" 7 example_queue_wf) as Ha.
  split; [apply He|]. split; [apply Ha|apply He].
Defined.



Lemma insert_delete_inverse_witness :
  _position (self example_queue) !! "e" = None
  ∧ ∃ w1 w2,
      __setitem__ "e" 4 example_queue = Return () w1
      ∧ __delitem__ "e" w1 = Return () w2
      ∧ length (_heap (self w2)) = length (_heap (self example_queue))
      ∧ size (_position (self w2)) = size (_position (self example_queue))
      ∧ dom (_position (self w2)) = dom (_position (self example_queue))
      ∧ wf w2.
Proof.
  assert (_position (self example_queue) !! "e" = None) as Hk by (by vm_compute).
  split; [exact Hk|].
  exact (insert_delete_inverse example_queue "e" 4 example_queue_wf Hk).
Defined.

Lemma world_eta {K} `{Countable K} (w : world (K:=K)) :
  mkWorld (mem w) (self w) = w.
Proof. by destruct w. Qed.

Lemma example_max_queue_wf' :
  wf (mkWorld (mem example_max_queue) (self example_max_queue)).
Proof. rewrite world_eta. exact example_max_queue_wf. Qed.

Lemma copy_independence_witness :
  wf (mkWorld (mem example_max_queue) (self example_max_queue))
  ∧ ∃ cp σ1,
      __copy__ (mkWorld (mem example_max_queue) (self example_max_queue))
        = Return cp (mkWorld σ1 (self example_max_queue))
      ∧ (∀ x, x ∈ _heap cp → x ∉ _heap (self example_max_queue))
      ∧ (∀ k, lookup_priority σ1 cp k
              = lookup_priority (mem example_max_queue) (self example_max_queue) k)
      ∧ (∀ k, lookup_priority σ1 (self example_max_queue) k
              = lookup_priority (mem example_max_queue) (self example_max_queue) k)
      ∧ independent σ1 (self example_max_queue) cp
      ∧ independent σ1 cp (self example_max_queue)
      ∧ ∀ σ' a b (dk : string) pk,
          independent σ' a b → is_Some (_position a !! dk) →
          ∃ σ'' a',
            __setitem__ dk pk (mkWorld σ' a) = Return () (mkWorld σ'' a')
            ∧ updateitem dk pk (mkWorld σ' a) = Return () (mkWorld σ'' a')
            ∧ lookup_priority σ'' a' dk = Some pk
            ∧ (∀ k, lookup_priority σ'' b k = lookup_priority σ' b k)
            ∧ independent σ'' a' b ∧ independent σ'' b a'.
Proof.
  split; [exact example_max_queue_wf'|].
  exact (copy_independence (mem example_max_queue) (self example_max_queue)
           example_max_queue_wf').
Defined.

Lemma sort_by_value_sorts_witness :
  (∃ its w',
     sort_by_value (map_to_list (list_to_map example_pairs : gmap string Z)) true ∅
       = Return its w'
     ∧ its ≡ₚ map_to_list (list_to_map example_pairs : gmap string Z)
     ∧ (true = false → Sorted Z.le its.*2)
     ∧ (true = true → Sorted Z.ge its.*2))
  ∧ (∃ w', sort_by_value [("x", 2); ("y", 1); ("z", 3)] false ∅
             = Return [("y", 1); ("x", 2); ("z", 3)] w')
  ∧ (∃ w', sort_by_value [("x", 2); ("y", 1); ("z", 3)] true ∅
             = Return [("z", 3); ("x", 2); ("y", 1)] w').
Proof.
  split.
  - apply (proj1 sort_by_value_sorts string _ _ _ (list_to_map example_pairs)).
    reflexivity.
  - apply (proj2 sort_by_value_sorts ∅ [("x", 2); ("y", 1); ("z", 3)]). reflexivity.
Defined.

Lemma copy_resets_entry_class_witness :
  wf (mkWorld (mem example_max_queue) (self example_max_queue))
  ∧ ∃ cp σ1,
      __copy__ (mkWorld (mem example_max_queue) (self example_max_queue))
        = Return cp (mkWorld σ1 (self example_max_queue))
      ∧ create_entry cp = MinEntry
      ∧ _position cp = _position (self example_max_queue)
      ∧ length (_heap cp) = length (_heap (self example_max_queue))
      ∧ (∀ x, x ∈ _heap cp → x ∉ _heap (self example_max_queue))
      ∧ (∀ (i : nat) x x',
           _heap (self example_max_queue) !! i = Some x → _heap cp !! i = Some x' →
           σ1 !!! x' = mem example_max_queue !!! x
           ∧ kind (σ1 !!! x') = create_entry (self example_max_queue))
      ∧ (∀ (i j : nat) x y x' y',
           _heap (self example_max_queue) !! i = Some x →
           _heap (self example_max_queue) !! j = Some y →
           _heap cp !! i = Some x' → _heap cp !! j = Some y' →
           entry_lt (σ1 !!! x') (σ1 !!! y')
             = entry_lt (mem example_max_queue !!! x) (mem example_max_queue !!! y)
           ∧ entry_lt (σ1 !!! x') (σ1 !!! y')
             = cmp_of (create_entry (self example_max_queue))
                 (pkey (mem example_max_queue !!! x))
                 (pkey (mem example_max_queue !!! y)))
      ∧ ∀ dk pk, _position cp !! dk = None →
          ∃ w2 l (i : nat),
            __setitem__ dk pk (mkWorld σ1 cp) = Return () w2
            ∧ create_entry (self w2) = MinEntry
            ∧ _position (self w2) !! dk = Some (Z.of_nat i)
            ∧ _heap (self w2) !! i = Some l
            ∧ mem w2 !!! l = PQDictEntry MinEntry dk pk.
Proof.
  split; [exact example_max_queue_wf'|].
  exact (copy_resets_entry_class (mem example_max_queue) (self example_max_queue)
           example_max_queue_wf').
Defined.

(** * The observations at the scenarios *)

Lemma example_queue_nonempty : _heap (self example_queue) ≠ [].
Proof. by vm_compute. Qed.

Lemma example_queue_has_b : is_Some (_position (self example_queue) !! "b").
Proof. apply (bool_decide_unpack _). by vm_compute. Qed.

Lemma example_queue_no_e : _position (self example_queue) !! "e" = None.
Proof. by vm_compute. Qed.

Lemma example_queue_b : __getitem__ "b" example_queue = Return 3 example_queue.
Proof. by vm_compute. Qed.

Lemma example_queue_reachable : reachable example_queue.
Proof. apply (reach_PQDict ∅ [example_pairs] []). by vm_compute. Qed.

Lemma setitem_getitem_witness :
  wf example_queue
  ∧ ∃ w', __setitem__ "b" 9 example_queue = Return () w'
      ∧ wf w'
      ∧ __getitem__ "b" w' = Return 9 w'
      ∧ (∀ k, k ≠ "b" → priority w' k = priority example_queue k)
      ∧ length (_heap (self w')) =
          if bool_decide (is_Some (_position (self example_queue) !! "b"))
          then length (_heap (self example_queue))
          else S (length (_heap (self example_queue))).
Proof.
  split; [exact example_queue_wf|].
  exact (setitem_getitem example_queue "b" 9 example_queue_wf).
Defined.

Lemma delitem_removes_witness :
  is_Some (_position (self example_queue) !! "b")
  ∧ ∃ w', __delitem__ "b" example_queue = Return () w'
      ∧ wf w'
      ∧ __getitem__ "b" w' = Raise KeyError w'
      ∧ __contains__ "b" w' = Return false w'
      ∧ (∀ k, k ≠ "b" → priority w' k = priority example_queue k)
      ∧ S (length (_heap (self w'))) = length (_heap (self example_queue)).
Proof.
  split; [exact example_queue_has_b|].
  exact (delitem_removes example_queue "b" example_queue_wf example_queue_has_b).
Defined.

Lemma pop_returns_priority_witness :
  __getitem__ "b" example_queue = Return 3 example_queue
  ∧ (∃ w', pop "b" None example_queue = Return 3 w'
       ∧ __delitem__ "b" example_queue = Return () w'
       ∧ wf w'
       ∧ priority w' "b" = None
       ∧ ∀ k, k ≠ "b" → priority w' k = priority example_queue k)
  ∧ priority example_queue "e" = None
  ∧ pop "e" (Some 7) example_queue = Return 7 example_queue.
Proof.
  assert (priority example_queue "e" = None) as He by (by vm_compute).
  split; [exact example_queue_b|]. split; [|split; [exact He|]].
  - exact (proj1 (pop_returns_priority example_queue "b" None example_queue_wf)
             3 example_queue_b).
  - exact (proj2 (pop_returns_priority example_queue "e" (Some 7) example_queue_wf) He).
Defined.

Lemma peek_best_witness :
  _heap (self example_max_queue) ≠ []
  ∧ ∃ k p, peek example_max_queue = Return (k, p) example_max_queue
      ∧ __getitem__ k example_max_queue = Return p example_max_queue
      ∧ ∀ k' p', __getitem__ k' example_max_queue = Return p' example_max_queue →
          cmp_of (create_entry (self example_max_queue)) p' p = false
          ∧ (create_entry (self example_max_queue) = MinEntry → p ≤ p')
          ∧ (create_entry (self example_max_queue) = MaxEntry → p' ≤ p).
Proof.
  assert (_heap (self example_max_queue) ≠ []) as Hne by (by vm_compute).
  split; [exact Hne|].
  exact (peek_best example_max_queue example_max_queue_wf Hne).
Defined.

Lemma popitem_takes_best_witness :
  _heap (self example_queue) ≠ []
  ∧ ∃ k p w', peek example_queue = Return (k, p) example_queue
      ∧ popitem example_queue = Return (k, p) w'
      ∧ wf w'
      ∧ __getitem__ k w' = Raise KeyError w'
      ∧ (∀ k', k' ≠ k → priority w' k' = priority example_queue k')
      ∧ S (length (_heap (self w'))) = length (_heap (self example_queue)).
Proof.
  split; [exact example_queue_nonempty|].
  exact (popitem_takes_best example_queue example_queue_wf example_queue_nonempty).
Defined.

Lemma example_init_pairs_NoDup :
  NoDup (init_pairs [example_pairs] [("e", 4)]).*1.
Proof. apply (bool_decide_unpack _). by vm_compute. Qed.

Lemma construction_lookup_witness :
  ∃ w : world (K:=string),
    PQDict_call [example_pairs] [("e", 4)] ∅ = Return () w
    ∧ wf w ∧ create_entry (self w) = MinEntry
    ∧ (∀ k p, __getitem__ k w = Return p w
              ↔ (k, p) ∈ init_pairs [example_pairs] [("e", 4)])
    ∧ (∀ k, k ∉ (init_pairs [example_pairs] [("e", 4)]).*1 →
         __getitem__ k w = Raise KeyError w)
    ∧ length (_heap (self w)) = length (init_pairs [example_pairs] [("e", 4)])
    ∧ (∀ x, is_Some ((∅ : gmap loc (Entry (K:=string))) !! x) →
         mem w !! x = (∅ : gmap loc (Entry (K:=string))) !! x).
Proof.
  apply (construction_lookup ∅ [example_pairs] [("e", 4)]).
  - simpl. lia.
  - exact example_init_pairs_NoDup.
Defined.

Lemma custompq_lookup_witness :
  (∃ w : world (K:=string),
     custompq (EntryClass MaxEntry) [example_pairs] [("e", 4)] ∅ = Return () w
     ∧ wf w ∧ create_entry (self w) = MaxEntry
     ∧ (∀ k p, __getitem__ k w = Return p w
               ↔ (k, p) ∈ init_pairs [example_pairs] [("e", 4)])
     ∧ length (_heap (self w)) = length (init_pairs [example_pairs] [("e", 4)]))
  ∧ minpq [example_pairs] [("e", 4)] ∅
      = custompq (EntryClass MinEntry) [example_pairs] [("e", 4)] ∅
  ∧ maxpq [example_pairs] [("e", 4)] ∅
      = custompq (EntryClass MaxEntry) [example_pairs] [("e", 4)] ∅.
Proof.
  apply (custompq_lookup ∅ MaxEntry [example_pairs] [("e", 4)]).
  - exact swo_MaxEntry.
  - simpl. lia.
  - exact example_init_pairs_NoDup.
Defined.

Lemma fromfunction_lookup_witness :
  ∃ w : world (K:=string),
    fromfunction ["a"; "bb"; "ccc"] (λ k, Z.of_nat (String.length k)) ∅ = Return () w
    ∧ wf w ∧ create_entry (self w) = MinEntry
    ∧ (∀ k, k ∈ ["a"; "bb"; "ccc"] →
         __getitem__ k w = Return (Z.of_nat (String.length k)) w)
    ∧ (∀ k, k ∉ ["a"; "bb"; "ccc"] → __getitem__ k w = Raise KeyError w)
    ∧ length (_heap (self w)) = length ["a"; "bb"; "ccc"].
Proof.
  apply (fromfunction_lookup ∅ ["a"; "bb"; "ccc"] (λ k, Z.of_nat (String.length k))).
  apply (bool_decide_unpack _). by vm_compute.
Defined.

Lemma constructors_raise_TypeError_witness :
  PQDict_call [example_pairs; example_pairs] [] ∅
    = Raise TypeError (mkWorld ∅ (mkPQDict MinEntry [] ∅))
  ∧ custompq OtherClass [example_pairs] [] ∅
    = Raise TypeError (mkWorld ∅ (mkPQDict MinEntry [] ∅)).
Proof.
  pose proof (constructors_raise_TypeError (K:=string) ∅ MinEntry
                [example_pairs; example_pairs] []) as [Hmany _].
  pose proof (constructors_raise_TypeError (K:=string) ∅ MinEntry
                [example_pairs] []) as [_ Hother].
  split; [|exact Hother]. apply Hmany. simpl. lia.
Defined.

Lemma iter_yields_every_key_once_witness :
  ∃ ks, __iter__ example_queue = Return ks example_queue
    ∧ NoDup ks
    ∧ length ks = length (_heap (self example_queue))
    ∧ (∀ k, k ∈ ks ↔ ∃ p, __getitem__ k example_queue = Return p example_queue)
    ∧ (∀ k p, peek example_queue = Return (k, p) example_queue → head ks = Some k).
Proof. exact (iter_yields_every_key_once example_queue example_queue_wf). Defined.

Lemma iteritems_sorted_witness :
  ∃ its w', iteritems example_max_queue = Return its w'
    ∧ (∀ k p, (k, p) ∈ its
              ↔ __getitem__ k example_max_queue = Return p example_max_queue)
    ∧ NoDup its.*1
    ∧ StronglySorted (pops_before (create_entry (self example_max_queue))) its
    ∧ (create_entry (self example_max_queue) = MinEntry → Sorted Z.le its.*2)
    ∧ (create_entry (self example_max_queue) = MaxEntry → Sorted Z.ge its.*2)
    ∧ _heap (self w') = [] ∧ _position (self w') = ∅.
Proof. exact (iteritems_sorted example_max_queue example_max_queue_wf). Defined.

Lemma iterkeys_itervalues_witness :
  ∃ its w', iteritems example_queue = Return its w'
    ∧ iterkeys example_queue = Return its.*1 w'
    ∧ itervalues example_queue = Return its.*2 w'
    ∧ NoDup its.*1
    ∧ (∀ k, k ∈ its.*1 ↔ ∃ p, __getitem__ k example_queue = Return p example_queue)
    ∧ (create_entry (self example_queue) = MinEntry → Sorted Z.le its.*2)
    ∧ (create_entry (self example_queue) = MaxEntry → Sorted Z.ge its.*2)
    ∧ _heap (self w') = [].
Proof. exact (iterkeys_itervalues example_queue example_queue_wf). Defined.

(** The keys of the scenario loaded into the heap list by the loop of
    [__init__], before [_heapify] runs. *)
Lemma heapify_establishes_heap_property_witness :
  ∃ σ h P,
    init_loop example_pairs 0 (mkWorld ∅ (mkPQDict MinEntry [] ∅))
      = Return 4 (mkWorld σ (mkPQDict MinEntry h P))
    ∧ prios σ h = [5; 3; 8; 1]
    ∧ ∃ h' P',
        _heapify (mkWorld σ (mkPQDict MinEntry h P))
          = Return () (mkWorld σ (mkPQDict MinEntry h' P'))
        ∧ h' ≡ₚ h
        ∧ pos_sound σ h' P'
        ∧ (pos_complete σ h P → pos_complete σ h' P')
        ∧ heap_property (mkWorld σ (mkPQDict MinEntry h' P')).
Proof.
  destruct (init_loop_spec (K:=string) MinEntry example_pairs ∅ [] ∅)
    as (σ & h & P & Hr & Hnd & Hok & Hs & Hit & _).
  - constructor.
  - intros l Hl. by apply elem_of_nil in Hl.
  - apply (sound_empty ∅ ∅).
  - exists σ, h, P. split.
    + change (Z.of_nat (length (@nil loc))) with 0 in Hr. rewrite Hr. do 2 f_equal.
      apply (f_equal length) in Hit. unfold items in Hit. rewrite length_fmap in Hit.
      rewrite Hit. done.
    + split.
      * rewrite <-items_prios, Hit. done.
      * exact (heapify_establishes_heap_property σ MinEntry h P swo_MinEntry Hnd Hok Hs).
Defined.

Lemma world_eta' {K} `{Countable K} (w : world (K:=K)) :
  mkWorld (mem w)
    (mkPQDict (create_entry (self w)) (_heap (self w)) (_position (self w))) = w.
Proof. by destruct w as [? []]. Qed.

Lemma example_queue_wfk :
  wfk (create_entry (self example_queue))
    (mkWorld (mem example_queue)
       (mkPQDict (create_entry (self example_queue))
          (_heap (self example_queue)) (_position (self example_queue)))).
Proof. rewrite world_eta'. exact (proj1 example_queue_wf). Qed.

Lemma sink_restores_order_witness :
  ∃ h' P',
    _sink 0 (mkWorld (mem example_queue)
               (mkPQDict (create_entry (self example_queue))
                  (_heap (self example_queue)) (_position (self example_queue))))
      = Return () (mkWorld (mem example_queue)
                     (mkPQDict (create_entry (self example_queue)) h' P'))
    ∧ h' ≡ₚ _heap (self example_queue)
    ∧ pos_sound (mem example_queue) h' P'
    ∧ (pos_complete (mem example_queue) (_heap (self example_queue))
         (_position (self example_queue)) →
       pos_complete (mem example_queue) h' P')
    ∧ (∀ i : nat, Z.of_nat i < 0 → h' !! i = _heap (self example_queue) !! i)
    ∧ ordered_from (cmp_of (create_entry (self example_queue))) 0
        (prios (mem example_queue) h').
Proof.
  pose proof (proj1 example_queue_wf) as [Hswo Hnd Hok Hs Hord].
  apply (sink_restores_order (mem example_queue) (create_entry (self example_queue))
           (_heap (self example_queue)) (_position (self example_queue)) 0);
    [done|done|done|done| |].
  - split; [lia|]. by vm_compute.
  - eapply ordered_from_mono; [|exact Hord]. lia.
Defined.

(** The heap list of the scenario: its last slot, and the slots before. *)
Lemma example_heap_snoc :
  _heap (self example_queue)
  = removelast (_heap (self example_queue))
      ++ [default 0%nat (last (_heap (self example_queue)))].
Proof. by vm_compute. Qed.

Lemma swim_restores_order_witness :
  ∃ h' P',
    _swim (Z.of_nat (length (removelast (_heap (self example_queue))))) 0
      (mkWorld (mem example_queue)
         (mkPQDict (create_entry (self example_queue))
            (removelast (_heap (self example_queue))
               ++ [default 0%nat (last (_heap (self example_queue)))])
            (_position (self example_queue))))
      = Return () (mkWorld (mem example_queue)
                     (mkPQDict (create_entry (self example_queue)) h' P'))
    ∧ h' ≡ₚ removelast (_heap (self example_queue))
             ++ [default 0%nat (last (_heap (self example_queue)))]
    ∧ pos_sound (mem example_queue) h' P'
    ∧ (pos_complete (mem example_queue)
         (removelast (_heap (self example_queue))
            ++ [default 0%nat (last (_heap (self example_queue)))])
         (_position (self example_queue)) →
       pos_complete (mem example_queue) h' P')
    ∧ heap_property (mkWorld (mem example_queue)
                       (mkPQDict (create_entry (self example_queue)) h' P')).
Proof.
  pose proof (proj1 example_queue_wf) as [Hswo Hnd Hok Hs Hord].
  rewrite example_heap_snoc in Hnd, Hok, Hs, Hord.
  apply (swim_restores_order (mem example_queue) (create_entry (self example_queue))
           (removelast (_heap (self example_queue))) (_position (self example_queue))
           (default 0%nat (last (_heap (self example_queue)))));
    [done|done|done|done|].
  exact (heap_ordered_prios_app _ _ _ _ Hord).
Defined.

Lemma only_KeyError_escapes_witness :
  reachable example_queue
  ∧ returns_or_KeyError (__getitem__ "e" example_queue)
  ∧ (∃ w', __setitem__ "e" 4 example_queue = Return () w')
  ∧ returns_or_KeyError (additem "e" 4 example_queue)
  ∧ returns_or_KeyError (updateitem "e" 4 example_queue)
  ∧ returns_or_KeyError (__delitem__ "e" example_queue)
  ∧ returns_or_KeyError (pop "e" None example_queue)
  ∧ returns_or_KeyError (popitem example_queue)
  ∧ returns_or_KeyError (peek example_queue).
Proof.
  split; [exact example_queue_reachable|].
  exact (only_KeyError_escapes example_queue "e" 4 None example_queue_reachable).
Defined.

Lemma mutation_keeps_bijection_witness :
  mutation example_queue example_after_update
  ∧ wf example_after_update ∧ index_bijection example_after_update.
Proof.
  assert (mutation example_queue example_after_update) as Hm.
  { exists "a", 0, None. left. by vm_compute. }
  split; [exact Hm|].
  exact (mutation_keeps_bijection example_queue example_after_update
           example_queue_wf Hm).
Defined.

Lemma additem_pop_roundtrip_witness :
  _position (self example_queue) !! "e" = None
  ∧ ∃ w1 w2, additem "e" 4 example_queue = Return () w1
      ∧ pop "e" None w1 = Return 4 w2
      ∧ wf w2
      ∧ (∀ k, priority w2 k = priority example_queue k)
      ∧ length (_heap (self w2)) = length (_heap (self example_queue)).
Proof.
  split; [exact example_queue_no_e|].
  exact (additem_pop_roundtrip example_queue "e" 4 None
           example_queue_wf example_queue_no_e).
Defined.

Lemma example_queue_items :
  items (mem example_queue) (_heap (self example_queue)) ≡ₚ example_pairs.
Proof.
  destruct (PQDict_call_spec ∅ example_pairs example_pairs_NoDup) as (w & Hr & _ & _ & Hit).
  unfold example_queue. rewrite Hr. exact Hit.
Qed.

Lemma example_queue_MinEntry : create_entry (self example_queue) = MinEntry.
Proof. by vm_compute. Qed.

Lemma example_queue_positive k p :
  __getitem__ k example_queue = Return p example_queue →
  cmp_of (create_entry (self example_queue)) 0 p = true.
Proof.
  intros Hget. apply wf_getitem_items in Hget; [|exact example_queue_wf].
  rewrite example_queue_items in Hget. rewrite example_queue_MinEntry.
  unfold example_pairs in Hget. simpl.
  repeat (apply elem_of_cons in Hget as [[= _ ->]|Hget]; [done|]).
  by apply elem_of_nil in Hget.
Qed.

Lemma setitem_best_peek_witness :
  ∃ w', __setitem__ "c" 0 example_queue = Return () w'
      ∧ peek w' = Return ("c", 0) w'.
Proof.
  apply (setitem_best_peek example_queue "c" 0 example_queue_wf).
  intros k p _. apply example_queue_positive.
Defined.

Lemma len_contains_agree_witness :
  __len__ example_queue
    = Return (Z.of_nat (size (_position (self example_queue)))) example_queue
  ∧ (∀ dk, __contains__ dk example_queue = Return true example_queue
           ↔ ∃ p, __getitem__ dk example_queue = Return p example_queue)
  ∧ (__len__ example_queue = Return 0 example_queue
     ↔ peek example_queue = Raise KeyError example_queue).
Proof. exact (len_contains_agree example_queue example_queue_wf). Defined.


Lemma construction_bijection_iff_distinct_witness :
  ∃ w : world (K:=string),
    PQDict_call [[("a", 1); ("a", 2); ("b", 0)]] [] ∅ = Return () w
    ∧ heap_property w
    ∧ length (_heap (self w)) = length (init_pairs [[("a", 1); ("a", 2); ("b", 0)]] [])
    ∧ (∀ k p, __getitem__ k w = Return p w →
         (k, p) ∈ init_pairs [[("a", 1); ("a", 2); ("b", 0)]] [])
    ∧ (index_bijection w ↔ NoDup (init_pairs [[("a", 1); ("a", 2); ("b", 0)]] []).*1).
Proof.
  apply (construction_bijection_iff_distinct ∅ [[("a", 1); ("a", 2); ("b", 0)]] []).
  simpl. lia.
Defined.
